(** * playlist-gen-blitz: the Spotify synchronisation core

    A shallow embedding of [app/spotify/spotifyApi.ts] and
    [app/lib/smartLabel.ts], over the tables of [db/schema.prisma], and the
    properties of the token refresh, the favorites pull and the playlist
    push that the specification states.

    Conventions of the embedding.
    - Strings are [string]; a JS string is read as its UTF-8 bytes.
    - Instants ([DateTime] columns, [Date] objects, the ISO texts of the
      API) are [Z], milliseconds since the epoch; [expires_in] is a [Z].
    - An [async] function is a computation in the monad [M]: it threads the
      [World] (clock, in-memory [user] object, database, the remote
      service, and the traces of requests, log lines and row writes) and
      ends in a value or in a thrown exception.  Promises that the source
      runs with [Promise.all] are run in list order. *)

From Stdlib Require Import ZArith List String Ascii Bool Arith Lia Permutation.
Import ListNotations.

Local Open Scope string_scope.
Local Open Scope nat_scope.
Local Open Scope list_scope.

(* ================================================================== *)
(** * Library functions the code calls *)

(** ** lodash *)
Module Lodash.

Fixpoint chunk_from {A} (fuel size : nat) (array : list A) : list (list A) :=
  match fuel, array with
  | S fuel', _ :: _ =>
      firstn size array :: chunk_from fuel' size (skipn size array)
  | _, _ => []
  end.

(** [_.chunk(array, size)]: consecutive slices of [size] elements, the
    last one holding what remains; [[]] when [size < 1]. *)
Definition chunk {A} (array : list A) (size : nat) : list (list A) :=
  match size with
  | 0 => []
  | _ => chunk_from (List.length array) size array
  end.

Definition includes (x : string) (xs : list string) : bool :=
  existsb (String.eqb x) xs.

(** [_.uniqBy(array, iteratee)]: the first element of every key. *)
Fixpoint uniqBy_from {A} (key : A -> string) (seen : list string)
    (array : list A) : list A :=
  match array with
  | [] => []
  | x :: rest =>
      if includes (key x) seen then uniqBy_from key seen rest
      else x :: uniqBy_from key (key x :: seen) rest
  end.

Definition uniqBy {A} (array : list A) (key : A -> string) : list A :=
  uniqBy_from key [] array.

(** [_.uniq(array)] *)
Definition uniq (array : list string) : list string :=
  uniqBy array (fun x => x).

(** [_.difference(array, values)] *)
Definition difference (array values : list string) : list string :=
  filter (fun x => negb (includes x values)) array.

(** [_.differenceBy(array, values, iteratee)] *)
Definition differenceBy {A B} (array : list A) (values : list B)
    (keyA : A -> string) (keyB : B -> string) : list A :=
  filter (fun x => negb (includes (keyA x) (map keyB values))) array.

(** [array.entries()]: every element with its index. *)
Fixpoint entries_from {A} (index : nat) (array : list A) : list (nat * A) :=
  match array with
  | [] => []
  | x :: rest => (index, x) :: entries_from (S index) rest
  end.

Definition entries {A} (array : list A) : list (nat * A) :=
  entries_from 0 array.

End Lodash.

(** ** JavaScript built-ins *)
Module Js.

(** [a ?? b] on a value that may be [undefined]. *)
Definition nullish {A} (a : option A) (b : A) : A :=
  match a with
  | Some v => v
  | None => b
  end.

Definition hexDigit (n : nat) : ascii :=
  ascii_of_nat (if n <? 10 then 48 + n else 55 + n).

Definition between (lo hi n : nat) : bool := (lo <=? n) && (n <=? hi).

(** The characters [encodeURIComponent] leaves alone:
    [A-Z a-z 0-9 - _ . ! ~ * ' ( )]. *)
Definition unreserved (c : ascii) : bool :=
  let n := nat_of_ascii c in
  between 65 90 n || between 97 122 n || between 48 57 n
  || existsb (Nat.eqb n) [45; 95; 46; 33; 126; 42; 39; 40; 41].

(** A string is kept as the bytes of its UTF-8 encoding.  A surrogate
    that has no partner, which a JavaScript string may hold, has no UTF-8
    encoding; it is kept as the three bytes the same scheme gives for its
    code point, [ED] followed by a byte of [A0]..[BF] and one more.  No
    other character starts with these two bytes. *)
Definition loneSurrogate (c next : ascii) : bool :=
  (nat_of_ascii c =? 237) && between 160 191 (nat_of_ascii next).

Definition percentEncoded (c : ascii) (rest : string) : string :=
  let n := nat_of_ascii c in
  String "%" (String (hexDigit (n / 16)) (String (hexDigit (n mod 16)) rest)).

(** [encodeURIComponent(s)]: every byte that is not left alone becomes
    [%XX]; [None] when a [URIError] is thrown instead, which is what a
    surrogate without its partner brings about. *)
Fixpoint encodeURIComponent (s : string) : option string :=
  match s with
  | EmptyString => Some EmptyString
  | String c rest =>
      if match rest with
         | String next _ => loneSurrogate c next
         | EmptyString => false
         end
      then None
      else
        match encodeURIComponent rest with
        | Some encoded =>
            Some (if unreserved c then String c encoded else percentEncoded c encoded)
        | None => None
        end
  end.

(** A [Date] is kept as its time value, in milliseconds since the epoch.
    [new Date(value)] is an Invalid Date when the value is further than
    8.64e15 ms from the epoch. *)
Definition validDate (value : Z) : bool :=
  (Z.abs value <=? 8640000000000000)%Z.

End Js.

(* ================================================================== *)
(** * Data model: the tables of [db/schema.prisma]

    Relation fields are kept on one side: [Track.artists] holds the ids of
    the connected [Artist] rows, [Label.tracks] the ids of the connected
    [Track] rows.  The [Session] and [Token] tables are not touched by the
    synchronisation code and are left out. *)

Inductive Role := USER.

Module User.
Record t := mk {
  id : nat;
  createdAt : Z;
  updatedAt : Z;              (* @updatedAt *)
  role : Role;
  spotifyId : string;
  avatarUrl : option string;
  accessToken : string;
  accessTokenExpiresAt : Z;
  refreshToken : string
}.
End User.

Module Album.
Record t := mk {
  id : string;
  createdAt : Z;
  updatedAt : Z;
  name : string;
  thumbnailUrl : string;
  dateReleased : Z
}.
End Album.

Module Artist.
Record t := mk {
  id : string;
  createdAt : Z;
  updatedAt : Z;
  name : string;
  genres : list string
}.
End Artist.

Module Track.
Record t := mk {
  id : nat;
  createdAt : Z;
  updatedAt : Z;
  userId : nat;
  spotifyId : string;         (* @unique *)
  name : string;
  albumId : string;
  artists : list string;
  dateAdded : Z;
  explicit : bool
}.
End Track.

Module Label.
Record t := mk {
  id : nat;
  createdAt : Z;
  updatedAt : Z;
  userId : nat;
  name : string;
  tracks : list nat;
  smartCriteria : option string
}.
End Label.

Module Playlist.
Record t := mk {
  id : nat;
  createdAt : Z;
  updatedAt : Z;
  userId : nat;
  spotifyId : string;         (* @unique *)
  labelId : nat               (* @unique *)
}.
End Playlist.

Module Db.
Record t := mk {
  users : list User.t;
  albums : list Album.t;
  artists : list Artist.t;
  tracks : list Track.t;
  labels : list Label.t;
  playlists : list Playlist.t
}.
End Db.

(** Every row insert or update the store performs. *)
Inductive Write :=
| UserUpdated (id : nat)
| AlbumCreated (id : string)
| ArtistCreated (id : string)
| TrackCreated (spotifyId : string)
| PlaylistCreated (spotifyId : string).

(* ================================================================== *)
(** * The Spotify Web API as the code sees it *)

(** ** Response shapes (the zod schemas) *)
Module Api.

Module Image.
Record t := mk { url : string }.
End Image.

Module Album.
Record t := mk {
  id : string;
  images : list Image.t;
  name : string;
  release_date : option Z
    (* the string, as [new Date(release_date)] reads it: a time value, or
       [None] for an Invalid Date *)
}.
End Album.

Module ArtistRef.
Record t := mk { id : string }.
End ArtistRef.

Module Track.
Record t := mk {
  album : Album.t;
  artists : list ArtistRef.t;
  explicit : bool;
  id : string;
  name : string
}.
End Track.

(** An element of [items] in [TracksResponse]. *)
Module Item.
Record t := mk { added_at : Z; track : Track.t }.
End Item.

(** An element of [artists] in [ArtistsResponse]; also [SpotifyArtist]. *)
Module Artist.
Record t := mk { id : string; name : string; genres : list string }.
End Artist.

(** [TokenResponse] *)
Module Token.
Record t := mk { access_token : string; expires_in : Z }.
End Token.

End Api.

(** A response body.  Each constructor is one JSON shape; a zod schema
    accepts exactly the shape it describes. *)
Inductive Json :=
| JToken (token : Api.Token.t)
| JTracks (items : list Api.Item.t)
| JArtists (artists : list (option Api.Artist.t))   (* [null] for an unknown id *)
| JPlaylist (id : string)
| JSnapshot
| JError (message : string).

(** ** Requests *)
Inductive Method := GET | POST | PUT | DELETE.

Inductive Url :=
| AccountsToken
    (* https://accounts.spotify.com/api/token *)
| MeTracks (offset limit : nat)
    (* https://api.spotify.com/v1/me/tracks?offset=${offset}&limit=${limit} *)
| ArtistsByIds (ids : list string)
    (* https://api.spotify.com/v1/artists?ids=${encodeURIComponent(ids.join(","))} *)
| UserPlaylists (userSpotifyId : string)
    (* https://api.spotify.com/v1/users/${user.spotifyId}/playlists *)
| PlaylistTracksWith (playlistSpotifyId : string) (uris : list string)
    (* https://api.spotify.com/v1/playlists/${id}/tracks?uris=${encodeURIComponent(uris.join(","))} *)
| PlaylistTracks (playlistSpotifyId : string).
    (* https://api.spotify.com/v1/playlists/${id}/tracks *)

Inductive Authorization :=
| Basic (clientId clientSecret : string)   (* Basic base64(id:secret) *)
| Bearer (accessToken : string).

Inductive Body :=
| NoBody
| RefreshGrant (refresh_token : string)
    (* grant_type=refresh_token&refresh_token=... *)
| NewPlaylist (name description : string) (public : bool)
| RemoveTracks (uris : list string).
    (* { tracks: [{ uri }, ...] } *)

Module Request.
Record t := mk {
  method : Method;
  url : Url;
  authorization : option Authorization;
  accept : option string;
  contentType : option string;
  body : Body
}.

(** [new Request(url)] and [new Request(url, { method, body, headers })]. *)
Definition get (url : Url) : t := mk GET url None None None NoBody.
Definition make (method : Method) (url : Url) (contentType : option string)
    (body : Body) : t :=
  mk method url None None contentType body.
End Request.

Module Response.
Record t := mk { ok : bool; status : nat; json : Json }.
End Response.

(** ** The service itself

    The state behind the endpoints and the way each endpoint answers: the
    environment the synchronisation runs against. *)
Module Remote.

Record t := mk {
  tokenGrants : string -> option Api.Token.t;
    (* what the token endpoint grants for a refresh token *)
  savedTracks : list Api.Item.t;
    (* the user's favorites, in the order the endpoint lists them *)
  artistCatalog : list Api.Artist.t;
  playlistItems : list (string * list string);
    (* the playlists: id and track uris *)
  playlistIds : list string;
    (* the ids the next created playlists receive *)
  refuses : Request.t -> bool
    (* requests answered with a non-2xx status *)
}.

Definition failure (status : nat) (message : string) : Response.t :=
  Response.mk false status (JError message).

Definition success (json : Json) : Response.t := Response.mk true 200 json.

Definition findArtist (r : t) (id : string) : option Api.Artist.t :=
  find (fun a => String.eqb (Api.Artist.id a) id) (artistCatalog r).

Definition hasPlaylist (r : t) (id : string) : bool :=
  existsb (fun p => String.eqb (fst p) id) (playlistItems r).

Definition updatePlaylist (r : t) (id : string)
    (f : list string -> list string) : t :=
  mk (tokenGrants r) (savedTracks r) (artistCatalog r)
     (map (fun p => if String.eqb (fst p) id then (fst p, f (snd p)) else p)
          (playlistItems r))
     (playlistIds r) (refuses r).

Definition without (uris : list string) (items : list string) : list string :=
  filter (fun u => negb (Lodash.includes u uris)) items.

Definition serve (r : t) (req : Request.t) : Response.t * t :=
  if refuses r req then (failure 500 "refused", r)
  else
    match Request.method req, Request.url req, Request.body req with
    | POST, AccountsToken, RefreshGrant refresh_token =>
        match tokenGrants r refresh_token with
        | Some token => (success (JToken token), r)
        | None => (failure 400 "invalid_grant", r)
        end
    | GET, MeTracks offset limit, _ =>
        (success (JTracks (firstn limit (skipn offset (savedTracks r)))), r)
    | GET, ArtistsByIds ids, _ =>
        (success (JArtists (map (findArtist r) ids)), r)
    | POST, UserPlaylists _, NewPlaylist _ _ _ =>
        match playlistIds r with
        | id :: ids =>
            (Response.mk true 201 (JPlaylist id),
             mk (tokenGrants r) (savedTracks r) (artistCatalog r)
                (playlistItems r ++ [(id, [])]) ids (refuses r))
        | [] => (failure 500 "no id", r)
        end
    | PUT, PlaylistTracksWith id uris, _ =>
        if hasPlaylist r id
        then (success JSnapshot, updatePlaylist r id (fun _ => uris))
        else (failure 404 "no such playlist", r)
    | POST, PlaylistTracksWith id uris, _ =>
        if hasPlaylist r id
        then (Response.mk true 201 JSnapshot,
              updatePlaylist r id (fun items => items ++ uris))
        else (failure 404 "no such playlist", r)
    | DELETE, PlaylistTracks id, RemoveTracks uris =>
        if hasPlaylist r id
        then (success JSnapshot, updatePlaylist r id (without uris))
        else (failure 404 "no such playlist", r)
    | _, _, _ => (failure 400 "bad request", r)
    end.

Definition itemsOf (r : t) (id : string) : option (list string) :=
  option_map snd (find (fun p => String.eqb (fst p) id) (playlistItems r)).

End Remote.

(* ================================================================== *)
(** * Effects: the world an operation runs in *)

Module Env.
Record t := mk { SPOTIFY_CLIENT_ID : string; SPOTIFY_CLIENT_SECRET : string }.
End Env.

Inductive PrismaFailure :=
| UniqueConstraint
| RecordNotFound
| InvalidWhere
| InconsistentResult
| ValidationError.     (* an argument the client rejects, an Invalid Date for one *)

(** What a [throw] (or a rejected promise) carries. *)
Inductive Exn :=
| ZodError                               (* [Schema.parse] rejected the body *)
| ResponseThrown (res : Response.t)      (* [throw res] in [spotifyFetch] *)
| PrismaError (failure : PrismaFailure)
| ParserError (message : string)
| URIError.                              (* thrown by [encodeURIComponent] *)

(** The lines written through [loglevel]. *)
Inductive LogLine :=
| Info (message : string)
| InfoRequest (method : Method) (url : Url)   (* `${req.method} ${req.url}` *)
| InfoStatus (status : nat)                   (* `Status: ${res.status}` *)
| Error (message : string)
| ErrorBody (body : Json)
| ErrorCaught (err : Exn).

Module World.
Record t := mk {
  clock : Z;                    (* what [Date.now()] and [new Date()] read *)
  env : Env.t;
  user : User.t;                (* the object the [user] argument refers to *)
  db : Db.t;
  spotify : Remote.t;
  requests : list Request.t;    (* every request handed to [fetch], oldest first *)
  console : list LogLine;
  writes : list Write           (* every row written, oldest first *)
}.

Definition setUser (u : User.t) (w : t) : t :=
  mk (clock w) (env w) u (db w) (spotify w) (requests w) (console w) (writes w).

Definition setDb (d : Db.t) (ws : list Write) (w : t) : t :=
  mk (clock w) (env w) (user w) d (spotify w) (requests w) (console w)
     (writes w ++ ws).

Definition exchanged (req : Request.t) (r : Remote.t) (w : t) : t :=
  mk (clock w) (env w) (user w) (db w) r (requests w ++ [req]) (console w)
     (writes w).

Definition logged (line : LogLine) (w : t) : t :=
  mk (clock w) (env w) (user w) (db w) (spotify w) (requests w)
     (console w ++ [line]) (writes w).
End World.

(** How a computation ends.  [Unfinished] is the model's answer when the
    iteration bound given to an unbounded loop is used up. *)
Inductive Outcome (A : Type) :=
| Return (value : A)
| Throw (err : Exn)
| Unfinished.
Arguments Return {A} value.
Arguments Throw {A} err.
Arguments Unfinished {A}.

Definition M (A : Type) : Type := World.t -> Outcome A * World.t.

Definition ret {A} (a : A) : M A := fun w => (Return a, w).

Definition bind {A B} (m : M A) (k : A -> M B) : M B :=
  fun w =>
    match m w with
    | (Return a, w') => k a w'
    | (Throw e, w') => (Throw e, w')
    | (Unfinished, w') => (Unfinished, w')
    end.

Definition throw {A} (e : Exn) : M A := fun w => (Throw e, w).

(** [try { body } catch (err) { handler(err) }] *)
Definition tryCatch {A} (body : M A) (handler : Exn -> M A) : M A :=
  fun w =>
    match body w with
    | (Throw e, w') => handler e w'
    | done => done
    end.

(** A value computed without effects, which may still throw. *)
Definition lift {A} (o : Outcome A) : M A := fun w => (o, w).

Notation "x <- c1 ;; c2" := (bind c1 (fun x => c2))
  (at level 61, c1 at next level, right associativity).
Notation "c1 ;; c2" := (bind c1 (fun _ => c2))
  (at level 61, right associativity).

(** [for (const x of xs) { await body(x) }] *)
Fixpoint forEach {A} (xs : list A) (body : A -> M unit) : M unit :=
  match xs with
  | [] => ret tt
  | x :: rest => body x ;; forEach rest body
  end.

(** [await Promise.all(xs.map(f))] in one schedule: the promises run in
    list order, and the first failure is the result.  The source starts
    every promise at once; the order in which they settle, and what the
    others do once one has failed, are not modelled. *)
Fixpoint promiseAll {A B} (xs : list A) (f : A -> M B) : M (list B) :=
  match xs with
  | [] => ret []
  | x :: rest => y <- f x ;; ys <- promiseAll rest f ;; ret (y :: ys)
  end.

(** [Date.now()] and [new Date()]: the clock of the world.  A run does
    not move it; a world met later may have any time. *)
Definition Date_now : M Z := fun w => (Return (World.clock w), w).
Definition theUser : M User.t := fun w => (Return (World.user w), w).
Definition theEnv : M Env.t := fun w => (Return (World.env w), w).
Definition log (line : LogLine) : M unit :=
  fun w => (Return tt, World.logged line w).

(** [await fetch(req)]: the request goes out, the service answers, with a
    body that is JSON.  A call that the network fails is not modelled. *)
Definition fetch (req : Request.t) : M Response.t :=
  fun w =>
    let (res, remote) := Remote.serve (World.spotify w) req in
    (Return res, World.exchanged req remote w).

(** ** zod schemas *)
Definition TokenResponse_parse (body : Json) : M Api.Token.t :=
  match body with
  | JToken token => ret token
  | _ => throw ZodError
  end.

Definition TracksResponse_parse (body : Json) : M (list Api.Item.t) :=
  match body with
  | JTracks items => ret items
  | _ => throw ZodError
  end.

Fixpoint allPresent {A} (xs : list (option A)) : option (list A) :=
  match xs with
  | [] => Some []
  | Some x :: rest => option_map (cons x) (allPresent rest)
  | None :: _ => None
  end.

Definition ArtistsResponse_parse (body : Json) : M (list Api.Artist.t) :=
  match body with
  | JArtists artists =>
      match allPresent artists with
      | Some found => ret found
      | None => throw ZodError
      end
  | _ => throw ZodError
  end.

Definition CreatePlaylistResponse_parse (body : Json) : M string :=
  match body with
  | JPlaylist id => ret id
  | _ => throw ZodError
  end.

(* ================================================================== *)
(** * The criteria language, as an interface

    [app/lib/smartLabel.ts] imports [parser] from the generated module
    [./labelGrammar] and hands its result to Prisma as a
    [Prisma.TrackWhereInput].  The synchronisation code depends on three
    things only: the type of filters, what [parser.parse] answers, and
    which tracks a filter selects. *)

(** [{ success: true, result } | { success: false }] *)
Inductive ParseResult (R : Type) :=
| ParseSuccess (result : R)
| ParseFailure.
Arguments ParseSuccess {R} result.
Arguments ParseFailure {R}.

Class CriteriaLanguage := {
  TrackWhereInput : Type;
  parser_parse : string -> Outcome (ParseResult TrackWhereInput);
  (** The tracks a filter selects; [None] when the store rejects the filter. *)
  selects : TrackWhereInput -> option (Db.t -> Track.t -> bool)
}.

(* ================================================================== *)
(** * The store: the Prisma calls the code makes *)

Module AlbumCreateManyInput.
Record t := mk {
  id : string;
  name : string;
  thumbnailUrl : string;
  dateReleased : option Z     (* a [Date], [None] when it is invalid *)
}.
End AlbumCreateManyInput.

Module TrackCreateInput.
Record t := mk {
  user : nat;                 (* { connect: { id } } *)
  spotifyId : string;
  name : string;
  album : string;             (* { connect: { id } } *)
  artists : list string;      (* { connect: [{ id }, ...] } *)
  dateAdded : Z;
  explicit : bool
}.
End TrackCreateInput.

Module PlaylistCreateManyInput.
Record t := mk { userId : nat; spotifyId : string; labelId : nat }.
End PlaylistCreateManyInput.

(** The two fields [refreshAccessToken] writes. *)
Module ModifiedFields.
Record t := mk { accessToken : string; accessTokenExpiresAt : Z }.
End ModifiedFields.

(** A playlist with [include: { label: { include: { tracks } } }]. *)
Module LabelWithTracks.
Record t := mk {
  label : Label.t;
  tracks : list Track.t       (* the explicit relation, [dateAdded] descending *)
}.
Definition smartCriteria (l : t) : option string := Label.smartCriteria (label l).
End LabelWithTracks.

Module PlaylistWithLabel.
Record t := mk { playlist : Playlist.t; label : LabelWithTracks.t }.
Definition spotifyId (p : t) : string := Playlist.spotifyId (playlist p).
End PlaylistWithLabel.

(** [{ userId: user.id, ...filter }]: spreading [null] adds no key. *)
Module TrackWhere.
Record t {L : CriteriaLanguage} := mk {
  userId : nat;
  spread : option TrackWhereInput
}.
Arguments mk {L} userId spread.
Arguments userId {L} _.
Arguments spread {L} _.
End TrackWhere.

Module Prisma.

Definition nextId {A} (id : A -> nat) (rows : list A) : nat :=
  S (fold_right (fun row m => Nat.max (id row) m) 0 rows).

Definition hasAlbum (d : Db.t) (id : string) : bool :=
  existsb (fun a => String.eqb (Album.id a) id) (Db.albums d).

Definition hasArtist (d : Db.t) (id : string) : bool :=
  existsb (fun a => String.eqb (Artist.id a) id) (Db.artists d).

Definition hasUser (d : Db.t) (id : nat) : bool :=
  existsb (fun u => User.id u =? id) (Db.users d).

Definition hasTrack (d : Db.t) (spotifyId : string) : bool :=
  existsb (fun t => String.eqb (Track.spotifyId t) spotifyId) (Db.tracks d).

(** [db.user.update({ where: { id }, data })]; the store stamps
    [updatedAt] (the column is [@updatedAt]). *)
Definition updateUserRow (now : Z) (id : nat) (data : ModifiedFields.t)
    (u : User.t) : User.t :=
  if User.id u =? id
  then User.mk (User.id u) (User.createdAt u) now (User.role u)
         (User.spotifyId u) (User.avatarUrl u)
         (ModifiedFields.accessToken data)
         (ModifiedFields.accessTokenExpiresAt data)
         (User.refreshToken u)
  else u.

(** The [Date] in [data] is held as the value it was built from; the
    client rejects the call when that value makes an Invalid Date. *)
Definition user_update (id : nat) (data : ModifiedFields.t) : M unit :=
  fun w =>
    let d := World.db w in
    if negb (Js.validDate (ModifiedFields.accessTokenExpiresAt data))
    then (Throw (PrismaError ValidationError), w)
    else if hasUser d id
    then (Return tt,
          World.setDb
            (Db.mk (map (updateUserRow (World.clock w) id data) (Db.users d))
                   (Db.albums d) (Db.artists d) (Db.tracks d) (Db.labels d)
                   (Db.playlists d))
            [UserUpdated id] w)
    else (Throw (PrismaError RecordNotFound), w).

(** The row of an input whose date is valid. *)
Definition albumRow (now : Z) (a : AlbumCreateManyInput.t) : Album.t :=
  Album.mk (AlbumCreateManyInput.id a) now now (AlbumCreateManyInput.name a)
    (AlbumCreateManyInput.thumbnailUrl a)
    (Js.nullish (AlbumCreateManyInput.dateReleased a) 0%Z).

Definition validAlbum (a : AlbumCreateManyInput.t) : bool :=
  match AlbumCreateManyInput.dateReleased a with
  | Some _ => true
  | None => false
  end.

(** The rows that [createMany] with [skipDuplicates] inserts: every input
    whose id is not there yet. *)
Fixpoint newAlbums (now : Z) (present : list string)
    (data : list AlbumCreateManyInput.t) : list Album.t :=
  match data with
  | [] => []
  | a :: rest =>
      if Lodash.includes (AlbumCreateManyInput.id a) present
      then newAlbums now present rest
      else albumRow now a
           :: newAlbums now (AlbumCreateManyInput.id a :: present) rest
  end.

(** [db.album.createMany({ data, skipDuplicates: true })]; the client
    rejects the call when an input holds an Invalid Date. *)
Definition album_createMany_skipDuplicates
    (data : list AlbumCreateManyInput.t) : M nat :=
  fun w =>
    let d := World.db w in
    let rows := newAlbums (World.clock w) (map Album.id (Db.albums d)) data in
    if forallb validAlbum data
    then (Return (List.length rows),
          World.setDb
            (Db.mk (Db.users d) (Db.albums d ++ rows) (Db.artists d) (Db.tracks d)
                   (Db.labels d) (Db.playlists d))
            (map (fun a => AlbumCreated (Album.id a)) rows) w)
    else (Throw (PrismaError ValidationError), w).

(** [db.artist.findMany({ where: { id: { in: ids } }, select: { id: true } })] *)
Definition artist_findMany_in (ids : list string) : M (list string) :=
  fun w =>
    (Return (filter (fun id => Lodash.includes id ids)
               (map Artist.id (Db.artists (World.db w)))), w).

Definition artistRow (now : Z) (a : Api.Artist.t) : Artist.t :=
  Artist.mk (Api.Artist.id a) now now (Api.Artist.name a) (Api.Artist.genres a).

Fixpoint distinct (ids : list string) : bool :=
  match ids with
  | [] => true
  | id :: rest => negb (Lodash.includes id rest) && distinct rest
  end.

(** [db.artist.createMany({ data })]: one statement, which inserts every
    row or, on a duplicate id, none. *)
Definition artist_createMany (data : list Api.Artist.t) : M nat :=
  fun w =>
    let d := World.db w in
    let ids := map Api.Artist.id data in
    if distinct ids && forallb (fun id => negb (hasArtist d id)) ids
    then (Return (List.length data),
          World.setDb
            (Db.mk (Db.users d) (Db.albums d)
                   (Db.artists d ++ map (artistRow (World.clock w)) data)
                   (Db.tracks d) (Db.labels d) (Db.playlists d))
            (map (fun id => ArtistCreated id) ids) w)
    else (Throw (PrismaError UniqueConstraint), w).

(** [db.track.findMany({ select: { spotifyId: true },
                         where: { userId, spotifyId: { in: ids } } })] *)
Definition track_findMany_in (userId : nat) (ids : list string)
    : M (list string) :=
  fun w =>
    (Return (map Track.spotifyId
               (filter (fun t => (Track.userId t =? userId)
                                 && Lodash.includes (Track.spotifyId t) ids)
                       (Db.tracks (World.db w)))), w).

Definition trackRow (now : Z) (id : nat) (t : TrackCreateInput.t) : Track.t :=
  Track.mk id now now (TrackCreateInput.user t) (TrackCreateInput.spotifyId t)
    (TrackCreateInput.name t) (TrackCreateInput.album t)
    (TrackCreateInput.artists t) (TrackCreateInput.dateAdded t)
    (TrackCreateInput.explicit t).

(** [db.track.create({ data })]: the connected rows must exist and the
    [spotifyId] must be new. *)
Definition track_create (data : TrackCreateInput.t) : M unit :=
  fun w =>
    let d := World.db w in
    if negb (hasUser d (TrackCreateInput.user data)
             && hasAlbum d (TrackCreateInput.album data)
             && forallb (hasArtist d) (TrackCreateInput.artists data))
    then (Throw (PrismaError RecordNotFound), w)
    else if hasTrack d (TrackCreateInput.spotifyId data)
    then (Throw (PrismaError UniqueConstraint), w)
    else (Return tt,
          World.setDb
            (Db.mk (Db.users d) (Db.albums d) (Db.artists d)
                   (Db.tracks d
                    ++ [trackRow (World.clock w) (nextId Track.id (Db.tracks d)) data])
                   (Db.labels d) (Db.playlists d))
            [TrackCreated (TrackCreateInput.spotifyId data)] w).

(** [db.label.findMany({ where: { userId, playlist: null } })] *)
Definition label_findMany_withoutPlaylist (userId : nat) : M (list Label.t) :=
  fun w =>
    let d := World.db w in
    (Return (filter (fun l =>
               (Label.userId l =? userId)
               && negb (existsb (fun p => Playlist.labelId p =? Label.id l)
                          (Db.playlists d)))
             (Db.labels d)), w).

Fixpoint playlistRows (now : Z) (id : nat)
    (data : list PlaylistCreateManyInput.t) : list Playlist.t :=
  match data with
  | [] => []
  | p :: rest =>
      Playlist.mk id now now (PlaylistCreateManyInput.userId p)
        (PlaylistCreateManyInput.spotifyId p) (PlaylistCreateManyInput.labelId p)
      :: playlistRows now (S id) rest
  end.

Fixpoint distinctNat (ids : list nat) : bool :=
  match ids with
  | [] => true
  | id :: rest => negb (existsb (Nat.eqb id) rest) && distinctNat rest
  end.

(** [db.playlist.createMany({ data })]; [spotifyId] and [labelId] are
    unique columns. *)
Definition playlist_createMany (data : list PlaylistCreateManyInput.t) : M nat :=
  fun w =>
    let d := World.db w in
    let spotifyIds := map PlaylistCreateManyInput.spotifyId data in
    let labelIds := map PlaylistCreateManyInput.labelId data in
    if distinct spotifyIds && distinctNat labelIds
       && forallb (fun id => negb (Lodash.includes id
                                     (map Playlist.spotifyId (Db.playlists d))))
                  spotifyIds
       && forallb (fun id => negb (existsb (Nat.eqb id)
                                     (map Playlist.labelId (Db.playlists d))))
                  labelIds
    then (Return (List.length data),
          World.setDb
            (Db.mk (Db.users d) (Db.albums d) (Db.artists d) (Db.tracks d)
                   (Db.labels d)
                   (Db.playlists d
                    ++ playlistRows (World.clock w)
                         (nextId Playlist.id (Db.playlists d)) data))
            (map (fun id => PlaylistCreated id) spotifyIds) w)
    else (Throw (PrismaError UniqueConstraint), w).

(** [orderBy: [{ dateAdded: "desc" }]] *)
Fixpoint insertByDateAdded (t : Track.t) (sorted : list Track.t) : list Track.t :=
  match sorted with
  | [] => [t]
  | x :: rest =>
      if (Track.dateAdded x <=? Track.dateAdded t)%Z then t :: sorted
      else x :: insertByDateAdded t rest
  end.

Definition orderByDateAddedDesc (ts : list Track.t) : list Track.t :=
  fold_right insertByDateAdded [] ts.

Definition labelTracks (d : Db.t) (l : Label.t) : list Track.t :=
  orderByDateAddedDesc
    (filter (fun t => existsb (Nat.eqb (Track.id t)) (Label.tracks l))
            (Db.tracks d)).

Definition includeLabel (d : Db.t) (p : Playlist.t) : option PlaylistWithLabel.t :=
  match find (fun l => Label.id l =? Playlist.labelId p) (Db.labels d) with
  | Some l =>
      Some (PlaylistWithLabel.mk p (LabelWithTracks.mk l (labelTracks d l)))
  | None => None
  end.

(** [db.playlist.findMany({ where: { userId },
      include: { label: { include: { tracks: { select: { spotifyId: true },
                                               orderBy: [{ dateAdded: "desc" }] } } } } })] *)
Definition playlist_findMany_withLabel (userId : nat)
    : M (list PlaylistWithLabel.t) :=
  fun w =>
    let d := World.db w in
    match allPresent (map (includeLabel d)
                        (filter (fun p => Playlist.userId p =? userId)
                                (Db.playlists d))) with
    | Some found => (Return found, w)
    | None => (Throw (PrismaError InconsistentResult), w)
    end.

(** [db.track.findMany({ where })] with [where = { userId, ...filter }] *)
Definition track_findMany_where {L : CriteriaLanguage} (where_ : TrackWhere.t)
    : M (list Track.t) :=
  fun w =>
    let d := World.db w in
    let mine := filter (fun t => Track.userId t =? TrackWhere.userId where_)
                       (Db.tracks d) in
    match TrackWhere.spread where_ with
    | None => (Return mine, w)
    | Some criteria =>
        match selects criteria with
        | Some holds => (Return (filter (holds d) mine), w)
        | None => (Throw (PrismaError InvalidWhere), w)
        end
    end.

End Prisma.

(* ================================================================== *)
(** * [app/lib/smartLabel.ts] *)

Section SmartLabel.
Context {L : CriteriaLanguage}.

(** Generate a prisma [where] clause from a criteria string or null if
    the criteria is invalid. *)
Definition generatePrismaFilter (criteria : string)
    : Outcome (option TrackWhereInput) :=
  match parser_parse criteria with
  | Return (ParseSuccess result) => Return (Some result)
  | Return ParseFailure => Return None
  | Throw e => Throw e
  | Unfinished => Unfinished
  end.

(** Return a boolean indicating whether the smart criteria is valid. *)
Definition validateSmartCriteria (criteria : string) : Outcome bool :=
  match generatePrismaFilter criteria with
  | Return (Some _) => Return true
  | Return None => Return false
  | Throw e => Throw e
  | Unfinished => Unfinished
  end.

End SmartLabel.

(* ================================================================== *)
(** * [app/spotify/spotifyApi.ts] *)

(** [Object.assign(user, modifiedFields)] *)
Definition Object_assign (fields : ModifiedFields.t) : M unit :=
  fun w =>
    let u := World.user w in
    (Return tt,
     World.setUser
       (User.mk (User.id u) (User.createdAt u) (User.updatedAt u) (User.role u)
          (User.spotifyId u) (User.avatarUrl u)
          (ModifiedFields.accessToken fields)
          (ModifiedFields.accessTokenExpiresAt fields)
          (User.refreshToken u))
       w).

Definition tokenRequest (env : Env.t) (refreshToken : string) : Request.t :=
  Request.mk POST AccountsToken
    (Some (Basic (Env.SPOTIFY_CLIENT_ID env) (Env.SPOTIFY_CLIENT_SECRET env)))
    (Some "application/json")
    (Some "application/x-www-form-urlencoded")
    (RefreshGrant refreshToken).

(** Get the user a new Spotify access token, updating the provided user
    object. *)
Definition refreshAccessToken : M unit :=
  user <- theUser ;;
  env <- theEnv ;;
  tokenRes <- fetch (tokenRequest env (User.refreshToken user)) ;;
  token <- TokenResponse_parse (Response.json tokenRes) ;;
  let accessToken := Api.Token.access_token token in
  let expiresIn := Api.Token.expires_in token in
  now <- Date_now ;;
  let modifiedFields :=
    ModifiedFields.mk accessToken (now + (expiresIn - 60) * 1000)%Z in
  Prisma.user_update (User.id user) modifiedFields ;;
  Object_assign modifiedFields.

(** [new Request(req.url, req)] with the two headers set. *)
Definition authorized (accessToken : string) (req : Request.t) : Request.t :=
  Request.mk (Request.method req) (Request.url req)
    (Some (Bearer accessToken)) (Some "application/json")
    (Request.contentType req) (Request.body req).

(** Make a request to the Spotify API. *)
Definition spotifyFetch (req : Request.t) : M Json :=
  user <- theUser ;;
  now <- Date_now ;;
  (if (now >? User.accessTokenExpiresAt user)%Z
   then log (Info "Expired access token, retrying...") ;; refreshAccessToken
   else ret tt) ;;
  user <- theUser ;;
  let authorizedReq := authorized (User.accessToken user) req in
  log (InfoRequest (Request.method req) (Request.url req)) ;;
  res <- fetch authorizedReq ;;
  log (InfoStatus (Response.status res)) ;;
  let body := Response.json res in
  if negb (Response.ok res)
  then log (Error "Spotify API error:") ;; log (ErrorBody body) ;;
       throw (ResponseThrown res)
  else ret body.

Fixpoint lookupArtists_chunks (chunks : list (list string))
    (artistGenres : list Api.Artist.t) : M (list Api.Artist.t) :=
  match chunks with
  | [] => ret artistGenres
  | chunkIds :: rest =>
      body <- spotifyFetch (Request.get (ArtistsByIds chunkIds)) ;;
      artists <- ArtistsResponse_parse body ;;
      lookupArtists_chunks rest (artistGenres ++ artists)
  end.

(** Load the name and genre of artists from Spotify, 50 at a time. *)
Definition lookupArtists (artistIds : list string) : M (list Api.Artist.t) :=
  lookupArtists_chunks (Lodash.chunk artistIds 50) [].

(** ** Pulling the favorites *)

(** [album.images[0]?.url ?? `https://via.placeholder.com/640.jpg?text=...`]:
    the right-hand side is evaluated when there is no first image, and it
    throws when [encodeURIComponent] does. *)
Definition thumbnailUrl (album : Api.Album.t) : Outcome string :=
  match option_map Api.Image.url (nth_error (Api.Album.images album) 0) with
  | Some url => Return url
  | None =>
      match Js.encodeURIComponent (Api.Album.name album) with
      | Some encoded =>
          Return ("https://via.placeholder.com/640.jpg?text=" ++ encoded)%string
      | None => Throw URIError
      end
  end.

(** The callback of [tracks.items.map]. *)
Definition albumInput (item : Api.Item.t) : Outcome AlbumCreateManyInput.t :=
  let album := Api.Track.album (Api.Item.track item) in
  match thumbnailUrl album with
  | Return url =>
      Return (AlbumCreateManyInput.mk (Api.Album.id album) (Api.Album.name album)
                url (Api.Album.release_date album))
  | Throw e => Throw e
  | Unfinished => Unfinished
  end.

(** [items.map(callback)] with a callback that may throw: the first
    throw ends the loop. *)
Fixpoint mapOutcome {A B} (f : A -> Outcome B) (xs : list A) : Outcome (list B) :=
  match xs with
  | [] => Return []
  | x :: rest =>
      match f x with
      | Return y =>
          match mapOutcome f rest with
          | Return ys => Return (y :: ys)
          | Throw e => Throw e
          | Unfinished => Unfinished
          end
      | Throw e => Throw e
      | Unfinished => Unfinished
      end
  end.

(** [uniqBy(tracks.items.map(...), "id")] *)
Definition albumInputs (items : list Api.Item.t)
    : Outcome (list AlbumCreateManyInput.t) :=
  match mapOutcome albumInput items with
  | Return inputs => Return (Lodash.uniqBy inputs AlbumCreateManyInput.id)
  | Throw e => Throw e
  | Unfinished => Unfinished
  end.

Definition artistIdsOf (item : Api.Item.t) : list string :=
  map Api.ArtistRef.id (Api.Track.artists (Api.Item.track item)).

Definition trackInput (userId : nat) (item : Api.Item.t) : TrackCreateInput.t :=
  TrackCreateInput.mk userId
    (Api.Track.id (Api.Item.track item))
    (Api.Track.name (Api.Item.track item))
    (Api.Album.id (Api.Track.album (Api.Item.track item)))
    (artistIdsOf item)
    (Api.Item.added_at item)
    (Api.Track.explicit (Api.Item.track item)).

(** One turn of the loop of [syncFavoriteTracks], up to the decision: the
    page is fetched and stored, and the number of tracks that were missing
    is returned.  The two [createMany] promises are built early in the
    source and first awaited by the [Promise.all]; that is where they run. *)
Definition syncPage (offset limit : nat) : M nat :=
  body <- spotifyFetch (Request.get (MeTracks offset limit)) ;;
  tracks <- TracksResponse_parse body ;;
  albums <- lift (albumInputs tracks) ;;
  let trackArtistIds := Lodash.uniq (flat_map artistIdsOf tracks) in
  existingArtistIds <- Prisma.artist_findMany_in trackArtistIds ;;
  let newArtistIds := Lodash.difference trackArtistIds existingArtistIds in
  newArtists <- lookupArtists newArtistIds ;;
  Prisma.album_createMany_skipDuplicates albums ;;
  Prisma.artist_createMany newArtists ;;
  user <- theUser ;;
  let newTracks := map (trackInput (User.id user)) tracks in
  existingTracks <-
    Prisma.track_findMany_in (User.id user)
      (map TrackCreateInput.spotifyId newTracks) ;;
  let missingTracks :=
    Lodash.differenceBy newTracks existingTracks
      TrackCreateInput.spotifyId (fun spotifyId => spotifyId) in
  promiseAll missingTracks Prisma.track_create ;;
  ret (List.length missingTracks).

(** The [while (true)] loop, with a bound on its turns. *)
Fixpoint syncLoop (turns offset limit : nat) : M unit :=
  match turns with
  | 0 => fun w => (Unfinished, w)
  | S turns' =>
      missing <- syncPage offset limit ;;
      if missing =? limit
      then syncLoop turns' (offset + limit) 25
      else ret tt
  end.

(** Pull the user's favorite tracks from Spotify into the database. *)
Definition syncFavoriteTracks (turns : nat) : M unit := syncLoop turns 0 5.

(** ** Pushing the playlists *)

Definition quote : string := String (ascii_of_nat 34) EmptyString.

Definition dummyTrackSpotifyId : string := "41MCdlvXOl62B7Kv86Bb1v".

(** [`spotify:track:${spotifyId}`] *)
Definition trackUri (spotifyId : string) : string :=
  ("spotify:track:" ++ spotifyId)%string.

(** Create a new Spotify playlist for the label. *)
Definition createPlaylist (label : Label.t) : M PlaylistCreateManyInput.t :=
  user <- theUser ;;
  let newPlaylist :=
    NewPlaylist
      (Label.name label ++ " [generated]")%string
      ("Tracks labeled " ++ quote ++ Label.name label ++ quote
       ++ " by playlist-gen")%string
      false in
  body <- spotifyFetch
            (Request.make POST (UserPlaylists (User.spotifyId user))
               (Some "application/json") newPlaylist) ;;
  spotifyId <- CreatePlaylistResponse_parse body ;;
  user <- theUser ;;
  ret (PlaylistCreateManyInput.mk (User.id user) spotifyId (Label.id label)).

Definition uploadRequest (playlist : PlaylistWithLabel.t)
    (entry : nat * list string) : Request.t :=
  let (index, spotifyIds) := entry in
  let uris := map trackUri spotifyIds in
  Request.make (if index =? 0 then PUT else POST)
    (PlaylistTracksWith (PlaylistWithLabel.spotifyId playlist) uris) None NoBody.

Definition removeDummyRequest (playlist : PlaylistWithLabel.t) : Request.t :=
  Request.make DELETE (PlaylistTracks (PlaylistWithLabel.spotifyId playlist))
    (Some "application/json") (RemoveTracks [trackUri dummyTrackSpotifyId]).

Section Playlists.
Context {L : CriteriaLanguage}.

(** The tracks of the playlist's label; for a smart label the stored
    relation is overridden by the result of the criteria. *)
Definition resolveTracks (playlist : PlaylistWithLabel.t) : M (list Track.t) :=
  let tracks := LabelWithTracks.tracks (PlaylistWithLabel.label playlist) in
  match LabelWithTracks.smartCriteria (PlaylistWithLabel.label playlist) with
  | None => ret tracks
  | Some smartCriteria =>
      tryCatch
        (user <- theUser ;;
         filter <- lift (generatePrismaFilter smartCriteria) ;;
         Prisma.track_findMany_where (TrackWhere.mk (User.id user) filter))
        (fun err => log (ErrorCaught err) ;; ret [])
  end.

(** Replace the tracks in the Spotify playlist with the new tracks, 50 at
    a time. *)
Definition uploadTracks (playlist : PlaylistWithLabel.t)
    (tracks : list Track.t) : M unit :=
  let trackSpotifyIds := map Track.spotifyId tracks in
  forEach
    (Lodash.entries
       (Lodash.chunk
          (if 0 <? List.length trackSpotifyIds
           then trackSpotifyIds else [dummyTrackSpotifyId])
          50))
    (fun entry => spotifyFetch (uploadRequest playlist entry) ;; ret tt).

(** If the playlist needs to be emptied, remove the dummy track that was
    added to it. *)
Definition removeDummy (playlist : PlaylistWithLabel.t) : M unit :=
  if List.length (LabelWithTracks.tracks (PlaylistWithLabel.label playlist)) =? 0
  then spotifyFetch (removeDummyRequest playlist) ;; ret tt
  else ret tt.

(** The callback of [dbPlaylists.map]. *)
Definition pushPlaylist (playlist : PlaylistWithLabel.t) : M unit :=
  tracks <- resolveTracks playlist ;;
  uploadTracks playlist tracks ;;
  removeDummy playlist.

(** Push the tracks from the database into Spotify playlists. *)
Definition syncPlaylists : M unit :=
  user <- theUser ;;
  newLabels <- Prisma.label_findMany_withoutPlaylist (User.id user) ;;
  playlists <- promiseAll newLabels createPlaylist ;;
  (if 0 <? List.length playlists
   then Prisma.playlist_createMany playlists ;; ret tt
   else ret tt) ;;
  user <- theUser ;;
  dbPlaylists <- Prisma.playlist_findMany_withLabel (User.id user) ;;
  promiseAll dbPlaylists pushPlaylist ;;
  ret tt.

End Playlists.

(* ================================================================== *)
(** * The criteria language of the specification

    [app/lib/labelGrammar.ts] (generated from [labelGrammar.ne]) is not
    among the sources at hand.  The definitions of this module follow
    section 4.3 of the specification instead. *)

Module LabelGrammar.

(** Modelled from the spec: the attributes of [labelGrammar] that an
    identifier can be bound to; the specification names the artist name,
    the explicit flag, the date added and label membership. *)
Inductive Attribute := ArtistName | ExplicitFlag | DateAdded | LabelMembership.

(** Modelled from the spec: the binding of identifiers of [labelGrammar]
    to track attributes; every other identifier is unknown. *)
Definition attributeOf (identifier : string) : option Attribute :=
  if String.eqb identifier "artist" then Some ArtistName
  else if String.eqb identifier "explicit" then Some ExplicitFlag
  else if String.eqb identifier "added" then Some DateAdded
  else if String.eqb identifier "label" then Some LabelMembership
  else None.

(** Modelled from the spec: the comparison and equality operators of
    [labelGrammar]. *)
Inductive Comparator := Eq | Ne | Lt | Le | Gt | Ge.

(** Modelled from the spec: the literals of [labelGrammar] an attribute is
    compared with. *)
Inductive Literal :=
| LString (s : string)
| LBool (b : bool)
| LNumber (n : Z).

(** Modelled from the spec: the predicate tree of [labelGrammar], a
    closed set of node variants: comparison, conjunction, disjunction,
    negation and the attribute reference as a leaf. *)
Inductive Predicate :=
| AttributeRef (a : Attribute)
| Comparison (a : Attribute) (op : Comparator) (value : Literal)
| Conjunction (l r : Predicate)
| Disjunction (l r : Predicate)
| Negation (p : Predicate).

(** Modelled from the spec: the tokens of [labelGrammar]: identifiers,
    literals, the connectives, parentheses and the operators. *)
Inductive Token :=
| TIdent (name : string)
| TString (s : string)
| TNumber (n : Z)
| TTrue | TFalse
| TAnd | TOr | TNot
| TLParen | TRParen
| TOp (op : Comparator).

(** *** Lexer *)

(** Modelled from the spec: the states of the lexer of [labelGrammar]. *)
Inductive LexState :=
| Idle
| InWord (reversed : list ascii)
| InNumber (value : Z)
| InString (reversed : list ascii)
| AfterBang
| AfterLess
| AfterGreater.

(** Modelled from the spec: the character classes of [labelGrammar]. *)
Definition code (c : ascii) : nat := nat_of_ascii c.
Definition isSpace (c : ascii) : bool := existsb (Nat.eqb (code c)) [32; 9; 10; 13].
Definition isDigit (c : ascii) : bool := Js.between 48 57 (code c).
Definition isLetter (c : ascii) : bool :=
  Js.between 65 90 (code c) || Js.between 97 122 (code c) || (code c =? 95).
Definition isQuote (c : ascii) : bool := code c =? 34.
Definition digit (c : ascii) : Z := Z.of_nat (code c - 48).

(** Modelled from the spec: the keywords of [labelGrammar]; any other word
    is an identifier. *)
Definition wordToken (reversed : list ascii) : Token :=
  let word := string_of_list_ascii (rev reversed) in
  if String.eqb word "and" then TAnd
  else if String.eqb word "or" then TOr
  else if String.eqb word "not" then TNot
  else if String.eqb word "true" then TTrue
  else if String.eqb word "false" then TFalse
  else TIdent word.

(** Modelled from the spec: the lexer of [labelGrammar], one character at
    a time; [None] is a lexical error. *)
Definition idleStep (c : ascii) : option (list Token * LexState) :=
  if isSpace c then Some ([], Idle)
  else if isLetter c then Some ([], InWord [c])
  else if isDigit c then Some ([], InNumber (digit c))
  else if isQuote c then Some ([], InString [])
  else if code c =? 40 then Some ([TLParen], Idle)
  else if code c =? 41 then Some ([TRParen], Idle)
  else if code c =? 61 then Some ([TOp Eq], Idle)
  else if code c =? 33 then Some ([], AfterBang)
  else if code c =? 60 then Some ([], AfterLess)
  else if code c =? 62 then Some ([], AfterGreater)
  else None.

Definition after (t : Token) (next : option (list Token * LexState))
    : option (list Token * LexState) :=
  match next with
  | Some (ts, st) => Some (t :: ts, st)
  | None => None
  end.

Definition step (st : LexState) (c : ascii) : option (list Token * LexState) :=
  match st with
  | Idle => idleStep c
  | InWord r =>
      if isLetter c || isDigit c then Some ([], InWord (c :: r))
      else after (wordToken r) (idleStep c)
  | InNumber n =>
      if isDigit c then Some ([], InNumber (10 * n + digit c)%Z)
      else after (TNumber n) (idleStep c)
  | InString r =>
      if isQuote c then Some ([TString (string_of_list_ascii (rev r))], Idle)
      else Some ([], InString (c :: r))
  | AfterBang => if code c =? 61 then Some ([TOp Ne], Idle) else None
  | AfterLess =>
      if code c =? 61 then Some ([TOp Le], Idle) else after (TOp Lt) (idleStep c)
  | AfterGreater =>
      if code c =? 61 then Some ([TOp Ge], Idle) else after (TOp Gt) (idleStep c)
  end.

(** Modelled from the spec: the end of the text in the lexer of
    [labelGrammar]; a string literal must have been closed. *)
Definition flush (st : LexState) : option (list Token) :=
  match st with
  | Idle => Some []
  | InWord r => Some [wordToken r]
  | InNumber n => Some [TNumber n]
  | InString _ => None
  | AfterBang => None
  | AfterLess => Some [TOp Lt]
  | AfterGreater => Some [TOp Gt]
  end.

(** Modelled from the spec: the lexer of [labelGrammar] over a text. *)
Fixpoint lexFrom (st : LexState) (cs : list ascii) : option (list Token) :=
  match cs with
  | [] => flush st
  | c :: rest =>
      match step st c with
      | Some (ts, st') => option_map (app ts) (lexFrom st' rest)
      | None => None
      end
  end.

Definition tokenize (criteria : string) : option (list Token) :=
  lexFrom Idle (list_ascii_of_string criteria).

(** *** Parser: [not] binds tighter than [and], [and] tighter than [or] *)

(** Modelled from the spec: the literal tokens of [labelGrammar]. *)
Definition literalOf (t : Token) : option Literal :=
  match t with
  | TString s => Some (LString s)
  | TNumber n => Some (LNumber n)
  | TTrue => Some (LBool true)
  | TFalse => Some (LBool false)
  | _ => None
  end.

(** Modelled from the spec: the parser of [labelGrammar]; disjunctions of
    conjunctions of negations of atoms, an atom being a parenthesised
    predicate, a comparison or an attribute alone.  [fuel] bounds the
    depth of the descent. *)
Fixpoint parseOr (fuel : nat) (ts : list Token) : option (Predicate * list Token) :=
  match fuel with
  | 0 => None
  | S fuel' =>
      match parseAnd fuel' ts with
      | Some (l, TOr :: rest) =>
          match parseOr fuel' rest with
          | Some (r, rest') => Some (Disjunction l r, rest')
          | None => None
          end
      | other => other
      end
  end
with parseAnd (fuel : nat) (ts : list Token) : option (Predicate * list Token) :=
  match fuel with
  | 0 => None
  | S fuel' =>
      match parseNot fuel' ts with
      | Some (l, TAnd :: rest) =>
          match parseAnd fuel' rest with
          | Some (r, rest') => Some (Conjunction l r, rest')
          | None => None
          end
      | other => other
      end
  end
with parseNot (fuel : nat) (ts : list Token) : option (Predicate * list Token) :=
  match fuel with
  | 0 => None
  | S fuel' =>
      match ts with
      | TNot :: rest =>
          match parseNot fuel' rest with
          | Some (p, rest') => Some (Negation p, rest')
          | None => None
          end
      | _ => parseAtom fuel' ts
      end
  end
with parseAtom (fuel : nat) (ts : list Token) : option (Predicate * list Token) :=
  match fuel with
  | 0 => None
  | S fuel' =>
      match ts with
      | TLParen :: rest =>
          match parseOr fuel' rest with
          | Some (p, TRParen :: rest') => Some (p, rest')
          | _ => None
          end
      | TIdent name :: rest =>
          match attributeOf name with
          | None => None
          | Some a =>
              match rest with
              | TOp op :: value :: rest' =>
                  match literalOf value with
                  | Some v => Some (Comparison a op v, rest')
                  | None => None
                  end
              | _ => Some (AttributeRef a, rest)
              end
          end
      | _ => None
      end
  end.

(** Modelled from the spec: a text of [labelGrammar] is a predicate and
    nothing after it. *)
Definition parseTokens (ts : list Token) : option Predicate :=
  match parseOr (4 * List.length ts + 4) ts with
  | Some (p, []) => Some p
  | _ => None
  end.

(** *** Semantic check: an attribute is compared with a literal of its kind *)

(** Modelled from the spec: the equality operators of [labelGrammar]. *)
Definition equality (op : Comparator) : bool :=
  match op with
  | Eq | Ne => true
  | _ => false
  end.

(** Modelled from the spec: the semantic check of [labelGrammar]. *)
Fixpoint wellFormed (p : Predicate) : bool :=
  match p with
  | AttributeRef a => match a with ExplicitFlag => true | _ => false end
  | Comparison ArtistName op (LString _) => equality op
  | Comparison LabelMembership op (LString _) => equality op
  | Comparison ExplicitFlag op (LBool _) => equality op
  | Comparison DateAdded _ (LNumber _) => true
  | Comparison _ _ _ => false
  | Conjunction l r | Disjunction l r => wellFormed l && wellFormed r
  | Negation q => wellFormed q
  end.

(** Modelled from the spec: [parser.parse] of [labelGrammar]; a text that
    is syntactically or semantically invalid is reported as a failure,
    never thrown. *)
Definition parse (criteria : string) : Outcome (ParseResult Predicate) :=
  match tokenize criteria with
  | None => Return ParseFailure
  | Some ts =>
      match parseTokens ts with
      | Some p => if wellFormed p then Return (ParseSuccess p) else Return ParseFailure
      | None => Return ParseFailure
      end
  end.

(** *** The predicate as a filter over the track store *)

(** Modelled from the spec: the tracks a predicate of [labelGrammar]
    selects from the store. *)
Definition compareZ (op : Comparator) (x y : Z) : bool :=
  match op with
  | Eq => (x =? y)%Z
  | Ne => negb (x =? y)%Z
  | Lt => (x <? y)%Z
  | Le => (x <=? y)%Z
  | Gt => (x >? y)%Z
  | Ge => (x >=? y)%Z
  end.

Definition byArtist (d : Db.t) (t : Track.t) (name : string) : bool :=
  existsb (fun a => Lodash.includes (Artist.id a) (Track.artists t)
                    && String.eqb (Artist.name a) name)
          (Db.artists d).

Definition byLabel (d : Db.t) (t : Track.t) (name : string) : bool :=
  existsb (fun l => (Label.userId l =? Track.userId t)
                    && String.eqb (Label.name l) name
                    && existsb (Nat.eqb (Track.id t)) (Label.tracks l))
          (Db.labels d).

Fixpoint holds (p : Predicate) (d : Db.t) (t : Track.t) : bool :=
  match p with
  | AttributeRef _ => Track.explicit t
  | Comparison ArtistName op (LString s) =>
      match op with
      | Ne => negb (byArtist d t s)
      | _ => byArtist d t s
      end
  | Comparison LabelMembership op (LString s) =>
      match op with
      | Ne => negb (byLabel d t s)
      | _ => byLabel d t s
      end
  | Comparison ExplicitFlag op (LBool b) =>
      match op with
      | Ne => negb (Bool.eqb (Track.explicit t) b)
      | _ => Bool.eqb (Track.explicit t) b
      end
  | Comparison DateAdded op (LNumber n) => compareZ op (Track.dateAdded t) n
  | Comparison _ _ _ => false
  | Conjunction l r => holds l d t && holds r d t
  | Disjunction l r => holds l d t || holds r d t
  | Negation q => negb (holds q d t)
  end.

(** Modelled from the spec: the criteria language of [labelGrammar] as
    the synchronisation code uses it. *)
#[export] Instance language : CriteriaLanguage := {|
  TrackWhereInput := Predicate;
  parser_parse := parse;
  selects := fun p => if wellFormed p then Some (holds p) else None
|}.

End LabelGrammar.

(* ================================================================== *)
(** * Sample data *)

Module Fixture.

Definition env : Env.t := Env.mk "client-id" "client-secret".

(** A user whose access token ran out at instant 1000. *)
Definition alice : User.t :=
  User.mk 1 0 0 USER "alice" None "stale-token" 1000 "refresh-alice".

Definition twoDigits (n : nat) : string :=
  String (ascii_of_nat (48 + n / 10)) (String (ascii_of_nat (48 + n mod 10)) "").

(** The [n]-th favorite: two tracks to an album, three artists in turn. *)
Definition favorite (n : nat) : Api.Item.t :=
  Api.Item.mk (Z.of_nat (5000 - n))
    (Api.Track.mk
       (Api.Album.mk ("album-" ++ twoDigits (n / 2))%string
          (if n mod 4 =? 0 then []
           else [Api.Image.mk ("https://i.scdn.co/image/" ++ twoDigits (n / 2))%string])
          ("Album " ++ twoDigits (n / 2))%string (Some 0%Z))
       [Api.ArtistRef.mk ("artist-" ++ twoDigits (n mod 3))%string]
       (n mod 2 =? 0)
       ("track-" ++ twoDigits n)%string
       ("Track " ++ twoDigits n)%string).

Definition favorites (count : nat) : list Api.Item.t := map favorite (seq 0 count).

Definition catalog : list Api.Artist.t :=
  map (fun k => Api.Artist.mk ("artist-" ++ twoDigits k)%string
                  ("Artist " ++ twoDigits k)%string ["rock"])
      (seq 0 3).

Definition grants (refresh_token : string) : option Api.Token.t :=
  if String.eqb refresh_token "refresh-alice"
  then Some (Api.Token.mk "fresh-token" 3600)
  else None.

Definition service (saved : list Api.Item.t)
    (playlists : list (string * list string)) : Remote.t :=
  Remote.mk grants saved catalog playlists ["playlist-a"; "playlist-b"]
    (fun _ => false).

Definition store (tracks : list Track.t) (labels : list Label.t)
    (playlists : list Playlist.t) : Db.t :=
  Db.mk [alice] [] [] tracks labels playlists.

Definition world (clock : Z) (d : Db.t) (r : Remote.t) : World.t :=
  World.mk clock env alice d r [] [] [].

(** A stored track of alice: the [n]-th favorite, as the pull stores it. *)
Definition stored (id n : nat) : Track.t :=
  Prisma.trackRow 0 id (trackInput 1 (favorite n)).

End Fixture.

(* ================================================================== *)
(** * Vocabulary of the statements *)

(** The stored access token has run out: [new Date() > user.accessTokenExpiresAt]. *)
Definition expired (w : World.t) : bool :=
  (World.clock w >? User.accessTokenExpiresAt (World.user w))%Z.

(** The request [refreshAccessToken] sends from the world [w]. *)
Definition refreshRequest (w : World.t) : Request.t :=
  tokenRequest (World.env w) (User.refreshToken (World.user w)).

(** The two fields a granted token turns into. *)
Definition fieldsOf (w : World.t) (token : Api.Token.t) : ModifiedFields.t :=
  ModifiedFields.mk (Api.Token.access_token token)
    (World.clock w + (Api.Token.expires_in token - 60) * 1000)%Z.

(** What the token endpoint answers to the refresh request of [w]. *)
Definition granted (w : World.t) : option Api.Token.t :=
  match Response.json (fst (Remote.serve (World.spotify w) (refreshRequest w))) with
  | JToken token => Some token
  | _ => None
  end.

(** The second half of [spotifyFetch]: the request goes out under the token
    the [user] object holds by then. *)
Definition sendAuthorized (req : Request.t) : M Json :=
  user <- theUser ;;
  let authorizedReq := authorized (User.accessToken user) req in
  log (InfoRequest (Request.method req) (Request.url req)) ;;
  res <- fetch authorizedReq ;;
  log (InfoStatus (Response.status res)) ;;
  let body := Response.json res in
  if negb (Response.ok res)
  then log (Error "Spotify API error:") ;; log (ErrorBody body) ;;
       throw (ResponseThrown res)
  else ret body.

(** Two user records that differ at most in the access token and its expiry. *)
Definition sameButToken (a b : User.t) : Prop :=
  User.id a = User.id b /\ User.createdAt a = User.createdAt b
  /\ User.updatedAt a = User.updatedAt b /\ User.role a = User.role b
  /\ User.spotifyId a = User.spotifyId b /\ User.avatarUrl a = User.avatarUrl b
  /\ User.refreshToken a = User.refreshToken b.

(** The persisted row of a refreshed user: the two token fields, and the
    [updatedAt] stamp of the store. *)
Definition refreshedRow (now : Z) (fields : ModifiedFields.t) (row : User.t) : User.t :=
  User.mk (User.id row) (User.createdAt row) now (User.role row)
    (User.spotifyId row) (User.avatarUrl row)
    (ModifiedFields.accessToken fields)
    (ModifiedFields.accessTokenExpiresAt fields)
    (User.refreshToken row).

(** The in-memory object of a refreshed user. *)
Definition refreshedUser (fields : ModifiedFields.t) (u : User.t) : User.t :=
  User.mk (User.id u) (User.createdAt u) (User.updatedAt u) (User.role u)
    (User.spotifyId u) (User.avatarUrl u)
    (ModifiedFields.accessToken fields)
    (ModifiedFields.accessTokenExpiresAt fields)
    (User.refreshToken u).

Definition isTokenRequest (req : Request.t) : bool :=
  match Request.url req with
  | AccountsToken => true
  | _ => false
  end.

(** ** Sample worlds *)

(** Alice, her token run out, before anything is stored. *)
Definition refreshWorld : World.t :=
  Fixture.world 2000 (Fixture.store [] [] []) (Fixture.service [] []).

(** Alice with a refresh token the service does not know. *)
Definition revokedWorld : World.t :=
  World.mk 2000 Fixture.env
    (User.mk 1 0 0 USER "alice" None "stale-token" 1000 "revoked")
    (Fixture.store [] [] []) (Fixture.service [] []) [] [] [].

(** ** Requests, as they have to go out *)

(** [sent] is the request [req] under the bearer token [token]. *)
Definition bears (token : string) (req sent : Request.t) : Prop :=
  Request.authorization sent = Some (Bearer token)
  /\ Request.method sent = Request.method req
  /\ Request.url sent = Request.url req
  /\ Request.body sent = Request.body req.

(** [sent] asks the token endpoint, under the credentials of the client,
    for a new access token against the refresh token of the user of [w]. *)
Definition refreshes (w : World.t) (sent : Request.t) : Prop :=
  Request.method sent = POST
  /\ Request.url sent = AccountsToken
  /\ Request.body sent = RefreshGrant (User.refreshToken (World.user w))
  /\ Request.authorization sent =
       Some (Basic (Env.SPOTIFY_CLIENT_ID (World.env w))
                   (Env.SPOTIFY_CLIENT_SECRET (World.env w))).

(** ** Frames: what a step leaves alone *)

(** The parts of the service no request changes. *)
Definition sameService (r r' : Remote.t) : Prop :=
  Remote.tokenGrants r' = Remote.tokenGrants r
  /\ Remote.savedTracks r' = Remote.savedTracks r
  /\ Remote.artistCatalog r' = Remote.artistCatalog r
  /\ Remote.refuses r' = Remote.refuses r.

Definition isUserWrite (x : Write) : bool :=
  match x with
  | UserUpdated _ => true
  | _ => false
  end.

(** The rows written to the [Album], [Artist] and [Track] tables. *)
Definition catalogWrites (ws : list Write) : list Write :=
  filter (fun x => match x with
                   | AlbumCreated _ | ArtistCreated _ | TrackCreated _ => true
                   | _ => false
                   end) ws.

(** [quiet w w']: from [w] to [w'] nothing changed but the access token
    (in memory and in the [User] table), the playlists of the service and
    the traces; the rows written are [User] rows. *)
Definition quiet (w w' : World.t) : Prop :=
  World.clock w' = World.clock w
  /\ World.env w' = World.env w
  /\ sameButToken (World.user w) (World.user w')
  /\ sameService (World.spotify w) (World.spotify w')
  /\ Db.albums (World.db w') = Db.albums (World.db w)
  /\ Db.artists (World.db w') = Db.artists (World.db w)
  /\ Db.tracks (World.db w') = Db.tracks (World.db w)
  /\ Db.labels (World.db w') = Db.labels (World.db w)
  /\ Db.playlists (World.db w') = Db.playlists (World.db w)
  /\ map User.id (Db.users (World.db w')) = map User.id (Db.users (World.db w))
  /\ catalogWrites (World.writes w') = catalogWrites (World.writes w).

(** [grown w w']: as [quiet], but the [Album], [Artist] and [Track]
    tables may have gained rows at their end. *)
Definition grown (w w' : World.t) : Prop :=
  World.clock w' = World.clock w
  /\ World.env w' = World.env w
  /\ sameButToken (World.user w) (World.user w')
  /\ sameService (World.spotify w) (World.spotify w')
  /\ (exists more, Db.albums (World.db w') = Db.albums (World.db w) ++ more)
  /\ (exists more, Db.artists (World.db w') = Db.artists (World.db w) ++ more)
  /\ (exists more, Db.tracks (World.db w') = Db.tracks (World.db w) ++ more)
  /\ Db.labels (World.db w') = Db.labels (World.db w)
  /\ Db.playlists (World.db w') = Db.playlists (World.db w)
  /\ map User.id (Db.users (World.db w')) = map User.id (Db.users (World.db w)).

(** Every run of [m] relates the world before to the world after by [R],
    however the run ends. *)
Definition preserves {A} (R : World.t -> World.t -> Prop) (m : M A) : Prop :=
  forall w, R w (snd (m w)).

(** ** Traces *)

(** The requests sent between two worlds of one run. *)
Definition sentDuring (w w' : World.t) : list Request.t :=
  skipn (List.length (World.requests w)) (World.requests w').

(** A request as a call: its method and url, whatever token it bears. *)
Definition call (req : Request.t) : Method * Url :=
  (Request.method req, Request.url req).

(** The calls to the Web API among some requests: all but the token refreshes. *)
Definition apiCalls (reqs : list Request.t) : list (Method * Url) :=
  map call (filter (fun req => negb (isTokenRequest req)) reqs).

(** The ids [uploadTracks] sends: the resolved ones, or the dummy alone. *)
Definition uploadedIds (tracks : list Track.t) : list string :=
  if 0 <? List.length (map Track.spotifyId tracks)
  then map Track.spotifyId tracks
  else [dummyTrackSpotifyId].





(** [emitted w w' calls]: the run from [w] to [w'] sent [calls] to the Web
    API, in that order, and token refreshes besides. *)
Definition emitted (w w' : World.t) (calls : list (Method * Url)) : Prop :=
  exists extra,
    World.requests w' = World.requests w ++ extra /\ apiCalls extra = calls.

(** ** Sample playlists *)

(** Alice's tracks: the first [count] favorites, stored under ids 1, 2, ... *)
Definition libraryOf (count : nat) : list Track.t :=
  map (fun n => Fixture.stored (S n) n) (seq 0 count).

Definition labelRow (id : nat) (name : string) (tracks : list nat)
    (smartCriteria : option string) : Label.t :=
  Label.mk id 0 0 1 name tracks smartCriteria.

Definition playlistRow (id : nat) (spotifyId : string) (labelId : nat) : Playlist.t :=
  Playlist.mk id 0 0 1 spotifyId labelId.

(** A world with one label and its playlist, which holds an old track on
    the service; alice's token is still good. *)
Definition playlistWorld (count : nat) (label : Label.t) : World.t :=
  Fixture.world 500
    (Fixture.store (libraryOf count) [label] [playlistRow 1 "playlist-x" (Label.id label)])
    (Fixture.service [] [("playlist-x", [trackUri "old"])]).

(** The playlist of [playlistWorld], as [findMany] hands it to the push. *)
Definition playlistOf (count : nat) (label : Label.t) : PlaylistWithLabel.t :=
  PlaylistWithLabel.mk (playlistRow 1 "playlist-x" (Label.id label))
    (LabelWithTracks.mk label
       (Prisma.labelTracks (World.db (playlistWorld count label)) label)).

(** A static label on the first 51 tracks. *)
Definition label51 : Label.t := labelRow 1 "Everything" (seq 1 51) None.

(** A smart label for the tracks that are not explicit; of the first two
    favorites that is the second one ([track-01], stored under id 2). *)
Definition cleanLabel (tracks : list nat) : Label.t :=
  labelRow 1 "Clean" tracks (Some "explicit = false").

(** A smart label that no track matches. *)
Definition nothingLabel (tracks : list nat) : Label.t :=
  labelRow 1 "Nothing" tracks (Some "explicit and not explicit").

(** A smart label whose criteria has a string literal left open. *)
Definition brokenLabel : Label.t :=
  labelRow 1 "Broken" [] (Some ("artist = " ++ quote ++ "Artist 00")%string).

(** ** The favorites pull *)

(** The page the favorites endpoint serves for a window. *)
Definition pageOf (w : World.t) (offset limit : nat) : list Api.Item.t :=
  firstn limit (skipn offset (Remote.savedTracks (World.spotify w))).

(** The user of this id has a track of this Spotify id in the store. *)
Definition storedFor (d : Db.t) (userId : nat) (spotifyId : string) : bool :=
  existsb (fun t => (Track.userId t =? userId)
                    && String.eqb (Track.spotifyId t) spotifyId)
          (Db.tracks d).

(** The track of a favorite is not in the store of the user of [w] yet. *)
Definition isNew (w : World.t) (item : Api.Item.t) : bool :=
  negb (storedFor (World.db w) (User.id (World.user w))
          (Api.Track.id (Api.Item.track item))).

(** The fetches of favorites pages among the requests of a world. *)
Definition pageFetches (w : World.t) : nat :=
  List.length
    (filter (fun req => match Request.url req with
                        | MeTracks _ _ => true
                        | _ => false
                        end)
            (World.requests w)).


Definition albumIdOf (item : Api.Item.t) : string :=
  Api.Album.id (Api.Track.album (Api.Item.track item)).

(** Everything a page refers to is in the store: its tracks for the user
    of [w], its albums, its artists. *)
Definition settled (w : World.t) (page : list Api.Item.t) : Prop :=
  forall item, In item page ->
    storedFor (World.db w) (User.id (World.user w))
      (Api.Track.id (Api.Item.track item)) = true
    /\ Prisma.hasAlbum (World.db w) (albumIdOf item) = true
    /\ forall id, In id (artistIdsOf item) -> Prisma.hasArtist (World.db w) id = true.

(** A world that differs from [w] in the database and the row writes only. *)
Definition storeOnly (w w' : World.t) : Prop :=
  World.clock w' = World.clock w /\ World.env w' = World.env w
  /\ World.user w' = World.user w /\ World.spotify w' = World.spotify w
  /\ World.requests w' = World.requests w.


(** No favorites page was fetched between two worlds. *)
Definition samePages (w w' : World.t) : Prop := pageFetches w' = pageFetches w.


(** The rest of a turn of the loop, once the page is fetched and parsed. *)
Definition storePage (tracks : list Api.Item.t) : M nat :=
  albums <- lift (albumInputs tracks) ;;
  let trackArtistIds := Lodash.uniq (flat_map artistIdsOf tracks) in
  existingArtistIds <- Prisma.artist_findMany_in trackArtistIds ;;
  let newArtistIds := Lodash.difference trackArtistIds existingArtistIds in
  newArtists <- lookupArtists newArtistIds ;;
  Prisma.album_createMany_skipDuplicates albums ;;
  Prisma.artist_createMany newArtists ;;
  user <- theUser ;;
  let newTracks := map (trackInput (User.id user)) tracks in
  existingTracks <-
    Prisma.track_findMany_in (User.id user)
      (map TrackCreateInput.spotifyId newTracks) ;;
  let missingTracks :=
    Lodash.differenceBy newTracks existingTracks
      TrackCreateInput.spotifyId (fun spotifyId => spotifyId) in
  promiseAll missingTracks Prisma.track_create ;;
  ret (List.length missingTracks).




(** Alice with an empty store and the first [count] favorites on the service. *)
Definition firstPull (count : nat) : World.t :=
  Fixture.world 2000 (Fixture.store [] [] []) (Fixture.service (Fixture.favorites count) []).

(** Thirty favorites; the eighteenth ([track-17]) is stored already. *)
Definition laterPull : World.t :=
  Fixture.world 500 (Fixture.store [Fixture.stored 1 17] [] [])
    (Fixture.service (Fixture.favorites 30) []).

(** ** The criteria language *)

(** The number of double quotes in a text. *)
Fixpoint quoteCount (s : string) : nat :=
  match s with
  | EmptyString => 0
  | String c rest =>
      (if LabelGrammar.isQuote c then 1 else 0) + quoteCount rest
  end.

(** The lexer is inside a string literal. *)
Definition inString (st : LabelGrammar.LexState) : bool :=
  match st with
  | LabelGrammar.InString _ => true
  | _ => false
  end.

(** A token that is not an identifier without an attribute. *)
Definition bound (t : LabelGrammar.Token) : Prop :=
  match t with
  | LabelGrammar.TIdent name => LabelGrammar.attributeOf name <> None
  | _ => True
  end.

(** A computation that never ends for want of turns. *)
Definition finishes {A} (m : M A) : Prop := forall w, fst (m w) <> Unfinished.

(* ================================================================== *)
(** * Further vocabulary *)

(** A service that refuses every call to the Web API. *)
Definition refusingWorld : World.t :=
  World.mk 500 Fixture.env Fixture.alice (Fixture.store [] [] [])
    (Remote.mk Fixture.grants [] Fixture.catalog [] []
       (fun req => negb (isTokenRequest req)))
    [] [] [].

(** ** Fixtures of the pull *)

(** Alice after a first pull of three favorites, with eight favorites on
    the service by now and a token that is good. *)
Definition resumedPull : World.t :=
  Fixture.world 500 (World.db (snd (syncFavoriteTracks 3 (firstPull 3))))
    (Fixture.service (Fixture.favorites 8) []).

(** Alice's first pull when another user, the one of id 2, has the second
    favorite in the store with its album and its artist. *)
Definition sharedTrackWorld : World.t :=
  Fixture.world 500
    (Db.mk
       [Fixture.alice; User.mk 2 0 0 USER "bob" None "token-bob" 1000 "refresh-bob"]
       [Album.mk "album-00" 0 0 "Album 00" "https://i.scdn.co/image/00" 0]
       (map (Prisma.artistRow 0)
          (filter (fun a => String.eqb (Api.Artist.id a) "artist-01") Fixture.catalog))
       [Prisma.trackRow 0 1 (trackInput 2 (Fixture.favorite 1))]
       [] [])
    (Fixture.service (Fixture.favorites 3) []).

(** ** The failures of the pull *)

(** The row of the user of [w] is in the store. *)
Definition userStored (w : World.t) : bool :=
  Prisma.hasUser (World.db w) (User.id (World.user w)).

(** What a call through [spotifyFetch] throws: the response, or what the
    refresh throws, a record that is not found only when the row of the
    user is not there. *)
Definition fetchFailure (w : World.t) (e : Exn) : Prop :=
  (exists res, e = ResponseThrown res)
  \/ e = ZodError
  \/ e = PrismaError ValidationError
  \/ (e = PrismaError RecordNotFound /\ userStored w = false).

(** What [db.track.create] connects the track to is in the store. *)
Definition connectable (d : Db.t) (data : TrackCreateInput.t) : bool :=
  Prisma.hasUser d (TrackCreateInput.user data)
  && Prisma.hasAlbum d (TrackCreateInput.album data)
  && forallb (Prisma.hasArtist d) (TrackCreateInput.artists data).

(** ** The push and the store *)

(** The catalogue and the labels are as before, the users are the same
    ones, and the [Playlist] table has gained rows at its end, at most. *)
Definition catalogueKept (w w' : World.t) : Prop :=
  Db.albums (World.db w') = Db.albums (World.db w)
  /\ Db.artists (World.db w') = Db.artists (World.db w)
  /\ Db.tracks (World.db w') = Db.tracks (World.db w)
  /\ Db.labels (World.db w') = Db.labels (World.db w)
  /\ map User.id (Db.users (World.db w')) = map User.id (Db.users (World.db w))
  /\ User.id (World.user w') = User.id (World.user w)
  /\ exists more, Db.playlists (World.db w') = Db.playlists (World.db w) ++ more.

(** The label has a playlist in the store. *)
Definition provisioned (d : Db.t) (l : Label.t) : Prop :=
  exists p, In p (Db.playlists d) /\ Playlist.labelId p = Label.id l.

(** Alice with two labels, the second of which has its playlist. *)
Definition twoLabelWorld : World.t :=
  Fixture.world 500
    (Fixture.store (libraryOf 3)
       [labelRow 1 "Morning" [1; 2] None; labelRow 2 "Evening" [3] None]
       [playlistRow 1 "playlist-x" 2])
    (Fixture.service [] [("playlist-x", [])]).

(** The request creates a playlist on the service. *)
Definition isCreation (req : Request.t) : bool :=
  match Request.url req with
  | UserPlaylists _ => true
  | _ => false
  end.

(** Between two worlds no playlist was created: the store has the same
    playlist rows, the service the same playlists under the same ids, and
    no request went to the endpoint that creates one. *)
Definition noCreation (w w' : World.t) : Prop :=
  Db.playlists (World.db w') = Db.playlists (World.db w)
  /\ Remote.playlistIds (World.spotify w') = Remote.playlistIds (World.spotify w)
  /\ map fst (Remote.playlistItems (World.spotify w')) =
       map fst (Remote.playlistItems (World.spotify w))
  /\ exists extra,
       World.requests w' = World.requests w ++ extra
       /\ Forall (fun req => isCreation req = false) extra.

(** ** The playlist on the service *)

(** What one upload turns the items of its playlist into: the first
    chunk replaces them, a later chunk is appended. *)
Definition afterUpload (entry : nat * list string) (items : list string) : list string :=
  if fst entry =? 0 then map trackUri (snd entry)
  else items ++ map trackUri (snd entry).

Definition afterUploads (entries : list (nat * list string)) (items : list string)
    : list string :=
  fold_left (fun items entry => afterUpload entry items) entries items.

(** The run from [w] to [w'] left every playlist but [id] as it was. *)
Definition othersKept (id : string) (w w' : World.t) : Prop :=
  forall other, other <> id ->
    Remote.itemsOf (World.spotify w') other = Remote.itemsOf (World.spotify w) other.

(** ** Smart labels whose query fails *)

(** A criteria language whose parser reads a text without checking what
    it says: the store is left to reject a filter that makes no sense. *)
Definition uncheckedLanguage : CriteriaLanguage :=
  {| TrackWhereInput := LabelGrammar.Predicate;
     parser_parse := fun criteria =>
       match LabelGrammar.tokenize criteria with
       | Some ts =>
           match LabelGrammar.parseTokens ts with
           | Some p => Return (ParseSuccess p)
           | None => Return ParseFailure
           end
       | None => Return ParseFailure
       end;
     selects := fun p =>
       if LabelGrammar.wellFormed p then Some (LabelGrammar.holds p) else None |}.

(** A smart label that compares the explicit flag with a number. *)
Definition senselessLabel : Label.t := labelRow 1 "Senseless" [1] (Some "explicit > 3").

(* ================================================================== *)
(** * The OAuth callback page: [getServerSideProps]

    The page Spotify sends the browser back to.  Its query is taken as
    [new URL(req.url, env.DOMAIN).searchParams] holds it, a list of names
    and values. *)

Module OauthCallback.

(** The fields of [env] that the page reads. *)
Record Environment := mkEnvironment {
  DOMAIN : string;
  SPOTIFY_CLIENT_ID : string;
  SPOTIFY_CLIENT_SECRET : string
}.

(** The two requests of the page. *)
Inductive Call :=
| ExchangeCode (authorization : Authorization) (code redirect_uri : string)
    (* POST https://accounts.spotify.com/api/token, grant_type=authorization_code *)
| GetProfile (authorization : Authorization).
    (* GET https://api.spotify.com/v1/me *)

(** The JSON bodies that come back, as far as the two schemas tell them apart. *)
Inductive Answer :=
| TokenBody (access_token refresh_token : string) (expires_in : Z)
| ProfileBody (id : string) (images : list Api.Image.t)
| OtherBody.

(** [ctx.session], as the page reads it. *)
Record Session := mkSession {
  handle : option string;         (* $handle *)
  redirectUri : option string
}.

Inductive Failure :=
| Error (message : string)        (* [throw new Error(message)] *)
| ZodError.                       (* [Schema.parse] rejected the body *)

Record State := mkState {
  clock : Z;
  env : Environment;
  session : Session;
  users : list User.t;                  (* the [User] table *)
  answers : Call -> Answer;             (* what Spotify answers *)
  calls : list Call;                    (* every request sent, oldest first *)
  sessionsCreated : list (nat * Role)   (* every [ctx.session.$create], oldest first *)
}.

(** [searchParams.get(name)] *)
Definition searchParams_get (name : string) (searchParams : list (string * string))
    : option string :=
  option_map snd (find (fun p => String.eqb (fst p) name) searchParams).

(** The value of a parameter unless [!value] holds: null and the empty
    string are falsy. *)
Definition truthy (value : option string) : option string :=
  match value with
  | Some v => if String.eqb v "" then None else Some v
  | None => None
  end.

(** [state !== ctx.session.$handle], negated. *)
Definition sameHandle (state : string) (handle : option string) : bool :=
  match handle with
  | Some h => String.eqb state h
  | None => false
  end.

Definition fetch (call : Call) (s : State) : Answer * State :=
  (answers s call,
   mkState (clock s) (env s) (session s) (users s) (answers s) (calls s ++ [call])
     (sessionsCreated s)).

Record Token := mkToken {
  access_token : string;
  refresh_token : string;
  expires_in : Z
}.

Definition TokenResponse_parse (body : Answer) : option Token :=
  match body with
  | TokenBody access_token refresh_token expires_in =>
      Some (mkToken access_token refresh_token expires_in)
  | _ => None
  end.

Record Profile := mkProfile { id : string; images : list Api.Image.t }.

Definition ProfileResponse_parse (body : Answer) : option Profile :=
  match body with
  | ProfileBody id images => Some (mkProfile id images)
  | _ => None
  end.

Record UpdatedFields := mkUpdatedFields {
  avatarUrl : option string;
  accessToken : string;
  refreshToken : string;
  accessTokenExpiresAt : Z
}.

(** The row of [create: { spotifyId, role: "USER", ...updatedFields }]. *)
Definition createdRow (now : Z) (id : nat) (spotifyId : string)
    (fields : UpdatedFields) : User.t :=
  User.mk id now now USER spotifyId (avatarUrl fields) (accessToken fields)
    (accessTokenExpiresAt fields) (refreshToken fields).

(** A row after [update: updatedFields]. *)
Definition updatedRow (now : Z) (fields : UpdatedFields) (row : User.t) : User.t :=
  User.mk (User.id row) (User.createdAt row) now (User.role row) (User.spotifyId row)
    (avatarUrl fields) (accessToken fields) (accessTokenExpiresAt fields)
    (refreshToken fields).

(** [db.user.upsert({ where: { spotifyId }, create, update,
                      select: { id: true, role: true } })] *)
Definition user_upsert (spotifyId : string) (fields : UpdatedFields) (s : State)
    : (nat * Role) * State :=
  let stored := fun rows =>
    mkState (clock s) (env s) (session s) rows (answers s) (calls s)
      (sessionsCreated s) in
  match find (fun row => String.eqb (User.spotifyId row) spotifyId) (users s) with
  | Some found =>
      ((User.id found, User.role found),
       stored (map (fun row => if String.eqb (User.spotifyId row) spotifyId
                               then updatedRow (clock s) fields row else row)
                   (users s)))
  | None =>
      let row := createdRow (clock s) (Prisma.nextId User.id (users s)) spotifyId fields in
      ((User.id row, User.role row), stored (users s ++ [row]))
  end.

(** [ctx.session.$create({ userId, role })] *)
Definition session_create (publicData : nat * Role) (s : State) : State :=
  mkState (clock s) (env s) (session s) (users s) (answers s) (calls s)
    (sessionsCreated s ++ [publicData]).

(** The page's [getServerSideProps]: what it throws or the [redirectUri]
    of its props. *)
Definition getServerSideProps (searchParams : list (string * string)) (s : State)
    : (Failure + string) * State :=
  match truthy (searchParams_get "code" searchParams) with
  | None => (inl (Error "Search param 'code' is missing or empty"), s)
  | Some code =>
  match truthy (searchParams_get "state" searchParams) with
  | None => (inl (Error "Search param 'state' is missing or empty"), s)
  | Some state =>
  if negb (sameHandle state (handle (session s)))
  then (inl (Error "OAuth state doesn't match"), s)
  else
    let redirect := Js.nullish (redirectUri (session s)) "/" in
    let authorization :=
      Basic (SPOTIFY_CLIENT_ID (env s)) (SPOTIFY_CLIENT_SECRET (env s)) in
    let (tokenBody, s1) :=
      fetch (ExchangeCode authorization code
               (DOMAIN (env s) ++ "/auth/oauth_callback")%string) s in
    match TokenResponse_parse tokenBody with
    | None => (inl ZodError, s1)
    | Some token =>
    let (userBody, s2) := fetch (GetProfile (Bearer (access_token token))) s1 in
    match ProfileResponse_parse userBody with
    | None => (inl ZodError, s2)
    | Some profile =>
        let spotifyId := id profile in
        let updatedFields :=
          mkUpdatedFields
            (option_map Api.Image.url (nth_error (images profile) 0))
            (access_token token) (refresh_token token)
            (clock s2 + (expires_in token - 60) * 1000)%Z in
        let (selected, s3) := user_upsert spotifyId updatedFields s2 in
        (inr redirect, session_create selected s3)
    end
    end
  end
  end.

(** What a login leaves alone in a row of the [User] table. *)
Definition identity (row : User.t) : nat * string * Z * Role :=
  (User.id row, User.spotifyId row, User.createdAt row, User.role row).

(** *** A sample login *)

Definition sampleEnv : Environment :=
  mkEnvironment "https://playlist-gen.example" "client-id" "client-secret".

Definition sampleAnswers (call : Call) : Answer :=
  match call with
  | ExchangeCode _ code _ =>
      if String.eqb code "good-code"
      then TokenBody "access-1" "refresh-1" 3600
      else OtherBody
  | GetProfile (Bearer token) =>
      if String.eqb token "access-1"
      then ProfileBody "alice" [Api.Image.mk "https://i.scdn.co/image/alice"]
      else OtherBody
  | GetProfile _ => OtherBody
  end.

(** Alice is known to the store, Bob is the only other user; the session
    was opened under the handle [handle-1]. *)
Definition sampleState : State :=
  mkState 5000 sampleEnv (mkSession (Some "handle-1") None)
    [User.mk 1 0 0 USER "alice" None "old-access" 1000 "old-refresh";
     User.mk 2 0 0 USER "bob" None "access-bob" 1000 "refresh-bob"]
    sampleAnswers [] [].

Definition goodQuery : list (string * string) :=
  [("code", "good-code"); ("state", "handle-1")].

End OauthCallback.
(* ================================================================== *)
(** * Properties *)

(** ** Running a computation *)

Lemma bind_Return {A B} (m : M A) (k : A -> M B) w b w' :
  bind m k w = (Return b, w') ->
  exists a w1, m w = (Return a, w1) /\ k a w1 = (Return b, w').
Proof.
  unfold bind. destruct (m w) as [[a | e |] w1]; intro H; try discriminate.
  exists a, w1. split; [reflexivity | exact H].
Qed.

(** ** Token refresh *)

Lemma refreshAccessToken_cases w :
  let answer := Remote.serve (World.spotify w) (refreshRequest w) in
  let w1 := World.exchanged (refreshRequest w) (snd answer) w in
  refreshAccessToken w =
    match granted w with
    | Some token =>
        if Js.validDate (ModifiedFields.accessTokenExpiresAt (fieldsOf w token))
        then
          if Prisma.hasUser (World.db w) (User.id (World.user w))
          then Object_assign (fieldsOf w token)
                 (snd (Prisma.user_update (User.id (World.user w)) (fieldsOf w token) w1))
          else (Throw (PrismaError RecordNotFound), w1)
        else (Throw (PrismaError ValidationError), w1)
    | None => (Throw ZodError, w1)
    end.
Proof.
  unfold refreshAccessToken, granted, refreshRequest, bind, theUser, theEnv, fetch,
    Date_now, fieldsOf.
  destruct (Remote.serve (World.spotify w)
              (tokenRequest (World.env w) (User.refreshToken (World.user w))))
    as [res remote] eqn:E.
  cbn [fst snd].
  destruct (Response.json res); cbn; try reflexivity.
  unfold Prisma.user_update. cbn.
  destruct (Js.validDate _); cbn; [| reflexivity].
  destruct (Prisma.hasUser (World.db w) (User.id (World.user w))); reflexivity.
Qed.

(** The update of a user that is there, with a date that is valid. *)
Lemma user_update_done id data w :
  Js.validDate (ModifiedFields.accessTokenExpiresAt data) = true ->
  Prisma.hasUser (World.db w) id = true ->
  Prisma.user_update id data w =
    (Return tt,
     World.setDb
       (Db.mk (map (Prisma.updateUserRow (World.clock w) id data) (Db.users (World.db w)))
              (Db.albums (World.db w)) (Db.artists (World.db w)) (Db.tracks (World.db w))
              (Db.labels (World.db w)) (Db.playlists (World.db w)))
       [UserUpdated id] w).
Proof.
  intros Hvalid Huser. unfold Prisma.user_update. rewrite Hvalid, Huser. reflexivity.
Qed.

(** C9, as amended.  A refresh that completes changes, in the [user]
    object, the access token and its expiry and nothing else; in the
    store, it rewrites the one [User] row of that id, where it sets the
    same two fields and the store stamps [updatedAt]; every other column,
    every other row and every other table stay as they were, and exactly
    one row write is recorded. *)
Theorem refreshAccessToken_touches_token_fields_only w w' :
  refreshAccessToken w = (Return tt, w') ->
  exists token,
    granted w = Some token
    /\ World.user w' = refreshedUser (fieldsOf w token) (World.user w)
    /\ sameButToken (World.user w) (World.user w')
    /\ Db.users (World.db w') =
         map (fun row =>
                if User.id row =? User.id (World.user w)
                then refreshedRow (World.clock w) (fieldsOf w token) row
                else row)
             (Db.users (World.db w))
    /\ World.writes w' = World.writes w ++ [UserUpdated (User.id (World.user w))]
    /\ Db.albums (World.db w') = Db.albums (World.db w)
    /\ Db.artists (World.db w') = Db.artists (World.db w)
    /\ Db.tracks (World.db w') = Db.tracks (World.db w)
    /\ Db.labels (World.db w') = Db.labels (World.db w)
    /\ Db.playlists (World.db w') = Db.playlists (World.db w).
Proof.
  rewrite refreshAccessToken_cases. cbn zeta.
  destruct (granted w) as [token |]; [| discriminate].
  destruct (Js.validDate _) eqn:Hvalid; [| discriminate].
  destruct (Prisma.hasUser (World.db w) (User.id (World.user w))) eqn:Huser;
    [| discriminate].
  rewrite user_update_done by assumption.
  cbn. intro H. injection H as <-. exists token. cbn.
  repeat split; reflexivity.
Qed.

Lemma refreshAccessToken_touches_token_fields_only_witness :
  exists token, granted refreshWorld = Some token
    /\ World.writes (snd (refreshAccessToken refreshWorld)) = [UserUpdated 1].
Proof.
  destruct (refreshAccessToken_touches_token_fields_only refreshWorld
              (snd (refreshAccessToken refreshWorld)) eq_refl)
    as (token & Hg & _ & _ & _ & Hw & _).
  exists token. split; [exact Hg | exact Hw].
Defined.

(** C9, as stated, fails: the persisted row of the refreshed user differs
    from the row before the refresh in [updatedAt] too. *)
Lemma refreshAccessToken_stamps_updatedAt :
  exists w',
    refreshAccessToken refreshWorld = (Return tt, w')
    /\ ~ Forall2 sameButToken (Db.users (World.db refreshWorld)) (Db.users (World.db w')).
Proof.
  exists (snd (refreshAccessToken refreshWorld)).
  split; [vm_compute; reflexivity |].
  vm_compute. intro H. inversion H as [| a b la lb Hab _]; subst.
  destruct Hab as (_ & _ & Hup & _). cbn in Hup. discriminate.
Qed.

(** ** [spotifyFetch] *)

Lemma spotifyFetch_split req w :
  spotifyFetch req w =
    if expired w
    then match refreshAccessToken
                 (World.logged (Info "Expired access token, retrying...") w) with
         | (Return _, w1) => sendAuthorized req w1
         | (Throw e, w1) => (Throw e, w1)
         | (Unfinished, w1) => (Unfinished, w1)
         end
    else sendAuthorized req w.
Proof.
  unfold spotifyFetch, sendAuthorized, expired.
  unfold bind at 1 2 3. unfold theUser at 1, Date_now at 1. cbn beta iota.
  destruct (World.clock w >? User.accessTokenExpiresAt (World.user w))%Z.
  - unfold bind at 1, log at 1. cbn beta iota.
    destruct (refreshAccessToken _) as [[[] | e |] w1]; reflexivity.
  - reflexivity.
Qed.

Lemma sendAuthorized_requests req w :
  World.requests (snd (sendAuthorized req w)) =
    World.requests w ++ [authorized (User.accessToken (World.user w)) req].
Proof.
  unfold sendAuthorized, bind, theUser, log, fetch. cbn.
  destruct (Remote.serve _ _) as [res remote]. cbn.
  destruct (Response.ok res); reflexivity.
Qed.

(** C7, as amended.  A call through [spotifyFetch] made while the stored
    expiry is not in the past sends one request, the request of the call
    under the stored token, and no refresh.  A call made after the expiry
    first sends exactly one refresh request.  When the token endpoint
    answers it with a token, and the token can be stored (its expiry is a
    valid date and the row of the user is there), the request of the call
    follows, under the token just granted.  Otherwise the refresh fails:
    its error is thrown and the request of the call is not sent. *)
Theorem spotifyFetch_refreshes_expired_token req w :
  let u := World.user w in
  let after := spotifyFetch req w in
  ((World.clock w <= User.accessTokenExpiresAt u)%Z ->
     exists sent,
       World.requests (snd after) = World.requests w ++ [sent]
       /\ bears (User.accessToken u) req sent)
  /\ ((User.accessTokenExpiresAt u < World.clock w)%Z ->
        exists refresh,
          refreshes w refresh
          /\ match Response.json (fst (Remote.serve (World.spotify w) refresh)) with
             | JToken token =>
                 if Js.validDate
                      (World.clock w + (Api.Token.expires_in token - 60) * 1000)
                    && Prisma.hasUser (World.db w) (User.id u)
                 then exists sent,
                        World.requests (snd after) =
                          World.requests w ++ [refresh; sent]
                        /\ bears (Api.Token.access_token token) req sent
                 else World.requests (snd after) = World.requests w ++ [refresh]
                      /\ exists e, fst after = Throw e
             | _ =>
                 World.requests (snd after) = World.requests w ++ [refresh]
                 /\ fst after = Throw ZodError
             end).
Proof.
  cbn zeta. rewrite spotifyFetch_split. unfold expired. split; intro H.
  - replace (World.clock w >? _)%Z with false
      by (symmetry; rewrite Z.gtb_ltb; apply Z.ltb_ge; exact H).
    eexists. split; [apply sendAuthorized_requests |].
    unfold bears, authorized. cbn. repeat split.
  - replace (World.clock w >? _)%Z with true
      by (symmetry; rewrite Z.gtb_ltb; apply Z.ltb_lt; exact H).
    exists (refreshRequest w).
    split; [unfold refreshes, refreshRequest, tokenRequest; cbn; repeat split |].
    rewrite refreshAccessToken_cases. cbn zeta.
    change (granted (World.logged _ w)) with (granted w). unfold granted.
    destruct (Response.json (fst (Remote.serve (World.spotify w) (refreshRequest w))))
      as [token | | | | |]; try (split; reflexivity).
    change (ModifiedFields.accessTokenExpiresAt (fieldsOf (World.logged _ w) token))
      with (World.clock w + (Api.Token.expires_in token - 60) * 1000)%Z.
    cbn [World.db World.user World.logged World.exchanged].
    destruct (Js.validDate _) eqn:Hvalid;
      [| cbn [andb]; split; [reflexivity | eexists; reflexivity]].
    destruct (Prisma.hasUser (World.db w) (User.id (World.user w))) eqn:Hu;
      [| cbn [andb]; split; [reflexivity | eexists; reflexivity]].
    cbn [andb]. rewrite user_update_done by assumption.
    unfold Object_assign. cbn [snd].
    eexists. split.
    + rewrite sendAuthorized_requests. cbn. rewrite <- app_assoc. reflexivity.
    + unfold bears, authorized. cbn. repeat split.
Qed.

Lemma spotifyFetch_refreshes_expired_token_witness :
  (exists refresh sent,
     World.requests (snd (spotifyFetch (Request.get (MeTracks 0 5)) refreshWorld)) =
       [refresh; sent]
     /\ Request.url refresh = AccountsToken
     /\ Request.authorization sent = Some (Bearer "fresh-token"))
  /\ (exists sent,
        World.requests
          (snd (spotifyFetch (Request.get (MeTracks 0 5))
                  (Fixture.world 500 (Fixture.store [] [] []) (Fixture.service [] [])))) =
          [sent]
        /\ Request.authorization sent = Some (Bearer "stale-token")).
Proof.
  split.
  - destruct (proj2 (spotifyFetch_refreshes_expired_token
                       (Request.get (MeTracks 0 5)) refreshWorld) eq_refl)
      as (refresh & (Hmethod & Hurl & Hbody & Hauth) & Hcase).
    assert (Hrefresh : refresh = refreshRequest refreshWorld).
    { destruct (Response.json (fst (Remote.serve (World.spotify refreshWorld) refresh)));
        [destruct (_ && _); [destruct Hcase as (sent & Hreq & _) | destruct Hcase as (Hreq & _)]
        | destruct Hcase as (Hreq & _) .. ];
        vm_compute in Hreq; injection Hreq as <-; intros; reflexivity. }
    subst refresh.
    change (Response.json (fst (Remote.serve (World.spotify refreshWorld)
                                  (refreshRequest refreshWorld))))
      with (JToken (Api.Token.mk "fresh-token" 3600)) in Hcase.
    cbv iota beta in Hcase.
    match type of Hcase with
    | if ?storable then _ else _ => change storable with true in Hcase
    end.
    cbv iota in Hcase.
    destruct Hcase as (sent & Hreq & Hbears & _).
    exists (refreshRequest refreshWorld), sent.
    split; [exact Hreq |]. split; [reflexivity | exact Hbears].
  - destruct (proj1 (spotifyFetch_refreshes_expired_token (Request.get (MeTracks 0 5))
                       (Fixture.world 500 (Fixture.store [] [] []) (Fixture.service [] []))))
      as (sent & Hreq & Hbears & _).
    + discriminate.
    + exists sent. split; [exact Hreq | exact Hbears].
Defined.

(** C7, the claim as it was given, at an input where it fails.  The token
    of the user has run out and the token endpoint does not accept the
    refresh token any more: the call sends the refresh request, throws,
    and the request of the call never goes out, under no token. *)
Lemma spotifyFetch_sends_nothing_after_failed_refresh :
  let w := revokedWorld in
  let after := spotifyFetch (Request.get (MeTracks 0 5)) w in
  (User.accessTokenExpiresAt (World.user w) < World.clock w)%Z
  /\ fst after = Throw ZodError
  /\ exists refresh,
       World.requests (snd after) = [refresh]
       /\ Request.url refresh = AccountsToken.
Proof.
  cbn zeta. split; [reflexivity |]. split; [vm_compute; reflexivity |].
  eexists. split; [vm_compute; reflexivity | reflexivity].
Qed.

(** ** Frames *)

Lemma sameButToken_refl u : sameButToken u u.
Proof. repeat split. Qed.

Lemma sameButToken_trans a b c :
  sameButToken a b -> sameButToken b c -> sameButToken a c.
Proof. unfold sameButToken. intuition congruence. Qed.

Lemma sameService_refl r : sameService r r.
Proof. repeat split. Qed.

Lemma sameService_trans a b c :
  sameService a b -> sameService b c -> sameService a c.
Proof. unfold sameService. intuition congruence. Qed.

Lemma quiet_refl w : quiet w w.
Proof.
  unfold quiet. repeat split.
Qed.

Lemma quiet_trans a b c : quiet a b -> quiet b c -> quiet a c.
Proof.
  unfold quiet.
  intros (H1 & H2 & H3 & H4 & H5 & H6 & H7 & H8 & H9 & H10 & H11)
         (K1 & K2 & K3 & K4 & K5 & K6 & K7 & K8 & K9 & K10 & K11).
  repeat match goal with |- _ /\ _ => split end; try congruence.
  - eapply sameButToken_trans; eassumption.
  - eapply sameService_trans; eassumption.
Qed.

Lemma grown_refl w : grown w w.
Proof.
  unfold grown.
  repeat match goal with |- _ /\ _ => split end;
    try reflexivity; try apply sameButToken_refl; try apply sameService_refl;
    exists []; symmetry; apply app_nil_r.
Qed.

Lemma grown_trans a b c : grown a b -> grown b c -> grown a c.
Proof.
  unfold grown.
  intros (H1 & H2 & H3 & H4 & [x5 H5] & [x6 H6] & [x7 H7] & H8 & H9 & H10)
         (K1 & K2 & K3 & K4 & [y5 K5] & [y6 K6] & [y7 K7] & K8 & K9 & K10).
  repeat match goal with |- _ /\ _ => split end; try congruence.
  - eapply sameButToken_trans; eassumption.
  - eapply sameService_trans; eassumption.
  - exists (x5 ++ y5). rewrite K5, H5. symmetry. apply app_assoc.
  - exists (x6 ++ y6). rewrite K6, H6. symmetry. apply app_assoc.
  - exists (x7 ++ y7). rewrite K7, H7. symmetry. apply app_assoc.
Qed.

Lemma quiet_grown w w' : quiet w w' -> grown w w'.
Proof.
  unfold quiet, grown.
  intros (H1 & H2 & H3 & H4 & H5 & H6 & H7 & H8 & H9 & H10 & _).
  repeat match goal with |- _ /\ _ => split end; try assumption;
    exists []; rewrite app_nil_r; assumption.
Qed.

Section Preserves.
Variable R : World.t -> World.t -> Prop.
Hypothesis R_refl : forall w, R w w.
Hypothesis R_trans : forall a b c, R a b -> R b c -> R a c.

Lemma preserves_ret {A} (a : A) : preserves R (ret a).
Proof. intro w. apply R_refl. Qed.

Lemma preserves_throw {A} e : preserves R (@throw A e).
Proof. intro w. apply R_refl. Qed.

Lemma preserves_bind {A B} (m : M A) (k : A -> M B) :
  preserves R m -> (forall a, preserves R (k a)) -> preserves R (bind m k).
Proof.
  intros Hm Hk w. unfold bind. specialize (Hm w).
  destruct (m w) as [[a | e |] w1]; cbn in *; try assumption.
  eapply R_trans; [exact Hm | apply Hk].
Qed.

Lemma preserves_promiseAll {A B} (xs : list A) (f : A -> M B) :
  (forall x, preserves R (f x)) -> preserves R (promiseAll xs f).
Proof.
  intro Hf. induction xs as [| x xs IH]; cbn.
  - apply preserves_ret.
  - apply preserves_bind; [apply Hf | intro].
    apply preserves_bind; [exact IH | intro; apply preserves_ret].
Qed.
End Preserves.

Lemma catalogWrites_app ws ws' :
  catalogWrites (ws ++ ws') = catalogWrites ws ++ catalogWrites ws'.
Proof. apply filter_app. Qed.

Lemma serve_sameService r req : sameService r (snd (Remote.serve r req)).
Proof.
  unfold Remote.serve.
  destruct (Remote.refuses r req); [apply sameService_refl |].
  destruct (Request.method req), (Request.url req), (Request.body req);
    cbn; try apply sameService_refl;
    repeat match goal with
    | |- context [match ?x with _ => _ end] => destruct x; cbn
    end;
    try apply sameService_refl; repeat split.
Qed.

Lemma fetch_quiet req : preserves quiet (fetch req).
Proof.
  intro w. unfold fetch.
  pose proof (serve_sameService (World.spotify w) req) as Hs.
  destruct (Remote.serve (World.spotify w) req) as [res remote]. cbn in *.
  unfold quiet. cbn.
  repeat match goal with |- _ /\ _ => split end;
    try reflexivity; try apply sameButToken_refl; assumption.
Qed.

Ltac frame_by_projection :=
  cbn;
  repeat match goal with |- _ /\ _ => split end;
  try reflexivity; try apply sameButToken_refl; try apply sameService_refl.

Lemma log_quiet line : preserves quiet (log line).
Proof. intro w. unfold quiet. frame_by_projection. Qed.

Lemma theUser_quiet : preserves quiet theUser.
Proof. intro w. apply quiet_refl. Qed.

Lemma user_update_ids now id fields rows :
  map User.id (map (Prisma.updateUserRow now id fields) rows) = map User.id rows.
Proof.
  rewrite map_map. apply map_ext. intro row. unfold Prisma.updateUserRow.
  destruct (User.id row =? id); reflexivity.
Qed.

Lemma refreshAccessToken_quiet : preserves quiet refreshAccessToken.
Proof.
  intro w. rewrite refreshAccessToken_cases. cbn zeta.
  pose proof (fetch_quiet (refreshRequest w) w) as Hf. unfold fetch in Hf.
  destruct (Remote.serve (World.spotify w) (refreshRequest w)) as [res remote].
  cbn [snd] in *.
  destruct (granted w) as [token |]; [| exact Hf].
  destruct (Js.validDate _) eqn:Hvalid; [| exact Hf].
  destruct (Prisma.hasUser (World.db w) (User.id (World.user w))) eqn:Hu; [| exact Hf].
  eapply quiet_trans; [exact Hf |].
  rewrite user_update_done by assumption.
  unfold quiet. cbn [World.clock World.env World.user World.db World.spotify
    World.writes World.setDb World.setUser Object_assign snd Db.albums Db.artists
    Db.tracks Db.labels Db.playlists Db.users].
  repeat match goal with |- _ /\ _ => split end;
    try reflexivity; try apply sameService_refl.
  - repeat split.
  - apply user_update_ids.
  - rewrite catalogWrites_app. cbn. apply app_nil_r.
Qed.

Lemma sendAuthorized_quiet req : preserves quiet (sendAuthorized req).
Proof.
  unfold sendAuthorized.
  repeat first
    [ apply (preserves_bind quiet quiet_trans); [| intro]
    | apply theUser_quiet | apply log_quiet | apply fetch_quiet ].
  destruct (negb _).
  - repeat first
      [ apply (preserves_bind quiet quiet_trans); [| intro]
      | apply log_quiet | apply (preserves_throw quiet quiet_refl) ].
  - apply (preserves_ret quiet quiet_refl).
Qed.

Lemma spotifyFetch_quiet req : preserves quiet (spotifyFetch req).
Proof.
  intro w. rewrite spotifyFetch_split.
  destruct (expired w); [| apply sendAuthorized_quiet].
  pose proof (refreshAccessToken_quiet
                (World.logged (Info "Expired access token, retrying...") w)) as Hr.
  destruct (refreshAccessToken _) as [[[] | e |] w1]; cbn [snd] in *.
  - eapply quiet_trans; [| apply sendAuthorized_quiet].
    eapply quiet_trans; [apply (log_quiet (Info "Expired access token, retrying...") w) | exact Hr].
  - eapply quiet_trans; [apply (log_quiet (Info "Expired access token, retrying...") w) | exact Hr].
  - eapply quiet_trans; [apply (log_quiet (Info "Expired access token, retrying...") w) | exact Hr].
Qed.

(** ** lodash *)

Lemma chunk_from_fuel {A} (size fuel fuel' : nat) (l : list A) :
  List.length l <= fuel -> List.length l <= fuel' ->
  Lodash.chunk_from fuel (S size) l = Lodash.chunk_from fuel' (S size) l.
Proof.
  revert fuel' l. induction fuel as [| fuel IH]; intros fuel' l Hl Hl'.
  - destruct l; [destruct fuel'; reflexivity | cbn in Hl; lia].
  - destruct l as [| x l]; [destruct fuel'; reflexivity |].
    destruct fuel' as [| fuel']; [cbn in Hl'; lia |].
    cbn [Lodash.chunk_from]. f_equal.
    apply IH; cbn [skipn]; rewrite length_skipn; cbn in Hl, Hl'; lia.
Qed.


Lemma chunk_cons {A} (x : A) l size :
  Lodash.chunk (x :: l) (S size) =
    firstn (S size) (x :: l) :: Lodash.chunk (skipn (S size) (x :: l)) (S size).
Proof.
  unfold Lodash.chunk. cbn [Lodash.chunk_from List.length]. f_equal.
  apply chunk_from_fuel; cbn [skipn]; rewrite length_skipn; lia.
Qed.

Lemma chunk_ind_skip {A} size (P : list A -> Prop) :
  P [] ->
  (forall x l, P (skipn (S size) (x :: l)) -> P (x :: l)) ->
  forall l, P l.
Proof.
  intros Hnil Hstep l.
  assert (H : forall n l, List.length l <= n -> P l).
  { induction n as [| n IH]; intros l0 Hl.
    - destruct l0; [exact Hnil | cbn in Hl; lia].
    - destruct l0 as [| x l0]; [exact Hnil |].
      apply Hstep, IH. cbn [skipn]. rewrite length_skipn. cbn in Hl. lia. }
  apply (H (List.length l)). lia.
Qed.

(** The chunks put back together are the array. *)
Lemma chunk_concat {A} size (l : list A) :
  List.concat (Lodash.chunk l (S size)) = l.
Proof.
  induction l as [| x l IH] using (chunk_ind_skip size).
  - reflexivity.
  - rewrite chunk_cons. cbn [List.concat]. rewrite IH. apply firstn_skipn.
Qed.

(** Every chunk holds between one and [size] elements. *)
Lemma chunk_sizes {A} size (l : list A) :
  Forall (fun c => 0 < List.length c <= S size) (Lodash.chunk l (S size)).
Proof.
  induction l as [| x l IH] using (chunk_ind_skip size).
  - constructor.
  - rewrite chunk_cons. constructor; [| exact IH].
    rewrite length_firstn. cbn [List.length]. lia.
Qed.


Lemma entries_from_cons {A} index (x : A) l :
  Lodash.entries_from index (x :: l) = (index, x) :: Lodash.entries_from (S index) l.
Proof. reflexivity. Qed.

(** ** The calls a run makes *)

Lemma apiCalls_app xs ys : apiCalls (xs ++ ys) = apiCalls xs ++ apiCalls ys.
Proof. unfold apiCalls. rewrite filter_app. apply map_app. Qed.

Lemma emitted_nothing w w' :
  World.requests w' = World.requests w -> emitted w w' [].
Proof. intro H. exists []. rewrite app_nil_r. split; [exact H | reflexivity]. Qed.

Lemma emitted_trans a b c xs ys :
  emitted a b xs -> emitted b c ys -> emitted a c (xs ++ ys).
Proof.
  intros [e1 [H1 C1]] [e2 [H2 C2]]. exists (e1 ++ e2). split.
  - rewrite H2, H1. symmetry. apply app_assoc.
  - rewrite apiCalls_app. congruence.
Qed.

Lemma emitted_sentDuring w w' calls :
  emitted w w' calls -> apiCalls (sentDuring w w') = calls.
Proof.
  intros [extra [H C]]. unfold sentDuring. rewrite H.
  rewrite skipn_app, skipn_all, Nat.sub_diag. cbn. exact C.
Qed.

Lemma sendAuthorized_Return req w body w' :
  sendAuthorized req w = (Return body, w') ->
  let sent := authorized (User.accessToken (World.user w)) req in
  let answer := Remote.serve (World.spotify w) sent in
  Response.ok (fst answer) = true
  /\ body = Response.json (fst answer)
  /\ World.requests w' = World.requests w ++ [sent]
  /\ World.spotify w' = snd answer
  /\ World.db w' = World.db w
  /\ World.user w' = World.user w
  /\ World.writes w' = World.writes w
  /\ World.clock w' = World.clock w.
Proof.
  unfold sendAuthorized, bind, theUser, log, fetch. cbn.
  destruct (Remote.serve _ _) as [res remote]. cbn.
  destruct (Response.ok res); cbn; [| discriminate].
  intro H. injection H as <- <-. cbn. repeat split.
Qed.

Lemma spotifyFetch_Return req w body w' :
  spotifyFetch req w = (Return body, w') ->
  exists w1,
    quiet w w1
    /\ emitted w w1 []
    /\ sendAuthorized req w1 = (Return body, w').
Proof.
  rewrite spotifyFetch_split.
  destruct (expired w).
  - pose proof (refreshAccessToken_quiet
                  (World.logged (Info "Expired access token, retrying...") w)) as Hq.
    rewrite refreshAccessToken_cases in *. cbn zeta in *.
    destruct (granted _) as [token |]; [| discriminate].
    destruct (Js.validDate _) eqn:Hvalid; [| discriminate].
    destruct (Prisma.hasUser _ _) eqn:Hu; [| discriminate].
    rewrite user_update_done in * by assumption.
    unfold Object_assign in *. cbn [snd] in *.
    intro H. eexists. split; [| split; [| exact H]].
    + eapply quiet_trans;
        [apply (log_quiet (Info "Expired access token, retrying...") w) | exact Hq].
    + eexists. cbn. split; [reflexivity | reflexivity].
  - intro H. exists w. split; [apply quiet_refl |].
    split; [apply emitted_nothing; reflexivity | exact H].
Qed.

Lemma spotifyFetch_Return_emitted req w body w' :
  spotifyFetch req w = (Return body, w') ->
  isTokenRequest req = false ->
  emitted w w' [call req].
Proof.
  intros H Hreq. apply spotifyFetch_Return in H as (w1 & _ & He & Hs).
  apply sendAuthorized_Return in Hs as (_ & _ & Hr & _).
  change [call req] with ([] ++ [call req]).
  eapply emitted_trans; [exact He |].
  eexists. split; [exact Hr |].
  unfold apiCalls, isTokenRequest in *. cbn. rewrite Hreq. reflexivity.
Qed.


(** ** The calls of the playlist push *)

Section PushCalls.
Context {L : CriteriaLanguage}.

Lemma resolveTracks_requests playlist w :
  World.requests (snd (resolveTracks playlist w)) = World.requests w.
Proof.
  unfold resolveTracks.
  destruct (LabelWithTracks.smartCriteria _) as [criteria |]; [| reflexivity].
  unfold tryCatch, bind, theUser, lift, Prisma.track_findMany_where, log, ret.
  cbn.
  destruct (generatePrismaFilter criteria) as [[filter |] | e |]; cbn;
    try reflexivity.
  destruct (selects filter); reflexivity.
Qed.





Lemma uploadedIds_nonempty tracks : uploadedIds tracks <> [].
Proof.
  unfold uploadedIds. destruct tracks; cbn; discriminate.
Qed.





End PushCalls.


(** ** Smart labels in the push *)

(** The tracks of a smart label are resolved from its criteria alone. *)
Lemma smart_resolution_ignores_relation {L : CriteriaLanguage} p q criteria w :
  LabelWithTracks.smartCriteria (PlaylistWithLabel.label p) = Some criteria ->
  LabelWithTracks.smartCriteria (PlaylistWithLabel.label q) = Some criteria ->
  resolveTracks p w = resolveTracks q w.
Proof.
  intros Hp Hq. unfold resolveTracks. rewrite Hp, Hq. reflexivity.
Qed.

(** C1, the code at the failing inputs.  The removal of the dummy track is
    decided on the stored relation of the label, not on the tracks the
    criteria resolved to.  A smart label that resolves to one track and has
    no stored relation gets a replace call with that track and then a
    removal call for the dummy; a smart label that resolves to nothing but
    has a stored relation gets the dummy in its replace call and no
    removal call, and the playlist is left holding the dummy. *)
Theorem smart_label_removal_decided_on_stored_relation :
  (let w := playlistWorld 2 (cleanLabel []) in
   let after := syncPlaylists (L := LabelGrammar.language) w in
   fst (resolveTracks (L := LabelGrammar.language) (playlistOf 2 (cleanLabel [])) w)
     = Return [Fixture.stored 2 1]
   /\ fst after = Return tt
   /\ apiCalls (sentDuring w (snd after)) =
        [(PUT, PlaylistTracksWith "playlist-x" ["spotify:track:track-01"]);
         (DELETE, PlaylistTracks "playlist-x")]
   /\ Request.body (last (World.requests (snd after)) (Request.get AccountsToken)) =
        RemoveTracks ["spotify:track:41MCdlvXOl62B7Kv86Bb1v"])
  /\ (let w := playlistWorld 2 (nothingLabel [2]) in
      let after := syncPlaylists (L := LabelGrammar.language) w in
      fst (resolveTracks (L := LabelGrammar.language)
             (playlistOf 2 (nothingLabel [2])) w) = Return []
      /\ fst after = Return tt
      /\ apiCalls (sentDuring w (snd after)) =
           [(PUT, PlaylistTracksWith "playlist-x"
                    ["spotify:track:41MCdlvXOl62B7Kv86Bb1v"])]
      /\ Remote.itemsOf (World.spotify (snd after)) "playlist-x" =
           Some ["spotify:track:41MCdlvXOl62B7Kv86Bb1v"]).
Proof. vm_compute. repeat split. Qed.

(** C3, the code at the failing input.  Two worlds that differ only in the
    stored relation of one smart label: the criteria resolve to the same
    track in both, and yet the push makes different calls, because the
    removal call is decided on the stored relation. *)
Theorem smart_label_stored_relation_is_consulted :
  let calls := fun label =>
    apiCalls (sentDuring (playlistWorld 2 label)
                (snd (syncPlaylists (L := LabelGrammar.language)
                        (playlistWorld 2 label)))) in
  fst (resolveTracks (L := LabelGrammar.language)
         (playlistOf 2 (cleanLabel [])) (playlistWorld 2 (cleanLabel [])))
  = fst (resolveTracks (L := LabelGrammar.language)
           (playlistOf 2 (cleanLabel [1])) (playlistWorld 2 (cleanLabel [1])))
  /\ calls (cleanLabel []) =
       [(PUT, PlaylistTracksWith "playlist-x" ["spotify:track:track-01"]);
        (DELETE, PlaylistTracks "playlist-x")]
  /\ calls (cleanLabel [1]) =
       [(PUT, PlaylistTracksWith "playlist-x" ["spotify:track:track-01"])]
  /\ calls (cleanLabel []) <> calls (cleanLabel [1]).
Proof. vm_compute. repeat split. discriminate. Qed.

(** C2, the code at the failing inputs.  When the criteria of a smart
    label do not compile, [generatePrismaFilter] returns null, spreading
    null adds no condition to the [where] clause, and the query returns
    every track of the user: the label resolves to the whole library, and
    the world, its log included, is as before. *)
Theorem invalid_criteria_resolve_to_every_track {L : CriteriaLanguage}
    playlist criteria w :
  LabelWithTracks.smartCriteria (PlaylistWithLabel.label playlist) = Some criteria ->
  generatePrismaFilter criteria = Return None ->
  resolveTracks playlist w =
    (Return (filter (fun t => Track.userId t =? User.id (World.user w))
               (Db.tracks (World.db w))), w).
Proof.
  intros Hsmart Hnull. unfold resolveTracks. rewrite Hsmart.
  unfold tryCatch, bind, theUser, lift. rewrite Hnull. reflexivity.
Qed.

Lemma invalid_criteria_resolve_to_every_track_witness :
  resolveTracks (L := LabelGrammar.language)
    (playlistOf 2 brokenLabel) (playlistWorld 2 brokenLabel) =
  (Return (libraryOf 2), playlistWorld 2 brokenLabel).
Proof.
  exact (invalid_criteria_resolve_to_every_track (L := LabelGrammar.language)
           (playlistOf 2 brokenLabel) _ (playlistWorld 2 brokenLabel)
           eq_refl eq_refl).
Defined.

(** ** What the service answers *)

Lemma serve_MeTracks r req offset limit :
  Request.method req = GET ->
  Request.url req = MeTracks offset limit ->
  Response.ok (fst (Remote.serve r req)) = true ->
  Response.json (fst (Remote.serve r req)) =
    JTracks (firstn limit (skipn offset (Remote.savedTracks r))).
Proof.
  intros Hm Hu. unfold Remote.serve. rewrite Hm, Hu.
  destruct (Remote.refuses r req); cbn; [discriminate | reflexivity].
Qed.

Lemma serve_ArtistsByIds r req ids :
  Request.method req = GET ->
  Request.url req = ArtistsByIds ids ->
  Response.ok (fst (Remote.serve r req)) = true ->
  Response.json (fst (Remote.serve r req)) = JArtists (map (Remote.findArtist r) ids).
Proof.
  intros Hm Hu. unfold Remote.serve. rewrite Hm, Hu.
  destruct (Remote.refuses r req); cbn; [discriminate | reflexivity].
Qed.

Lemma quiet_pageOf w w' offset limit :
  quiet w w' -> pageOf w' offset limit = pageOf w offset limit.
Proof.
  intros (_ & _ & _ & (_ & Hs & _) & _). unfold pageOf. rewrite Hs. reflexivity.
Qed.

Lemma spotifyFetch_page offset limit w body w' :
  spotifyFetch (Request.get (MeTracks offset limit)) w = (Return body, w') ->
  body = JTracks (pageOf w offset limit)
  /\ quiet w w'
  /\ pageFetches w' = S (pageFetches w).
Proof.
  intro H. pose proof (spotifyFetch_quiet (Request.get (MeTracks offset limit)) w) as Hq.
  rewrite H in Hq. cbn [snd] in Hq.
  apply spotifyFetch_Return in H as (w1 & Hq1 & [extra [Hreq Hapi]] & Hsend).
  apply sendAuthorized_Return in Hsend as (Hok & Hbody & Hsent & _).
  split; [| split; [exact Hq |]].
  - rewrite Hbody. rewrite (serve_MeTracks _ _ offset limit); try reflexivity; [| exact Hok].
    fold (pageOf w1 offset limit). f_equal. apply quiet_pageOf. exact Hq1.
  - unfold pageFetches. rewrite Hsent, Hreq. rewrite !filter_app, !length_app.
    cbn [filter authorized Request.url Request.get List.length].
    assert (Hnone : filter (fun req => match Request.url req with
                                       | MeTracks _ _ => true
                                       | _ => false
                                       end) extra = []).
    { clear - Hapi. unfold apiCalls in Hapi. apply map_eq_nil in Hapi.
      induction extra as [| x extra IH]; [reflexivity |].
      cbn in *. unfold isTokenRequest in Hapi.
      destruct (Request.url x); cbn in *; try discriminate. apply IH. exact Hapi. }
    rewrite Hnone. cbn. lia.
Qed.

Lemma findArtist_id r id a : Remote.findArtist r id = Some a -> Api.Artist.id a = id.
Proof.
  unfold Remote.findArtist. intro H. apply find_some in H as [_ H].
  apply String.eqb_eq. exact H.
Qed.

Lemma allPresent_ids r ids found :
  allPresent (map (Remote.findArtist r) ids) = Some found ->
  map Api.Artist.id found = ids.
Proof.
  revert found. induction ids as [| id ids IH]; intros found H.
  - injection H as <-. reflexivity.
  - cbn in H. destruct (Remote.findArtist r id) as [a |] eqn:Ha; [| discriminate].
    destruct (allPresent _) as [rest |]; [| discriminate].
    injection H as <-. cbn. f_equal; [eapply findArtist_id; exact Ha | apply IH; reflexivity].
Qed.

Lemma spotifyFetch_artists ids w body w' artists :
  spotifyFetch (Request.get (ArtistsByIds ids)) w = (Return body, w') ->
  ArtistsResponse_parse body w' = (Return artists, w') ->
  map Api.Artist.id artists = ids.
Proof.
  intros H Hparse.
  apply spotifyFetch_Return in H as (w1 & _ & _ & Hsend).
  apply sendAuthorized_Return in Hsend as (Hok & Hbody & _).
  rewrite (serve_ArtistsByIds _ _ ids) in Hbody; try reflexivity; [| exact Hok].
  subst body. unfold ArtistsResponse_parse in Hparse.
  destruct (allPresent _) as [found |] eqn:Hfound; [| discriminate].
  injection Hparse as <-. eapply allPresent_ids. exact Hfound.
Qed.

Lemma ArtistsResponse_parse_pure body w r w' :
  ArtistsResponse_parse body w = (r, w') -> w' = w.
Proof.
  unfold ArtistsResponse_parse. destruct body; try (intro H; injection H as _ <-; reflexivity).
  destruct (allPresent artists); intro H; injection H as _ <-; reflexivity.
Qed.

Lemma lookupArtists_chunks_ids chunks acc w artists w' :
  lookupArtists_chunks chunks acc w = (Return artists, w') ->
  map Api.Artist.id artists = map Api.Artist.id acc ++ List.concat chunks.
Proof.
  revert acc w. induction chunks as [| c chunks IH]; intros acc w H.
  - injection H as <- _. cbn. symmetry. apply app_nil_r.
  - cbn [lookupArtists_chunks] in H.
    apply bind_Return in H as (body & w1 & Hfetch & H).
    apply bind_Return in H as (found & w2 & Hparse & H).
    pose proof (ArtistsResponse_parse_pure _ _ _ _ Hparse) as ->.
    apply IH in H. rewrite H, map_app.
    rewrite (spotifyFetch_artists _ _ _ _ _ Hfetch Hparse).
    cbn [List.concat]. symmetry. apply app_assoc.
Qed.

(** The artists looked up are the artists asked for, in order. *)
Lemma lookupArtists_ids ids w artists w' :
  lookupArtists ids w = (Return artists, w') -> map Api.Artist.id artists = ids.
Proof.
  intro H. apply lookupArtists_chunks_ids in H. rewrite H. cbn.
  apply chunk_concat.
Qed.

Lemma lookupArtists_chunks_quiet chunks acc :
  preserves quiet (lookupArtists_chunks chunks acc).
Proof.
  revert acc. induction chunks as [| c chunks IH]; intro acc; cbn.
  - apply (preserves_ret quiet quiet_refl).
  - apply (preserves_bind quiet quiet_trans); [apply spotifyFetch_quiet | intro body].
    apply (preserves_bind quiet quiet_trans); [| intro; apply IH].
    intro w. destruct (ArtistsResponse_parse body w) as [r w1] eqn:E.
    apply ArtistsResponse_parse_pure in E. subst. apply quiet_refl.
Qed.

Lemma lookupArtists_quiet ids : preserves quiet (lookupArtists ids).
Proof. apply lookupArtists_chunks_quiet. Qed.

(** ** What the store does *)

Lemma storeOnly_refl w : storeOnly w w.
Proof. repeat split. Qed.

Lemma storeOnly_trans a b c : storeOnly a b -> storeOnly b c -> storeOnly a c.
Proof. unfold storeOnly. intuition congruence. Qed.

Lemma track_create_Return data w w' :
  Prisma.track_create data w = (Return tt, w') ->
  storeOnly w w'
  /\ (exists row,
        Db.tracks (World.db w') = Db.tracks (World.db w) ++ [row]
        /\ Track.spotifyId row = TrackCreateInput.spotifyId data
        /\ Track.userId row = TrackCreateInput.user data)
  /\ Db.users (World.db w') = Db.users (World.db w)
  /\ Db.albums (World.db w') = Db.albums (World.db w)
  /\ Db.artists (World.db w') = Db.artists (World.db w)
  /\ Db.labels (World.db w') = Db.labels (World.db w)
  /\ Db.playlists (World.db w') = Db.playlists (World.db w)
  /\ World.writes w' = World.writes w ++ [TrackCreated (TrackCreateInput.spotifyId data)].
Proof.
  unfold Prisma.track_create.
  destruct (negb _); [discriminate |].
  destruct (Prisma.hasTrack _ _); [discriminate |].
  intro H. injection H as <-. unfold storeOnly. cbn.
  repeat match goal with |- _ /\ _ => split end; try reflexivity.
  eexists. split; [reflexivity | split; reflexivity].
Qed.

Lemma tracks_created inputs w done w' :
  promiseAll inputs Prisma.track_create w = (Return done, w') ->
  storeOnly w w'
  /\ (exists rows,
        Db.tracks (World.db w') = Db.tracks (World.db w) ++ rows
        /\ map Track.spotifyId rows = map TrackCreateInput.spotifyId inputs
        /\ map Track.userId rows = map TrackCreateInput.user inputs)
  /\ Db.users (World.db w') = Db.users (World.db w)
  /\ Db.albums (World.db w') = Db.albums (World.db w)
  /\ Db.artists (World.db w') = Db.artists (World.db w)
  /\ Db.labels (World.db w') = Db.labels (World.db w)
  /\ Db.playlists (World.db w') = Db.playlists (World.db w)
  /\ World.writes w' =
       World.writes w ++ map TrackCreated (map TrackCreateInput.spotifyId inputs).
Proof.
  revert w done. induction inputs as [| data inputs IH]; intros w done H.
  - injection H as _ <-. unfold storeOnly. cbn.
    repeat match goal with |- _ /\ _ => split end; try reflexivity.
    + exists []. rewrite app_nil_r. repeat split.
    + symmetry. apply app_nil_r.
  - cbn [promiseAll] in H.
    apply bind_Return in H as ([] & w1 & H1 & H).
    apply bind_Return in H as (rest & w2 & H2 & H).
    injection H as _ <-.
    apply track_create_Return in H1
      as (S1 & (row & T1 & Tid & Tuser) & U1 & A1 & R1 & L1 & P1 & W1).
    apply IH in H2 as (S2 & (rows & T2 & Tids & Tusers) & U2 & A2 & R2 & L2 & P2 & W2).
    repeat match goal with |- _ /\ _ => split end; try congruence.
    + eapply storeOnly_trans; eassumption.
    + exists (row :: rows). rewrite T2, T1, <- app_assoc. cbn.
      repeat split; congruence.
    + rewrite W2, W1, <- app_assoc. reflexivity.
Qed.

Lemma artist_createMany_Return data w count w' :
  Prisma.artist_createMany data w = (Return count, w') ->
  storeOnly w w'
  /\ Db.artists (World.db w') =
       Db.artists (World.db w) ++ map (Prisma.artistRow (World.clock w)) data
  /\ Db.users (World.db w') = Db.users (World.db w)
  /\ Db.albums (World.db w') = Db.albums (World.db w)
  /\ Db.tracks (World.db w') = Db.tracks (World.db w)
  /\ Db.labels (World.db w') = Db.labels (World.db w)
  /\ Db.playlists (World.db w') = Db.playlists (World.db w)
  /\ World.writes w' = World.writes w ++ map ArtistCreated (map Api.Artist.id data).
Proof.
  unfold Prisma.artist_createMany.
  destruct (_ && _); [| discriminate].
  intro H. injection H as _ <-. unfold storeOnly. cbn.
  repeat match goal with |- _ /\ _ => split end; reflexivity.
Qed.

Lemma album_createMany_Return data w count w' :
  Prisma.album_createMany_skipDuplicates data w = (Return count, w') ->
  let rows := Prisma.newAlbums (World.clock w) (map Album.id (Db.albums (World.db w))) data in
  count = List.length rows
  /\ storeOnly w w'
  /\ Db.albums (World.db w') = Db.albums (World.db w) ++ rows
  /\ Db.users (World.db w') = Db.users (World.db w)
  /\ Db.artists (World.db w') = Db.artists (World.db w)
  /\ Db.tracks (World.db w') = Db.tracks (World.db w)
  /\ Db.labels (World.db w') = Db.labels (World.db w)
  /\ Db.playlists (World.db w') = Db.playlists (World.db w)
  /\ World.writes w' = World.writes w ++ map (fun a => AlbumCreated (Album.id a)) rows.
Proof.
  unfold Prisma.album_createMany_skipDuplicates.
  destruct (forallb Prisma.validAlbum data); [| discriminate].
  intro H. injection H as <- <-.
  unfold storeOnly. cbn. repeat match goal with |- _ /\ _ => split end; reflexivity.
Qed.

Lemma album_createMany_valid data w count w' :
  Prisma.album_createMany_skipDuplicates data w = (Return count, w') ->
  forallb Prisma.validAlbum data = true.
Proof.
  unfold Prisma.album_createMany_skipDuplicates.
  destruct (forallb Prisma.validAlbum data); [reflexivity | discriminate].
Qed.

(** ** lodash on keys *)

Lemma includes_In x xs : Lodash.includes x xs = true <-> In x xs.
Proof.
  unfold Lodash.includes. rewrite existsb_exists. split.
  - intros (y & Hy & E). apply String.eqb_eq in E. subst. exact Hy.
  - intro H. exists x. split; [exact H | apply String.eqb_refl].
Qed.

Lemma includes_false x xs : Lodash.includes x xs = false <-> ~ In x xs.
Proof.
  rewrite <- includes_In. destruct (Lodash.includes x xs); split; congruence.
Qed.

Lemma uniqBy_from_keys {A} (key : A -> string) seen l x :
  In x l -> In (key x) seen \/ In (key x) (map key (Lodash.uniqBy_from key seen l)).
Proof.
  revert seen. induction l as [| y l IH]; intros seen Hin; [contradiction |].
  cbn [Lodash.uniqBy_from].
  destruct (Lodash.includes (key y) seen) eqn:E.
  - destruct Hin as [-> | Hin]; [left; apply includes_In; exact E | apply IH; exact Hin].
  - destruct Hin as [-> | Hin]; [right; left; reflexivity |].
    destruct (IH (key y :: seen) Hin) as [[<- | Hs] | Hr].
    + right. left. reflexivity.
    + left. exact Hs.
    + right. right. exact Hr.
Qed.

(** [uniqBy] keeps every key. *)
Lemma uniqBy_keys {A} (key : A -> string) l x :
  In x l -> In (key x) (map key (Lodash.uniqBy l key)).
Proof.
  intro H. destruct (uniqBy_from_keys key [] l x H) as [[] | Hr]. exact Hr.
Qed.

Lemma uniqBy_from_subset {A} (key : A -> string) seen l x :
  In x (Lodash.uniqBy_from key seen l) -> In x l.
Proof.
  revert seen. induction l as [| y l IH]; intros seen H; [contradiction |].
  cbn [Lodash.uniqBy_from] in H. destruct (Lodash.includes (key y) seen).
  - right. eapply IH. exact H.
  - destruct H as [-> | H]; [left; reflexivity | right; eapply IH; exact H].
Qed.

Lemma uniq_In x l : In x (Lodash.uniq l) <-> In x l.
Proof.
  split.
  - apply uniqBy_from_subset.
  - intro H. pose proof (uniqBy_keys (fun s => s) l x H) as Hk.
    rewrite map_id in Hk. exact Hk.
Qed.


Lemma newAlbums_covers now present data a :
  In a data ->
  In (AlbumCreateManyInput.id a) present
  \/ In (AlbumCreateManyInput.id a) (map Album.id (Prisma.newAlbums now present data)).
Proof.
  revert present. induction data as [| b data IH]; intros present Hin; [contradiction |].
  cbn [Prisma.newAlbums].
  destruct (Lodash.includes (AlbumCreateManyInput.id b) present) eqn:E.
  - destruct Hin as [-> | Hin]; [left; apply includes_In; exact E | apply IH; exact Hin].
  - destruct Hin as [-> | Hin]; [right; left; reflexivity |].
    destruct (IH (AlbumCreateManyInput.id b :: present) Hin) as [[<- | Hs] | Hr].
    + right. left. reflexivity.
    + left. exact Hs.
    + right. right. exact Hr.
Qed.


(** When every id is stored already, [createMany] inserts nothing. *)
Lemma newAlbums_nothing now present data :
  (forall a, In a data -> In (AlbumCreateManyInput.id a) present) ->
  Prisma.newAlbums now present data = [].
Proof.
  induction data as [| b data IH]; intro H; [reflexivity |].
  cbn [Prisma.newAlbums].
  assert (Hb : Lodash.includes (AlbumCreateManyInput.id b) present = true)
    by (apply includes_In, H; left; reflexivity).
  rewrite Hb. apply IH. intros a Ha. apply H. right. exact Ha.
Qed.

(** ** The album inputs of a page *)

Lemma mapOutcome_Return {A B} (f : A -> Outcome B) xs ys :
  mapOutcome f xs = Return ys -> Forall2 (fun x y => f x = Return y) xs ys.
Proof.
  revert ys. induction xs as [| x xs IH]; intros ys H.
  - injection H as <-. constructor.
  - cbn [mapOutcome] in H. destruct (f x) as [y | e |] eqn:Hx; try discriminate.
    destruct (mapOutcome f xs) as [rest | e |]; try discriminate.
    injection H as <-. constructor; [exact Hx | apply IH; reflexivity].
Qed.

Lemma mapOutcome_finishes {A B} (f : A -> Outcome B) xs :
  (forall x, f x <> Unfinished) -> mapOutcome f xs <> Unfinished.
Proof.
  intro Hf. induction xs as [| x xs IH]; [discriminate |].
  cbn [mapOutcome]. specialize (Hf x).
  destruct (f x); [| discriminate | contradiction].
  destruct (mapOutcome f xs); [discriminate | discriminate | contradiction].
Qed.

Lemma albumInput_finishes item : albumInput item <> Unfinished.
Proof.
  unfold albumInput, thumbnailUrl.
  destruct (option_map _ _); [discriminate |].
  destruct (Js.encodeURIComponent _); discriminate.
Qed.

Lemma albumInputs_finishes page : albumInputs page <> Unfinished.
Proof.
  unfold albumInputs.
  pose proof (mapOutcome_finishes albumInput page albumInput_finishes) as H.
  destruct (mapOutcome albumInput page); [discriminate | discriminate | contradiction].
Qed.

Lemma albumInput_id item a :
  albumInput item = Return a -> AlbumCreateManyInput.id a = albumIdOf item.
Proof.
  unfold albumInput. destruct (thumbnailUrl _); try discriminate.
  intro H. injection H as <-. reflexivity.
Qed.

(** The inputs of a page, before [uniqBy]: one for every item, in order. *)
Lemma albumInputs_Return page albums :
  albumInputs page = Return albums ->
  exists inputs,
    Forall2 (fun item a => albumInput item = Return a) page inputs
    /\ albums = Lodash.uniqBy inputs AlbumCreateManyInput.id.
Proof.
  unfold albumInputs.
  destruct (mapOutcome albumInput page) as [inputs | e |] eqn:Hmap; try discriminate.
  intro H. injection H as <-. exists inputs.
  split; [apply mapOutcome_Return; exact Hmap | reflexivity].
Qed.

Lemma albumInputs_ids page albums a :
  albumInputs page = Return albums ->
  In a albums ->
  exists item, In item page /\ albumInput item = Return a.
Proof.
  intros H Ha. apply albumInputs_Return in H as (inputs & Hall & ->).
  apply uniqBy_from_subset in Ha.
  clear - Hall Ha. induction Hall as [| item b page inputs Hb Hall IH]; [contradiction |].
  destruct Ha as [<- | Ha].
  - exists item. split; [left; reflexivity | exact Hb].
  - destruct (IH Ha) as (other & Hin & Hother).
    exists other. split; [right; exact Hin | exact Hother].
Qed.

Lemma albumInputs_covers page albums item :
  albumInputs page = Return albums ->
  In item page ->
  In (albumIdOf item) (map AlbumCreateManyInput.id albums).
Proof.
  intros H Hitem. apply albumInputs_Return in H as (inputs & Hall & ->).
  assert (Hin : exists a, In a inputs /\ albumInput item = Return a).
  { clear - Hall Hitem. induction Hall as [| x b page inputs Hb Hall IH]; [contradiction |].
    destruct Hitem as [<- | Hitem].
    - exists b. split; [left; reflexivity | exact Hb].
    - destruct (IH Hitem) as (a & Ha & Hitem').
      exists a. split; [right; exact Ha | exact Hitem']. }
  destruct Hin as (a & Ha & Hinput).
  rewrite <- (albumInput_id _ _ Hinput).
  apply uniqBy_keys. exact Ha.
Qed.

(** ** One page of the pull *)

Lemma spotifyFetch_requests req w :
  exists extra,
    World.requests (snd (spotifyFetch req w)) = World.requests w ++ extra
    /\ Forall (fun r => Request.url r = AccountsToken \/ Request.url r = Request.url req)
         extra.
Proof.
  rewrite spotifyFetch_split.
  destruct (expired w).
  - rewrite refreshAccessToken_cases. cbn zeta.
    destruct (granted _) as [token |].
    + destruct (Js.validDate _) eqn:Hvalid;
        [| cbn; eexists; split; [reflexivity |];
           constructor; [left; reflexivity | constructor]].
      destruct (Prisma.hasUser _ _) eqn:Hu.
      * rewrite user_update_done by assumption.
        unfold Object_assign. cbn [snd].
        rewrite sendAuthorized_requests. cbn. rewrite <- app_assoc.
        eexists. split; [reflexivity |].
        constructor; [left; reflexivity |].
        constructor; [right; reflexivity | constructor].
      * cbn. eexists. split; [reflexivity |].
        constructor; [left; reflexivity | constructor].
    + cbn. eexists. split; [reflexivity |].
      constructor; [left; reflexivity | constructor].
  - rewrite sendAuthorized_requests. eexists. split; [reflexivity |].
    constructor; [right; reflexivity | constructor].
Qed.

Lemma spotifyFetch_samePages req :
  (forall offset limit, Request.url req <> MeTracks offset limit) ->
  preserves samePages (spotifyFetch req).
Proof.
  intros Hreq w. destruct (spotifyFetch_requests req w) as (extra & Hex & Hextra).
  unfold samePages, pageFetches. rewrite Hex, filter_app, length_app.
  assert (Hnone : filter (fun r => match Request.url r with
                                   | MeTracks _ _ => true
                                   | _ => false
                                   end) extra = []).
  { clear Hex. induction Hextra as [| r extra [Hr | Hr] _ IH]; [reflexivity | |]; cbn.
    - rewrite Hr. exact IH.
    - destruct (Request.url r) eqn:E; try exact IH.
      exfalso. eapply Hreq. symmetry. exact Hr. }
  rewrite Hnone. cbn. lia.
Qed.

Lemma samePages_refl w : samePages w w.
Proof. reflexivity. Qed.

Lemma samePages_trans a b c : samePages a b -> samePages b c -> samePages a c.
Proof. unfold samePages. congruence. Qed.

Lemma lookupArtists_samePages ids : preserves samePages (lookupArtists ids).
Proof.
  unfold lookupArtists. generalize (@nil Api.Artist.t) as acc.
  induction (Lodash.chunk ids 50) as [| c chunks IH]; intro acc; cbn.
  - apply (preserves_ret samePages samePages_refl).
  - apply (preserves_bind samePages samePages_trans).
    + apply spotifyFetch_samePages. discriminate.
    + intro body. apply (preserves_bind samePages samePages_trans); [| intro; apply IH].
      intro w. destruct (ArtistsResponse_parse body w) as [r w1] eqn:E.
      apply ArtistsResponse_parse_pure in E. subst. reflexivity.
Qed.

Lemma storeOnly_samePages w w' : storeOnly w w' -> samePages w w'.
Proof.
  intros (_ & _ & _ & _ & H). unfold samePages, pageFetches. rewrite H. reflexivity.
Qed.

Lemma filter_map_swap {A B} (f : A -> B) (p : B -> bool) l :
  filter p (map f l) = map f (filter (fun x => p (f x)) l).
Proof.
  induction l as [| x l IH]; [reflexivity |].
  cbn. destruct (p (f x)); cbn; rewrite IH; reflexivity.
Qed.

(** The tracks [differenceBy] lets through are the tracks of the page that
    the user has not stored yet. *)
Lemma missing_are_new d userId page :
  let newTracks := map (trackInput userId) page in
  let existingTracks :=
    map Track.spotifyId
      (filter (fun t => (Track.userId t =? userId)
                        && Lodash.includes (Track.spotifyId t)
                             (map TrackCreateInput.spotifyId newTracks))
              (Db.tracks d)) in
  Lodash.differenceBy newTracks existingTracks TrackCreateInput.spotifyId
    (fun spotifyId => spotifyId) =
  map (trackInput userId)
    (filter (fun item => negb (storedFor d userId (Api.Track.id (Api.Item.track item))))
       page).
Proof.
  cbn zeta. unfold Lodash.differenceBy. rewrite filter_map_swap. f_equal.
  apply filter_ext_in. intros item Hitem. f_equal.
  rewrite map_id. cbn [trackInput TrackCreateInput.spotifyId].
  apply Bool.eq_iff_eq_true. rewrite includes_In, in_map_iff.
  unfold storedFor. rewrite existsb_exists. split.
  - intros (t & Hid & Ht). apply filter_In in Ht as [Ht Hq].
    apply andb_true_iff in Hq as [Hu _].
    exists t. split; [exact Ht |]. rewrite Hu, Hid, String.eqb_refl. reflexivity.
  - intros (t & Ht & Hq). apply andb_true_iff in Hq as [Hu Hs].
    apply String.eqb_eq in Hs. exists t. split; [exact Hs |].
    apply filter_In. split; [exact Ht |]. rewrite Hu. cbn.
    apply includes_In. rewrite Hs, map_map. cbn.
    apply (in_map (fun x => Api.Track.id (Api.Item.track x))). exact Hitem.
Qed.

Lemma TracksResponse_parse_Return body w items w' :
  TracksResponse_parse body w = (Return items, w') -> body = JTracks items /\ w' = w.
Proof.
  destruct body; cbn; intro H; try discriminate.
  injection H as <- <-. split; reflexivity.
Qed.

Lemma quiet_userId w w' : quiet w w' -> User.id (World.user w') = User.id (World.user w).
Proof. intros (_ & _ & (H & _) & _). symmetry. exact H. Qed.

(** What a completed turn of the loop has done: one page was fetched; the
    albums of the page that were not stored are; the artists that were
    not stored were looked up and are stored; the tracks the user had not
    stored are, and their number is returned. *)
Lemma syncPage_Return offset limit w missing w' :
  syncPage offset limit w = (Return missing, w') ->
  let page := pageOf w offset limit in
  let userId := User.id (World.user w) in
  exists albums w1 newArtists rows,
    albumInputs page = Return albums
    /\ quiet w w1
    /\ storeOnly w1 w'
    /\ pageFetches w' = S (pageFetches w)
    /\ missing = List.length (filter (isNew w) page)
    /\ map Api.Artist.id newArtists =
         Lodash.difference (Lodash.uniq (flat_map artistIdsOf page))
           (filter (fun id => Lodash.includes id (Lodash.uniq (flat_map artistIdsOf page)))
              (map Artist.id (Db.artists (World.db w))))
    /\ Db.albums (World.db w') =
         Db.albums (World.db w)
         ++ Prisma.newAlbums (World.clock w) (map Album.id (Db.albums (World.db w)))
              albums
    /\ Db.artists (World.db w') =
         Db.artists (World.db w) ++ map (Prisma.artistRow (World.clock w)) newArtists
    /\ Db.tracks (World.db w') = Db.tracks (World.db w) ++ rows
    /\ map Track.spotifyId rows =
         map (fun item => Api.Track.id (Api.Item.track item)) (filter (isNew w) page)
    /\ Forall (fun row => Track.userId row = userId) rows
    /\ Db.users (World.db w') = Db.users (World.db w1)
    /\ Db.labels (World.db w') = Db.labels (World.db w)
    /\ Db.playlists (World.db w') = Db.playlists (World.db w)
    /\ World.writes w' =
         World.writes w1
         ++ map (fun a => AlbumCreated (Album.id a))
              (Prisma.newAlbums (World.clock w) (map Album.id (Db.albums (World.db w)))
                 albums)
         ++ map ArtistCreated (map Api.Artist.id newArtists)
         ++ map TrackCreated (map Track.spotifyId rows)
    /\ forallb Prisma.validAlbum albums = true.
Proof.
  intro H. cbn zeta. unfold syncPage in H.
  apply bind_Return in H as (body & wa & Hfetch & H).
  apply bind_Return in H as (tracks & wb & Hparse & H).
  apply TracksResponse_parse_Return in Hparse as [-> ->].
  apply spotifyFetch_page in Hfetch as (Hbody & Hqa & Hpa).
  injection Hbody as ->.
  apply bind_Return in H as (albums & wb & Hinputs & H).
  unfold lift in Hinputs. injection Hinputs as Hinputs <-.
  apply bind_Return in H as (existing & wb & Hfind & H).
  unfold Prisma.artist_findMany_in in Hfind. injection Hfind as <- <-.
  apply bind_Return in H as (newArtists & wc & Hlookup & H).
  match type of Hlookup with
  | lookupArtists ?ids _ = _ =>
      pose proof (lookupArtists_quiet ids wa) as Hqc;
      pose proof (lookupArtists_samePages ids wa) as Hpc
  end.
  rewrite Hlookup in Hqc, Hpc. cbn [snd] in Hqc, Hpc.
  apply lookupArtists_ids in Hlookup.
  apply bind_Return in H as (created & wd & Halbums & H).
  pose proof (album_createMany_valid _ _ _ _ Halbums) as Hvalid.
  apply album_createMany_Return in Halbums as (_ & Sd & Ad & Ud & Rd & Td & Ld & Pd & Wd).
  apply bind_Return in H as (created' & we & Hartists & H).
  apply artist_createMany_Return in Hartists as (Se & Re & Ue & Ae & Te & Le & Pe & We).
  apply bind_Return in H as (user & wf & Huser & H).
  unfold theUser in Huser. injection Huser as <- <-.
  apply bind_Return in H as (existingTracks & wf & Htracks & H).
  unfold Prisma.track_findMany_in in Htracks. injection Htracks as <- <-.
  rewrite missing_are_new in H.
  apply bind_Return in H as (done & wg & Hcreate & H).
  injection H as <- <-.
  apply tracks_created in Hcreate as (Sg & (rows & Tg & Tids & Tusers) & Ug & Ag & Rg & Lg & Pg & Wg).
  pose proof (quiet_trans _ _ _ Hqa Hqc) as Hq.
  assert (Hid : User.id (World.user we) = User.id (World.user w)).
  { destruct Se as (_ & _ & -> & _). destruct Sd as (_ & _ & -> & _).
    apply quiet_userId. exact Hq. }
  destruct Hq as (Qclock & Qenv & Quser & Qservice & Qalbums & Qartists & Qtracks
                  & Qlabels & Qplaylists & Qusers & Qwrites) eqn:Hq'.
  assert (Hnew : filter (fun item =>
                   negb (storedFor (World.db we) (User.id (World.user we))
                           (Api.Track.id (Api.Item.track item))))
                   (pageOf w offset limit)
                 = filter (isNew w) (pageOf w offset limit)).
  { apply filter_ext. intro item. unfold isNew, storedFor.
    rewrite Hid, Te, Td, Qtracks. reflexivity. }
  rewrite Hnew in *.
  assert (Hclock : World.clock wc = World.clock w) by exact Qclock.
  assert (Hclockd : World.clock wd = World.clock w)
    by (destruct Sd as (-> & _); exact Hclock).
  exists albums, wc, newArtists, rows.
  repeat match goal with |- _ /\ _ => split end.
  - exact Hinputs.
  - unfold quiet. repeat match goal with |- _ /\ _ => split end; assumption.
  - eapply storeOnly_trans; [exact Sd |]. eapply storeOnly_trans; eassumption.
  - apply storeOnly_samePages in Sd, Se, Sg. unfold samePages in *. congruence.
  - rewrite length_map. reflexivity.
  - rewrite Hlookup. destruct Hqa as (_ & _ & _ & _ & _ & -> & _). reflexivity.
  - rewrite Ag, Ae, Ad, Hclock, Qalbums. reflexivity.
  - rewrite Rg, Re, Rd, Hclockd, Qartists. reflexivity.
  - rewrite Tg, Te, Td, Qtracks. reflexivity.
  - rewrite Tids, map_map. reflexivity.
  - rewrite <- Hid. clear - Tusers.
    revert Tusers. generalize (filter (isNew w) (pageOf w offset limit)) as items.
    induction rows as [| row rows IH]; intros items H; [constructor |].
    destruct items as [| item items]; [discriminate |].
    cbn in H. injection H as H1 H2. constructor; [exact H1 | eapply IH; exact H2].
  - congruence.
  - congruence.
  - congruence.
  - rewrite Wg, We, Wd, Hclock, Qalbums, Tids, !map_map, <- !app_assoc. reflexivity.
  - exact Hvalid.
Qed.

(** ** A page that is already stored *)

Lemma syncPage_storePage offset limit :
  syncPage offset limit =
    (body <- spotifyFetch (Request.get (MeTracks offset limit)) ;;
     tracks <- TracksResponse_parse body ;;
     storePage tracks).
Proof. reflexivity. Qed.

Lemma hasAlbum_In d id : Prisma.hasAlbum d id = true <-> In id (map Album.id (Db.albums d)).
Proof.
  unfold Prisma.hasAlbum. rewrite existsb_exists, in_map_iff. split.
  - intros (a & Ha & E). apply String.eqb_eq in E. exists a. split; assumption.
  - intros (a & E & Ha). exists a. split; [exact Ha | apply String.eqb_eq; exact E].
Qed.

Lemma hasArtist_In d id :
  Prisma.hasArtist d id = true <-> In id (map Artist.id (Db.artists d)).
Proof.
  unfold Prisma.hasArtist. rewrite existsb_exists, in_map_iff. split.
  - intros (a & Ha & E). apply String.eqb_eq in E. exists a. split; assumption.
  - intros (a & E & Ha). exists a. split; [exact Ha | apply String.eqb_eq; exact E].
Qed.

Lemma difference_nothing xs ys :
  (forall x, In x xs -> In x ys) -> Lodash.difference xs ys = [].
Proof.
  intro H. unfold Lodash.difference.
  induction xs as [| x xs IH]; [reflexivity |].
  cbn. assert (Hx : Lodash.includes x ys = true) by (apply includes_In, H; left; reflexivity).
  rewrite Hx. cbn. apply IH. intros y Hy. apply H. right. exact Hy.
Qed.

Lemma filter_nothing {A} (p : A -> bool) l :
  (forall x, In x l -> p x = false) -> filter p l = [].
Proof.
  induction l as [| x l IH]; intro H; [reflexivity |].
  cbn. rewrite (H x) by (left; reflexivity). apply IH. intros y Hy. apply H. right. exact Hy.
Qed.

(** Storing a page whose tracks, albums and artists are all in the store
    already: however it ends, no artist is looked up and no row is
    written, and when it completes no track is reported missing. *)
Lemma storePage_settled page w :
  settled w page ->
  exists out w',
    storePage page w = (out, w')
    /\ quiet w w'
    /\ World.requests w' = World.requests w
    /\ World.db w' = World.db w
    /\ World.writes w' = World.writes w
    /\ out <> Unfinished
    /\ (forall missing, out = Return missing -> missing = 0).
Proof.
  intro Hs.
  assert (Hidle : forall e : Exn,
            exists out w',
              (@Throw nat e, w) = (out, w')
              /\ quiet w w'
              /\ World.requests w' = World.requests w
              /\ World.db w' = World.db w
              /\ World.writes w' = World.writes w
              /\ out <> Unfinished
              /\ (forall missing, out = Return missing -> missing = 0)).
  { intro e. exists (Throw e), w. split; [reflexivity |].
    split; [apply quiet_refl |]. repeat split; discriminate. }
  unfold storePage. unfold bind at 1. unfold lift.
  pose proof (albumInputs_finishes page) as Hfin.
  destruct (albumInputs page) as [albums | e |] eqn:Hinputs;
    [| apply Hidle | contradiction].
  assert (Hartists : Lodash.difference (Lodash.uniq (flat_map artistIdsOf page))
            (filter (fun id => Lodash.includes id (Lodash.uniq (flat_map artistIdsOf page)))
               (map Artist.id (Db.artists (World.db w)))) = []).
  { apply difference_nothing. intros id Hid. apply filter_In. split.
    - apply (proj1 (uniq_In _ _)) in Hid.
      apply in_flat_map in Hid as (item & Hitem & Hin).
      apply hasArtist_In. destruct (Hs item Hitem) as (_ & _ & Ha). apply Ha. exact Hin.
    - apply includes_In. exact Hid. }
  assert (Halbums : Prisma.newAlbums (World.clock w) (map Album.id (Db.albums (World.db w)))
                      albums = []).
  { apply newAlbums_nothing. intros a Ha.
    destruct (albumInputs_ids _ _ _ Hinputs Ha) as (item & Hitem & Hinput).
    rewrite (albumInput_id _ _ Hinput).
    apply hasAlbum_In. destruct (Hs item Hitem) as (_ & Hb & _). exact Hb. }
  assert (Hmissing : filter (fun item =>
                       negb (storedFor (World.db w) (User.id (World.user w))
                               (Api.Track.id (Api.Item.track item)))) page = []).
  { apply filter_nothing. intros item Hitem.
    destruct (Hs item Hitem) as (Ht & _). rewrite Ht. reflexivity. }
  unfold bind at 1. unfold Prisma.artist_findMany_in at 1. cbn beta iota.
  rewrite Hartists.
  unfold bind at 1. change (lookupArtists [] w) with (Return (@nil Api.Artist.t), w).
  cbn beta iota.
  unfold bind at 1. unfold Prisma.album_createMany_skipDuplicates at 1.
  cbn beta iota zeta. rewrite Halbums.
  destruct (forallb Prisma.validAlbum albums); [| cbn beta iota; apply Hidle].
  cbn beta iota.
  unfold bind at 1. unfold Prisma.artist_createMany at 1. cbn beta iota zeta.
  cbn [map Prisma.distinct forallb andb].
  unfold bind at 1. unfold theUser at 1. cbn beta iota.
  unfold bind at 1. unfold Prisma.track_findMany_in at 1. cbn beta iota.
  rewrite missing_are_new.
  cbn [World.db World.user World.setDb].
  match goal with
  | |- context [filter ?p page] =>
      replace (filter p page) with (@nil Api.Item.t)
        by (symmetry; rewrite <- Hmissing; apply filter_ext; intro; reflexivity)
  end.
  cbn.
  eexists. eexists. split; [reflexivity |]. split; [| split; [reflexivity |]].
  - unfold quiet. cbn. rewrite !app_nil_r.
    repeat match goal with |- _ /\ _ => split end;
      try reflexivity; try apply sameButToken_refl; apply sameService_refl.
  - cbn. rewrite !app_nil_r. destruct (World.db w). cbn.
    repeat split; try reflexivity; try discriminate.
    intros missing H. injection H as <-. reflexivity.
Qed.

(** ** The store only grows *)

Lemma storedFor_grows d d' userId spotifyId more :
  Db.tracks d' = Db.tracks d ++ more ->
  storedFor d userId spotifyId = true -> storedFor d' userId spotifyId = true.
Proof.
  unfold storedFor. intros -> H. rewrite existsb_app, H. reflexivity.
Qed.

Lemma settled_grown w w' page : grown w w' -> settled w page -> settled w' page.
Proof.
  intros (_ & _ & (Hid & _) & _ & [ma Ha] & [mr Hr] & [mt Ht] & _) Hs item Hitem.
  destruct (Hs item Hitem) as (Htrack & Halbum & Hartists).
  rewrite <- Hid. split; [| split].
  - eapply storedFor_grows; eassumption.
  - apply hasAlbum_In. rewrite Ha, map_app. apply in_or_app. left.
    apply hasAlbum_In. exact Halbum.
  - intros id Hin. apply hasArtist_In. rewrite Hr, map_app. apply in_or_app. left.
    apply hasArtist_In. apply Hartists. exact Hin.
Qed.

Lemma syncPage_Return_grown offset limit w missing w' :
  syncPage offset limit w = (Return missing, w') -> grown w w'.
Proof.
  intro H. apply syncPage_Return in H
    as (albums & w1 & newArtists & rows & _ & Hq & Hs & _ & _ & _ & Ha & Hr & Ht & _ & _
        & Hu & Hl & Hp & _).
  destruct Hq as (Qclock & Qenv & Quser & Qservice & _ & _ & _ & _ & _ & Qusers & _).
  destruct Hs as (Sclock & Senv & Suser & Sspotify & _).
  unfold grown. repeat match goal with |- _ /\ _ => split end; try congruence.
  - eexists. exact Ha.
  - eexists. exact Hr.
  - eexists. exact Ht.
Qed.

Lemma syncLoop_Return_grown turns offset limit w w' :
  syncLoop turns offset limit w = (Return tt, w') -> grown w w'.
Proof.
  revert offset limit w. induction turns as [| turns IH]; intros offset limit w H;
    [discriminate |].
  cbn [syncLoop] in H. apply bind_Return in H as (missing & w1 & Hpage & H).
  apply syncPage_Return_grown in Hpage.
  destruct (missing =? limit).
  - eapply grown_trans; [exact Hpage | eapply IH; exact H].
  - injection H as <-. exact Hpage.
Qed.

(** After a completed turn everything the page refers to is stored. *)
Lemma syncPage_settles offset limit w missing w' :
  syncPage offset limit w = (Return missing, w') ->
  settled w' (pageOf w offset limit).
Proof.
  intro H. pose proof (syncPage_Return_grown _ _ _ _ _ H) as Hg.
  apply syncPage_Return in H
    as (albums & w1 & newArtists & rows & Hinputs & Hq & Hs & _ & _ & Hnew & Ha & Hr & Ht
        & Hids & Husers & _).
  destruct Hg as (_ & _ & (Hid & _) & _).
  intros item Hitem. rewrite <- Hid. split; [| split].
  - unfold storedFor. rewrite Ht, existsb_app.
    destruct (isNew w item) eqn:Enew.
    + apply orb_true_iff. right. apply existsb_exists.
      assert (Hin : In (Api.Track.id (Api.Item.track item)) (map Track.spotifyId rows)).
      { rewrite Hids.
        apply (in_map (fun i => Api.Track.id (Api.Item.track i))).
        apply filter_In. split; assumption. }
      apply in_map_iff in Hin as (row & Hrow & Hin).
      exists row. split; [exact Hin |].
      rewrite Forall_forall in Husers. rewrite (Husers row Hin), Nat.eqb_refl, Hrow.
      apply String.eqb_refl.
    + unfold isNew, storedFor in Enew. apply negb_false_iff in Enew.
      rewrite Enew. reflexivity.
  - apply hasAlbum_In. rewrite Ha, map_app. apply in_app_iff.
    pose proof (albumInputs_covers _ _ _ Hinputs Hitem) as Hin.
    apply in_map_iff in Hin as (a & Hkey & Hin).
    rewrite <- Hkey.
    eapply newAlbums_covers. exact Hin.
  - intros id Hin. apply hasArtist_In. rewrite Hr, map_app, map_map. cbn.
    change (map (fun x => Api.Artist.id x) newArtists) with (map Api.Artist.id newArtists).
    rewrite Hnew. apply in_app_iff.
    assert (Hu : In id (Lodash.uniq (flat_map artistIdsOf (pageOf w offset limit)))).
    { apply uniq_In. apply in_flat_map. exists item. split; assumption. }
    destruct (in_dec string_dec id (map Artist.id (Db.artists (World.db w)))) as [Hold | Hnot].
    + left. exact Hold.
    + right. apply filter_In. split; [exact Hu |].
      apply negb_true_iff. apply includes_false. intro Hf.
      apply filter_In in Hf as [Hf _]. contradiction.
Qed.

Lemma sendAuthorized_store req w :
  World.db (snd (sendAuthorized req w)) = World.db w
  /\ World.writes (snd (sendAuthorized req w)) = World.writes w.
Proof.
  unfold sendAuthorized, bind, theUser, log, fetch. cbn.
  destruct (Remote.serve _ _) as [res remote]. cbn.
  destruct (Response.ok res); split; reflexivity.
Qed.

Lemma spotifyFetch_finishes req w : fst (spotifyFetch req w) <> Unfinished.
Proof.
  rewrite spotifyFetch_split.
  assert (Hsend : forall w0, fst (sendAuthorized req w0) <> Unfinished).
  { intro w0. unfold sendAuthorized, bind, theUser, log, fetch. cbn.
    destruct (Remote.serve _ _) as [res remote]. cbn.
    destruct (Response.ok res); cbn; discriminate. }
  destruct (expired w); [| apply Hsend].
  rewrite refreshAccessToken_cases. cbn zeta.
  destruct (granted _); [| discriminate].
  destruct (Js.validDate _) eqn:Hvalid; [| discriminate].
  destruct (Prisma.hasUser _ _) eqn:Hu; [| discriminate].
  rewrite user_update_done by assumption.
  unfold Object_assign. apply Hsend.
Qed.

(** A turn on a page that is stored already: however it ends, it leaves
    the store as it was, save for a refreshed token, and it does not ask
    for another page. *)
Lemma syncPage_settled offset limit w :
  settled w (pageOf w offset limit) ->
  quiet w (snd (syncPage offset limit w))
  /\ fst (syncPage offset limit w) <> Unfinished
  /\ (forall missing, fst (syncPage offset limit w) = Return missing -> missing = 0)
  /\ (expired w = false ->
      World.db (snd (syncPage offset limit w)) = World.db w
      /\ World.writes (snd (syncPage offset limit w)) = World.writes w).
Proof.
  intro Hs.
  pose proof (spotifyFetch_quiet (Request.get (MeTracks offset limit)) w) as Hq.
  pose proof (spotifyFetch_finishes (Request.get (MeTracks offset limit)) w) as Hfin.
  assert (Hvalid : expired w = false ->
            World.db (snd (spotifyFetch (Request.get (MeTracks offset limit)) w))
              = World.db w
            /\ World.writes (snd (spotifyFetch (Request.get (MeTracks offset limit)) w))
                = World.writes w).
  { intro Hv. rewrite spotifyFetch_split, Hv. apply sendAuthorized_store. }
  destruct (syncPage offset limit w) as [out w2] eqn:Hrun. cbn [fst snd].
  rewrite syncPage_storePage in Hrun. unfold bind at 1 in Hrun.
  destruct (spotifyFetch _ w) as [[body | e |] w1] eqn:Hfetch; cbn [fst snd] in *.
  - apply spotifyFetch_page in Hfetch as (-> & _ & _).
    unfold bind at 1 in Hrun. cbn [TracksResponse_parse ret] in Hrun.
    assert (Hs1 : settled w1 (pageOf w offset limit))
      by (eapply settled_grown; [apply quiet_grown; exact Hq | exact Hs]).
    destruct (storePage_settled _ _ Hs1)
      as (out' & w' & Hstore & Hq' & _ & Hdb & Hwrites & Hfin' & Hzero).
    rewrite Hstore in Hrun. injection Hrun as <- <-.
    split; [eapply quiet_trans; eassumption |].
    split; [exact Hfin' |].
    split; [exact Hzero |].
    intro Hv. destruct (Hvalid Hv) as [Hd Hw]. split; congruence.
  - injection Hrun as <- <-.
    split; [exact Hq |]. split; [discriminate |].
    split; [intros missing H; discriminate H | exact Hvalid].
  - contradiction.
Qed.

(** ** The pull as a whole *)

Lemma grown_pageOf w w' offset limit :
  grown w w' -> pageOf w' offset limit = pageOf w offset limit.
Proof.
  intros (_ & _ & _ & (_ & Hs & _) & _). unfold pageOf. rewrite Hs. reflexivity.
Qed.

(** After a completed pull, the first window of the feed is stored. *)
Lemma syncFavoriteTracks_settles turns w w' :
  syncFavoriteTracks turns w = (Return tt, w') -> settled w' (pageOf w' 0 5).
Proof.
  intro H. pose proof (syncLoop_Return_grown _ _ _ _ _ H) as Hg.
  rewrite (grown_pageOf _ _ _ _ Hg).
  destruct turns as [| turns]; [discriminate |].
  unfold syncFavoriteTracks in H. cbn [syncLoop] in H.
  apply bind_Return in H as (missing & w1 & Hpage & H).
  pose proof (syncPage_settles _ _ _ _ _ Hpage) as Hs.
  destruct (missing =? 5).
  - eapply settled_grown; [eapply syncLoop_Return_grown; exact H | exact Hs].
  - injection H as <-. exact Hs.
Qed.

(** C6.  A pull that follows a completed pull, against the same feed,
    leaves the [Album], [Artist] and [Track] tables as they are and writes
    no row to them, however it ends; and it ends within its first turn.
    When the access token is still good, it leaves the whole store as it
    is and writes no row at all. *)
Theorem second_pull_writes_nothing turns turns' w w1 :
  syncFavoriteTracks turns w = (Return tt, w1) ->
  let second := syncFavoriteTracks turns' w1 in
  Db.albums (World.db (snd second)) = Db.albums (World.db w1)
  /\ Db.artists (World.db (snd second)) = Db.artists (World.db w1)
  /\ Db.tracks (World.db (snd second)) = Db.tracks (World.db w1)
  /\ catalogWrites (World.writes (snd second)) = catalogWrites (World.writes w1)
  /\ (expired w1 = false ->
      World.db (snd second) = World.db w1
      /\ World.writes (snd second) = World.writes w1)
  /\ (0 < turns' -> fst second <> Unfinished).
Proof.
  intro H. apply syncFavoriteTracks_settles in H. cbn zeta.
  destruct turns' as [| turns'].
  - cbn. repeat split; try reflexivity. lia.
  - unfold syncFavoriteTracks. cbn [syncLoop]. unfold bind.
    destruct (syncPage_settled 0 5 w1 H) as (Hq & Hfin & Hzero & Hvalid).
    destruct (syncPage 0 5 w1) as [[missing | e |] w2]; cbn [fst snd] in *.
    + rewrite (Hzero missing eq_refl). cbn.
      destruct Hq as (_ & _ & _ & _ & Ha & Hr & Ht & _ & _ & _ & Hw).
      repeat split; try assumption; try (apply Hvalid; assumption). discriminate.
    + destruct Hq as (_ & _ & _ & _ & Ha & Hr & Ht & _ & _ & _ & Hw).
      repeat split; try assumption; try (apply Hvalid; assumption). discriminate.
    + contradiction.
Qed.

Lemma second_pull_writes_nothing_witness :
  let w1 := snd (syncFavoriteTracks 3 (firstPull 8)) in
  List.length (catalogWrites (World.writes w1)) = 15
  /\ catalogWrites (World.writes (snd (syncFavoriteTracks 3 w1)))
     = catalogWrites (World.writes w1)
  /\ Db.tracks (World.db (snd (syncFavoriteTracks 3 w1))) = Db.tracks (World.db w1)
  /\ World.writes (snd (syncFavoriteTracks 3 w1)) = World.writes w1.
Proof.
  cbn zeta. split; [vm_compute; reflexivity |].
  assert (H : syncFavoriteTracks 3 (firstPull 8)
              = (Return tt, snd (syncFavoriteTracks 3 (firstPull 8))))
    by (vm_compute; reflexivity).
  destruct (second_pull_writes_nothing 3 3 _ _ H) as (_ & _ & Ht & Hw & Hvalid & _).
  split; [exact Hw |]. split; [exact Ht |].
  apply Hvalid. vm_compute. reflexivity.
Defined.

(** ** The loop ends *)

Lemma finishes_bind {A B} (m : M A) (k : A -> M B) :
  finishes m -> (forall a, finishes (k a)) -> finishes (bind m k).
Proof.
  intros Hm Hk w. unfold bind. specialize (Hm w).
  destruct (m w) as [[a | e |] w1]; cbn in *.
  - apply Hk.
  - discriminate.
  - contradiction.
Qed.

Lemma finishes_ret {A} (a : A) : finishes (ret a).
Proof. intro w. discriminate. Qed.

Lemma finishes_promiseAll {A B} (xs : list A) (f : A -> M B) :
  (forall x, finishes (f x)) -> finishes (promiseAll xs f).
Proof.
  intro Hf. induction xs as [| x xs IH]; cbn.
  - apply finishes_ret.
  - apply finishes_bind; [apply Hf | intro].
    apply finishes_bind; [exact IH | intro; apply finishes_ret].
Qed.

Lemma lookupArtists_finishes ids : finishes (lookupArtists ids).
Proof.
  unfold lookupArtists. generalize (@nil Api.Artist.t) as acc.
  induction (Lodash.chunk ids 50) as [| c chunks IH]; intro acc; cbn.
  - apply finishes_ret.
  - apply finishes_bind; [intro w; apply spotifyFetch_finishes | intro body].
    apply finishes_bind; [| intro; apply IH].
    intro w. unfold ArtistsResponse_parse.
    destruct body; try discriminate. destruct (allPresent artists); discriminate.
Qed.

Lemma syncPage_finishes offset limit : finishes (syncPage offset limit).
Proof.
  unfold syncPage.
  apply finishes_bind; [intro w; apply spotifyFetch_finishes | intro body].
  apply finishes_bind; [intro w; destruct body; discriminate | intro tracks].
  apply finishes_bind; [intro w; apply albumInputs_finishes | intro albums].
  apply finishes_bind; [intro w; discriminate | intro existing].
  apply finishes_bind; [apply lookupArtists_finishes | intro newArtists].
  apply finishes_bind.
  { intro w. unfold Prisma.album_createMany_skipDuplicates.
    destruct (forallb _ _); discriminate. }
  intro. apply finishes_bind.
  { intro w. unfold Prisma.artist_createMany. destruct (_ && _); discriminate. }
  intro. apply finishes_bind; [intro w; discriminate | intro user].
  apply finishes_bind; [intro w; discriminate | intro existingTracks].
  apply finishes_bind; [| intro; apply finishes_ret].
  apply finishes_promiseAll. intros data w. unfold Prisma.track_create.
  destruct (negb _); [discriminate |]. destruct (Prisma.hasTrack _ _); discriminate.
Qed.

(** The loop of the pull ends within as many turns as the feed is long,
    and one more. *)
Lemma syncLoop_finishes turns offset limit w :
  0 < limit ->
  List.length (Remote.savedTracks (World.spotify w)) - offset < turns ->
  fst (syncLoop turns offset limit w) <> Unfinished.
Proof.
  revert offset limit w. induction turns as [| turns IH]; intros offset limit w Hlimit Hturns;
    [lia |].
  cbn [syncLoop]. unfold bind.
  pose proof (syncPage_finishes offset limit w) as Hfin.
  destruct (syncPage offset limit w) as [[missing | e |] w1] eqn:Hpage; cbn [fst] in *.
  - destruct (missing =? limit) eqn:E; [| discriminate].
    apply Nat.eqb_eq in E.
    pose proof (syncPage_Return_grown _ _ _ _ _ Hpage) as (_ & _ & _ & (_ & Hfeed & _) & _).
    apply syncPage_Return in Hpage as (_ & _ & _ & _ & _ & _ & _ & _ & Hmissing & _).
    pose proof (filter_length_le (isNew w) (pageOf w offset limit)) as Hle.
    unfold pageOf in Hle. rewrite length_firstn, length_skipn in Hle.
    unfold pageOf in Hmissing.
    apply IH; [lia |]. rewrite Hfeed. lia.
  - discriminate.
  - contradiction.
Qed.

Lemma syncFavoriteTracks_finishes turns w :
  List.length (Remote.savedTracks (World.spotify w)) < turns ->
  fst (syncFavoriteTracks turns w) <> Unfinished.
Proof.
  intro H. apply syncLoop_finishes; lia.
Qed.

(** ** The decision of the loop *)

Lemma filter_all {A} (p : A -> bool) l : forallb p l = true -> filter p l = l.
Proof.
  induction l as [| x l IH]; [reflexivity |].
  cbn. intro H. apply andb_true_iff in H as [Hx Hl]. rewrite Hx, IH by exact Hl.
  reflexivity.
Qed.

Lemma filter_some_out {A} (p : A -> bool) l :
  forallb p l = false -> List.length (filter p l) < List.length l.
Proof.
  induction l as [| x l IH]; [discriminate |].
  cbn. destruct (p x); cbn.
  - intro H. apply IH in H. lia.
  - intros _. pose proof (filter_length_le p l). lia.
Qed.

Lemma pageOf_length w offset limit : List.length (pageOf w offset limit) <= limit.
Proof. unfold pageOf. apply firstn_le_length. Qed.

Lemma isNew_grown w w' page :
  grown w w' -> forallb (isNew w) page = false -> forallb (isNew w') page = false.
Proof.
  intros (_ & _ & (Hid & _) & _ & _ & _ & [more Ht] & _) H.
  induction page as [| item page IH]; [discriminate |].
  cbn in *. apply andb_false_iff in H as [H | H].
  - unfold isNew in *. apply negb_false_iff in H.
    rewrite <- Hid, (storedFor_grows _ _ _ _ _ Ht H). reflexivity.
  - rewrite (IH H). apply andb_false_r.
Qed.

(** C4, as amended.  After a completed turn the loop goes on exactly when
    the page was full (as many tracks as the limit) and every track of it
    was new; it then asks for the window that starts behind this page,
    with limit 25.  When a track of the page was stored already, or the
    page came back shorter than the limit, the loop ends.  So a pull whose
    first page holds five new tracks and whose next page holds a track
    that is stored fetches two pages. *)
Theorem pull_goes_on_after_full_page_of_new_tracks :
  (forall turns offset limit w missing w1,
      syncPage offset limit w = (Return missing, w1) ->
      let page := pageOf w offset limit in
      List.length page <= limit
      /\ (List.length page = limit -> forallb (isNew w) page = true ->
          syncLoop (S turns) offset limit w =
            syncLoop turns (offset + List.length page) 25 w1)
      /\ (List.length page < limit \/ forallb (isNew w) page = false ->
          syncLoop (S turns) offset limit w = (Return tt, w1)))
  /\ (forall turns w w',
        syncFavoriteTracks turns w = (Return tt, w') ->
        List.length (pageOf w 0 5) = 5 ->
        forallb (isNew w) (pageOf w 0 5) = true ->
        forallb (isNew w) (pageOf w 5 25) = false ->
        pageFetches w' = pageFetches w + 2).
Proof.
  assert (Hstep : forall turns offset limit w missing w1,
             syncPage offset limit w = (Return missing, w1) ->
             syncLoop (S turns) offset limit w =
               if List.length (filter (isNew w) (pageOf w offset limit)) =? limit
               then syncLoop turns (offset + limit) 25 w1
               else (Return tt, w1)).
  { intros turns offset limit w missing w1 H. cbn [syncLoop]. unfold bind. rewrite H.
    apply syncPage_Return in H as (_ & _ & _ & _ & _ & _ & _ & _ & -> & _).
    destruct (_ =? limit); reflexivity. }
  split.
  - intros turns offset limit w missing w1 H. cbn zeta.
    rewrite (Hstep turns _ _ _ _ _ H).
    split; [apply pageOf_length |]. split.
    + intros Hfull Hnew. rewrite (filter_all _ _ Hnew), Hfull, Nat.eqb_refl. reflexivity.
    + intros [Hshort | Hknown].
      * pose proof (filter_length_le (isNew w) (pageOf w offset limit)) as Hle.
        replace (_ =? limit) with false by (symmetry; apply Nat.eqb_neq; lia).
        reflexivity.
      * apply filter_some_out in Hknown.
        pose proof (pageOf_length w offset limit) as Hle.
        replace (_ =? limit) with false by (symmetry; apply Nat.eqb_neq; lia).
        reflexivity.
  - intros turns w w' H Hfull Hnew Hknown.
    destruct turns as [| turns]; [discriminate |].
    unfold syncFavoriteTracks in H.
    pose proof H as H'. cbn [syncLoop] in H'.
    apply bind_Return in H' as (missing & w1 & Hpage & _).
    rewrite (Hstep turns _ _ _ _ _ Hpage) in H.
    rewrite (filter_all _ _ Hnew), Hfull in H. cbn [Nat.eqb Nat.add] in H.
    destruct turns as [| turns]; [discriminate |].
    pose proof H as H'. cbn [syncLoop] in H'.
    apply bind_Return in H' as (missing2 & w2 & Hpage2 & _).
    rewrite (Hstep turns _ _ _ _ _ Hpage2) in H.
    pose proof (syncPage_Return_grown _ _ _ _ _ Hpage) as Hg.
    rewrite (grown_pageOf _ _ _ _ Hg) in H.
    apply (isNew_grown _ _ _ Hg) in Hknown. apply filter_some_out in Hknown.
    pose proof (pageOf_length w 5 25) as Hle.
    replace (_ =? 25) with false in H by (symmetry; apply Nat.eqb_neq; lia).
    injection H as <-.
    apply syncPage_Return in Hpage as (_ & _ & _ & _ & _ & _ & _ & Hone & _).
    apply syncPage_Return in Hpage2 as (_ & _ & _ & _ & _ & _ & _ & Htwo & _).
    lia.
Qed.

Lemma pull_goes_on_after_full_page_of_new_tracks_witness :
  pageFetches (snd (syncFavoriteTracks 3 laterPull)) = 2
  /\ syncLoop 3 0 5 (firstPull 8) = syncLoop 2 5 25 (snd (syncPage 0 5 (firstPull 8))).
Proof.
  split.
  - apply (proj2 pull_goes_on_after_full_page_of_new_tracks 3 laterPull
             (snd (syncFavoriteTracks 3 laterPull)));
      vm_compute; reflexivity.
  - apply (proj1 (proj2 (proj1 pull_goes_on_after_full_page_of_new_tracks
                     2 0 5 (firstPull 8) 5 (snd (syncPage 0 5 (firstPull 8)))
                     ltac:(vm_compute; reflexivity))));
      vm_compute; reflexivity.
Defined.

(** C4, as stated, fails: a first page of three tracks, all of them new,
    ends the loop; no second window is asked for. *)
Lemma pull_ends_after_short_page_of_new_tracks :
  let after := syncFavoriteTracks 10 (firstPull 3) in
  pageOf (firstPull 3) 0 5 = Fixture.favorites 3
  /\ forallb (isNew (firstPull 3)) (pageOf (firstPull 3) 0 5) = true
  /\ fst after = Return tt
  /\ map Request.url (World.requests (snd after)) =
       [AccountsToken; MeTracks 0 5;
        ArtistsByIds ["artist-00"; "artist-01"; "artist-02"]]
  /\ pageFetches (snd after) = 1.
Proof. vm_compute. repeat split. Qed.

(** ** The criteria language *)

Section Validation.
Context {L : CriteriaLanguage}.

Lemma validate_true criteria :
  validateSmartCriteria criteria = Return true <->
  exists filter, generatePrismaFilter criteria = Return (Some filter).
Proof.
  unfold validateSmartCriteria.
  destruct (generatePrismaFilter criteria) as [[filter |] | e |]; split;
    try discriminate; try (intros [f Hf]; discriminate).
  - intros _. exists filter. reflexivity.
  - reflexivity.
Qed.

Lemma validate_false criteria :
  validateSmartCriteria criteria = Return false <->
  generatePrismaFilter criteria = Return None.
Proof.
  unfold validateSmartCriteria.
  destruct (generatePrismaFilter criteria) as [[filter |] | e |]; split;
    try discriminate; reflexivity.
Qed.

Lemma failure_is_null criteria :
  parser_parse criteria = Return ParseFailure <->
  generatePrismaFilter criteria = Return None.
Proof.
  unfold generatePrismaFilter.
  destruct (parser_parse criteria) as [[result |] | e |]; split;
    try discriminate; reflexivity.
Qed.
End Validation.

Import LabelGrammar.

Lemma idleStep_parity c ts st :
  idleStep c = Some (ts, st) -> inString st = isQuote c.
Proof.
  unfold idleStep.
  destruct (isSpace c) eqn:Es.
  { intro H. injection H as _ <-. unfold isSpace, isQuote in *.
    destruct (code c =? 34) eqn:E; [| reflexivity].
    apply Nat.eqb_eq in E. rewrite E in Es. discriminate. }
  destruct (isLetter c) eqn:El.
  { intro H. injection H as _ <-. unfold isLetter, isQuote, Js.between in *.
    destruct (code c =? 34) eqn:E; [| reflexivity].
    apply Nat.eqb_eq in E. rewrite E in El. discriminate. }
  destruct (isDigit c) eqn:Ed.
  { intro H. injection H as _ <-. unfold isDigit, isQuote, Js.between in *.
    destruct (code c =? 34) eqn:E; [| reflexivity].
    apply Nat.eqb_eq in E. rewrite E in Ed. discriminate. }
  destruct (isQuote c) eqn:Eq.
  { intro H. injection H as _ <-. reflexivity. }
  repeat match goal with
         | |- (if ?b then _ else _) = _ -> _ => destruct b
         end;
    intro H; try discriminate; injection H as _ <-; reflexivity.
Qed.

Lemma after_parity t next ts st :
  after t next = Some (ts, st) -> exists ts', next = Some (ts', st).
Proof.
  destruct next as [[ts' st'] |]; cbn; intro H; [| discriminate].
  injection H as _ <-. exists ts'. reflexivity.
Qed.

Lemma word_char_not_quote c : isLetter c || isDigit c = true -> isQuote c = false.
Proof.
  unfold isLetter, isDigit, isQuote, Js.between. intro H.
  destruct (code c =? 34) eqn:E; [| reflexivity].
  apply Nat.eqb_eq in E. rewrite E in H. discriminate.
Qed.

(** A step of the lexer enters or leaves a string literal exactly on a quote. *)
Lemma step_parity st c ts st' :
  step st c = Some (ts, st') -> inString st' = xorb (inString st) (isQuote c).
Proof.
  destruct st; cbn [step inString xorb].
  - apply idleStep_parity.
  - destruct (isLetter c || isDigit c) eqn:E.
    + intro H. injection H as _ <-. rewrite (word_char_not_quote c E). reflexivity.
    + intro H. apply after_parity in H as [ts' H]. eapply idleStep_parity. exact H.
  - destruct (isDigit c) eqn:E.
    + intro H. injection H as _ <-.
      rewrite (word_char_not_quote c) by (rewrite E; apply orb_true_r). reflexivity.
    + intro H. apply after_parity in H as [ts' H]. eapply idleStep_parity. exact H.
  - destruct (isQuote c); intro H; injection H as _ <-; reflexivity.
  - destruct (code c =? 61) eqn:E; [| discriminate].
    intro H. injection H as _ <-. unfold isQuote.
    apply Nat.eqb_eq in E. rewrite E. reflexivity.
  - destruct (code c =? 61) eqn:E.
    + intro H. injection H as _ <-. unfold isQuote.
      apply Nat.eqb_eq in E. rewrite E. reflexivity.
    + intro H. apply after_parity in H as [ts' H]. eapply idleStep_parity. exact H.
  - destruct (code c =? 61) eqn:E.
    + intro H. injection H as _ <-. unfold isQuote.
      apply Nat.eqb_eq in E. rewrite E. reflexivity.
    + intro H. apply after_parity in H as [ts' H]. eapply idleStep_parity. exact H.
Qed.

Lemma quoteCount_list cs c :
  quoteCount (string_of_list_ascii (c :: cs)) =
    (if isQuote c then 1 else 0) + quoteCount (string_of_list_ascii cs).
Proof. reflexivity. Qed.

(** The lexer accepts a text only if its quotes pair up. *)
Lemma lexFrom_parity cs st ts :
  lexFrom st cs = Some ts ->
  inString st = Nat.odd (quoteCount (string_of_list_ascii cs)).
Proof.
  revert st ts. induction cs as [| c cs IH]; intros st ts H.
  - destruct st; cbn in *; try reflexivity; discriminate.
  - cbn [lexFrom] in H.
    destruct (step st c) as [[ts1 st1] |] eqn:Hstep; [| discriminate].
    destruct (lexFrom st1 cs) as [ts2 |] eqn:Hrest; [| discriminate].
    apply step_parity in Hstep. apply IH in Hrest.
    rewrite quoteCount_list.
    destruct (isQuote c); cbn [Nat.add].
    + rewrite Nat.odd_succ, <- Nat.negb_odd, <- Hrest, Hstep.
      destruct (inString st); reflexivity.
    + rewrite <- Hrest, Hstep. destruct (inString st); reflexivity.
Qed.

Lemma tokenize_unterminated criteria :
  Nat.odd (quoteCount criteria) = true -> tokenize criteria = None.
Proof.
  intro H. unfold tokenize.
  destruct (lexFrom Idle (list_ascii_of_string criteria)) as [ts |] eqn:E; [| reflexivity].
  apply lexFrom_parity in E. rewrite string_of_list_ascii_of_string, H in E. discriminate.
Qed.

Lemma literal_bound value v : literalOf value = Some v -> bound value.
Proof. destruct value; cbn; intro H; try discriminate; exact I. Qed.

(** What the parser consumes holds no unknown identifier. *)
Lemma parser_consumes_bound fuel :
  (forall ts p rest, parseOr fuel ts = Some (p, rest) ->
     exists pre, ts = pre ++ rest /\ Forall bound pre)
  /\ (forall ts p rest, parseAnd fuel ts = Some (p, rest) ->
        exists pre, ts = pre ++ rest /\ Forall bound pre)
  /\ (forall ts p rest, parseNot fuel ts = Some (p, rest) ->
        exists pre, ts = pre ++ rest /\ Forall bound pre)
  /\ (forall ts p rest, parseAtom fuel ts = Some (p, rest) ->
        exists pre, ts = pre ++ rest /\ Forall bound pre).
Proof.
  induction fuel as [| fuel (IHor & IHand & IHnot & IHatom)].
  - repeat split; intros ts p rest H; discriminate.
  - assert (Hchain : forall (first next : list Token -> option (Predicate * list Token))
                       (sep : Token) (ts rest : list Token),
              (forall ts p rest, first ts = Some (p, rest) ->
                 exists pre, ts = pre ++ rest /\ Forall bound pre) ->
              (forall ts p rest, next ts = Some (p, rest) ->
                 exists pre, ts = pre ++ rest /\ Forall bound pre) ->
              bound sep ->
              forall l mid, first ts = Some (l, sep :: mid) ->
              forall r, next mid = Some (r, rest) ->
              exists pre, ts = pre ++ rest /\ Forall bound pre).
    { intros first next sep ts rest Hfirst Hnext Hsep l mid H1 r H2.
      apply Hfirst in H1 as (pre1 & -> & B1).
      apply Hnext in H2 as (pre2 & -> & B2).
      exists (pre1 ++ sep :: pre2). split.
      - rewrite <- app_assoc. reflexivity.
      - apply Forall_app. split; [exact B1 | constructor; assumption]. }
    repeat split; intros ts p rest H; cbn in H.
    + destruct (parseAnd fuel ts) as [[l mid] |] eqn:E; [| discriminate].
      destruct mid as [| t mid].
      { injection H as <- <-. eapply IHand. exact E. }
      destruct t; try (injection H as <- <-; eapply IHand; exact E).
      destruct (parseOr fuel mid) as [[r rest'] |] eqn:E'; [| discriminate].
      injection H as <- <-.
      eapply (Hchain (parseAnd fuel) (parseOr fuel) TOr); eauto. exact I.
    + destruct (parseNot fuel ts) as [[l mid] |] eqn:E; [| discriminate].
      destruct mid as [| t mid].
      { injection H as <- <-. eapply IHnot. exact E. }
      destruct t; try (injection H as <- <-; eapply IHnot; exact E).
      destruct (parseAnd fuel mid) as [[r rest'] |] eqn:E'; [| discriminate].
      injection H as <- <-.
      eapply (Hchain (parseNot fuel) (parseAnd fuel) TAnd); eauto. exact I.
    + destruct ts as [| t ts]; [eapply IHatom; exact H |].
      destruct t; try (eapply IHatom; exact H).
      destruct (parseNot fuel ts) as [[q rest'] |] eqn:E; [| discriminate].
      injection H as <- <-.
      apply IHnot in E as (pre & -> & B).
      exists (TNot :: pre). split; [reflexivity | constructor; [exact I | exact B]].
    + destruct ts as [| t ts]; [discriminate |].
      destruct t; try discriminate.
      * destruct (attributeOf name) as [a |] eqn:Ea; [| discriminate].
        assert (Hname : bound (TIdent name)) by (cbn; rewrite Ea; discriminate).
        assert (Hleaf : Some (AttributeRef a, ts) = Some (p, rest) ->
                        exists pre, TIdent name :: ts = pre ++ rest /\ Forall bound pre).
        { intro H0. injection H0 as <- <-. exists [TIdent name].
          split; [reflexivity | constructor; [exact Hname | constructor]]. }
        destruct ts as [| t1 ts]; [apply Hleaf; exact H |].
        destruct t1; try (apply Hleaf; exact H).
        destruct ts as [| value ts]; [apply Hleaf; exact H |].
        destruct (literalOf value) as [v |] eqn:Ev; [| discriminate].
        injection H as <- <-.
        exists [TIdent name; TOp op; value]. split; [reflexivity |].
        constructor; [exact Hname |]. constructor; [exact I |].
        constructor; [eapply literal_bound; exact Ev | constructor].
      * destruct (parseOr fuel ts) as [[q mid] |] eqn:E; [| discriminate].
        destruct mid as [| t mid]; [discriminate |].
        destruct t; try discriminate.
        injection H as <- <-.
        apply IHor in E as (pre & -> & B).
        exists (TLParen :: pre ++ [TRParen]). split.
        -- cbn. rewrite <- app_assoc. reflexivity.
        -- constructor; [exact I |]. apply Forall_app. split; [exact B |].
           constructor; [exact I | constructor].
Qed.

(** A text with an identifier that names no attribute does not parse. *)
Lemma parseTokens_unknown ts name :
  In (TIdent name) ts -> attributeOf name = None -> parseTokens ts = None.
Proof.
  intros Hin Hname. unfold parseTokens.
  destruct (parseOr _ ts) as [[p rest] |] eqn:E; [| reflexivity].
  destruct rest; [| reflexivity].
  apply (proj1 (parser_consumes_bound _)) in E as (pre & -> & B).
  rewrite app_nil_r in Hin. rewrite Forall_forall in B.
  specialize (B _ Hin). cbn in B. contradiction.
Qed.

(** C8.  [validateSmartCriteria] answers true exactly when
    [generatePrismaFilter] returns a filter, and false exactly when it
    returns null, which is what it returns exactly when the parser reports
    a failure.  For the criteria language of the specification,
    [generatePrismaFilter] returns on every text and throws on none; it
    returns null on a text with a string literal left open (an odd number
    of double quotes) and on a text with an identifier that names no
    attribute. *)
Theorem invalid_criteria_yield_null :
  (forall (L : CriteriaLanguage) criteria,
      (validateSmartCriteria criteria = Return true <->
       exists filter, generatePrismaFilter criteria = Return (Some filter))
      /\ (validateSmartCriteria criteria = Return false <->
          generatePrismaFilter criteria = Return None)
      /\ (parser_parse criteria = Return ParseFailure <->
          generatePrismaFilter criteria = Return None))
  /\ (forall criteria,
        (exists result,
            generatePrismaFilter (L := LabelGrammar.language) criteria = Return result)
        /\ (Nat.odd (quoteCount criteria) = true ->
            generatePrismaFilter (L := LabelGrammar.language) criteria = Return None)
        /\ (forall tokens name,
              tokenize criteria = Some tokens ->
              In (TIdent name) tokens ->
              attributeOf name = None ->
              generatePrismaFilter (L := LabelGrammar.language) criteria = Return None)).
Proof.
  split.
  - intros L0 criteria.
    split; [apply validate_true |]. split; [apply validate_false | apply failure_is_null].
  - intro criteria. unfold generatePrismaFilter. cbn [parser_parse language].
    unfold parse. split; [| split].
    + destruct (tokenize criteria) as [ts |]; [| eexists; reflexivity].
      destruct (parseTokens ts) as [p |]; [| eexists; reflexivity].
      destruct (wellFormed p); eexists; reflexivity.
    + intro H. rewrite (tokenize_unterminated _ H). reflexivity.
    + intros tokens name Htok Hin Hname. rewrite Htok.
      rewrite (parseTokens_unknown _ _ Hin Hname). reflexivity.
Qed.

Lemma invalid_criteria_yield_null_witness :
  generatePrismaFilter (L := LabelGrammar.language)
    ("artist = " ++ quote ++ "X")%string = Return None
  /\ generatePrismaFilter (L := LabelGrammar.language)
       ("explicit = false and tempo = 120")%string = Return None.
Proof.
  split.
  - apply (proj1 (proj2 (proj2 invalid_criteria_yield_null _))).
    vm_compute. reflexivity.
  - apply (proj2 (proj2 (proj2 invalid_criteria_yield_null _))
             [TIdent "explicit"; TOp Eq; TFalse; TAnd; TIdent "tempo"; TOp Eq; TNumber 120]
             "tempo").
    + vm_compute. reflexivity.
    + cbn. auto 10.
    + reflexivity.
Defined.

(** The example of the specification parses to a conjunction. *)
Example conjunction_example :
  generatePrismaFilter (L := LabelGrammar.language)
    ("explicit = false and artist = " ++ quote ++ "X" ++ quote)%string
  = Return (Some (Conjunction (Comparison ExplicitFlag Eq (LBool false))
                    (Comparison ArtistName Eq (LString "X")))).
Proof. reflexivity. Qed.

(* ================================================================== *)
(** * Further properties of the code *)

(** ** The API client *)

Lemma sendAuthorized_cases req w :
  let sent := authorized (User.accessToken (World.user w)) req in
  let res := fst (Remote.serve (World.spotify w) sent) in
  (Response.ok res = true /\ fst (sendAuthorized req w) = Return (Response.json res))
  \/ (Response.ok res = false
      /\ fst (sendAuthorized req w) = Throw (ResponseThrown res)
      /\ World.console (snd (sendAuthorized req w)) =
           World.console w
           ++ [InfoRequest (Request.method req) (Request.url req);
               InfoStatus (Response.status res);
               Error "Spotify API error:"; ErrorBody (Response.json res)]).
Proof.
  unfold sendAuthorized, bind, theUser, log, fetch. cbn.
  destruct (Remote.serve _ _) as [res remote]. cbn.
  destruct (Response.ok res); cbn.
  - left. split; reflexivity.
  - right. repeat split. rewrite <- !app_assoc. reflexivity.
Qed.

Lemma sentDuring_app w w' extra :
  World.requests w' = World.requests w ++ extra -> sentDuring w w' = extra.
Proof.
  intro H. unfold sentDuring. rewrite H, skipn_app, skipn_all, Nat.sub_diag.
  reflexivity.
Qed.

(** How a call through [spotifyFetch] can go. *)
Lemma spotifyFetch_cases req w :
  isTokenRequest req = false ->
  let after := spotifyFetch req w in
  let sent := sentDuring w (snd after) in
  List.length (filter isTokenRequest sent) <= 1
  /\ ((exists body,
         fst after = Return body /\ apiCalls sent = [call req])
      \/ (exists res,
            fst after = Throw (ResponseThrown res)
            /\ Response.ok res = false
            /\ apiCalls sent = [call req]
            /\ exists before,
                 World.console (snd after) =
                   before ++ [Error "Spotify API error:"; ErrorBody (Response.json res)])
      \/ (expired w = true
          /\ (exists e, fst after = Throw e /\ forall res, e <> ResponseThrown res)
          /\ apiCalls sent = [])).
Proof.
  intro Hreq. cbn zeta.
  assert (Hsend : forall w0 extra,
             World.requests w0 = World.requests w ++ extra ->
             apiCalls extra = [] ->
             List.length (filter isTokenRequest extra) <= 1 ->
             List.length
               (filter isTokenRequest (sentDuring w (snd (sendAuthorized req w0)))) <= 1
             /\ ((exists body,
                    fst (sendAuthorized req w0) = Return body
                    /\ apiCalls (sentDuring w (snd (sendAuthorized req w0))) = [call req])
                 \/ (exists res,
                       fst (sendAuthorized req w0) = Throw (ResponseThrown res)
                       /\ Response.ok res = false
                       /\ apiCalls (sentDuring w (snd (sendAuthorized req w0))) = [call req]
                       /\ exists before,
                            World.console (snd (sendAuthorized req w0)) =
                              before
                              ++ [Error "Spotify API error:";
                                  ErrorBody (Response.json res)]))).
  { intros w0 extra Hextra Hnone Hone.
    assert (Hsent : sentDuring w (snd (sendAuthorized req w0))
                    = extra ++ [authorized (User.accessToken (World.user w0)) req]).
    { apply sentDuring_app.
      rewrite sendAuthorized_requests, Hextra, <- app_assoc. reflexivity. }
    assert (Hcalls : apiCalls (sentDuring w (snd (sendAuthorized req w0))) = [call req]).
    { rewrite Hsent, apiCalls_app, Hnone. unfold apiCalls, isTokenRequest in *. cbn.
      rewrite Hreq. reflexivity. }
    split.
    { rewrite Hsent, filter_app, length_app. unfold isTokenRequest in *. cbn.
      rewrite Hreq. cbn. lia. }
    destruct (sendAuthorized_cases req w0) as [[Hok Hout] | (Hok & Hout & Hlog)].
    - left. eexists. split; [exact Hout | exact Hcalls].
    - right. eexists. split; [exact Hout |]. split; [exact Hok |].
      split; [exact Hcalls |].
      eexists (_ ++ [_; _]). rewrite Hlog, <- app_assoc. reflexivity. }
  assert (Hfail : forall (e : Exn) w0,
             (forall res, e <> ResponseThrown res) ->
             World.requests w0 = World.requests w ++ [refreshRequest w] ->
             List.length (filter isTokenRequest (sentDuring w w0)) <= 1
             /\ (expired w = true -> 
                 (exists e', @Throw Json e = Throw e' /\ forall res, e' <> ResponseThrown res)
                 /\ apiCalls (sentDuring w w0) = [])).
  { intros e w0 He Hw0. rewrite (sentDuring_app w w0 [refreshRequest w] Hw0).
    split; [cbn; lia |]. intros _. split; [| reflexivity].
    exists e. split; [reflexivity | exact He]. }
  rewrite spotifyFetch_split. destruct (expired w) eqn:Hexp.
  - rewrite refreshAccessToken_cases. cbn zeta.
    change (granted (World.logged _ w)) with (granted w).
    destruct (granted w) as [token |].
    + cbn [World.db World.user World.logged].
      destruct (Js.validDate _) eqn:Hvalid.
      * destruct (Prisma.hasUser (World.db w) (User.id (World.user w))) eqn:Hu.
        -- rewrite user_update_done by assumption.
           unfold Object_assign. cbn [snd].
           match goal with
           | |- context [sendAuthorized req ?w0] =>
               destruct (Hsend w0 [refreshRequest w]) as [Hone [H | H]]
           end; try reflexivity; try (cbn; lia).
           ++ split; [exact Hone | left; exact H].
           ++ split; [exact Hone | right; left; exact H].
        -- cbn [fst snd].
           destruct (Hfail (PrismaError RecordNotFound)
                       (World.exchanged (refreshRequest w)
                          (snd (Remote.serve (World.spotify w) (refreshRequest w)))
                          (World.logged (Info "Expired access token, retrying...") w)))
             as [Hone Hrest]; [discriminate | reflexivity |].
           split; [exact Hone |]. right. right. split; [reflexivity | apply Hrest; reflexivity].
      * cbn [fst snd].
        destruct (Hfail (PrismaError ValidationError)
                    (World.exchanged (refreshRequest w)
                       (snd (Remote.serve (World.spotify w) (refreshRequest w)))
                       (World.logged (Info "Expired access token, retrying...") w)))
          as [Hone Hrest]; [discriminate | reflexivity |].
        split; [exact Hone |]. right. right. split; [reflexivity | apply Hrest; reflexivity].
    + cbn [fst snd].
      destruct (Hfail ZodError
                  (World.exchanged (refreshRequest w)
                     (snd (Remote.serve (World.spotify w) (refreshRequest w)))
                     (World.logged (Info "Expired access token, retrying...") w)))
        as [Hone Hrest]; [discriminate | reflexivity |].
      split; [exact Hone |]. right. right. split; [reflexivity | apply Hrest; reflexivity].
  - destruct (Hsend w []) as [Hone [H | H]].
    + symmetry. apply app_nil_r.
    + reflexivity.
    + cbn; lia.
    + split; [exact Hone | left; exact H].
    + split; [exact Hone | right; left; exact H].
Qed.

(** X1.  A call through [spotifyFetch] does not retry.  However it ends,
    the request of the call has gone out once at most, after one refresh
    at most.  When the body is returned, the request was sent exactly
    once.  When a response is thrown, it is a response that is not ok:
    the two error lines were logged just before, and the request was sent
    once and not again. *)
Theorem spotifyFetch_does_not_retry req w :
  isTokenRequest req = false ->
  let after := spotifyFetch req w in
  let sent := sentDuring w (snd after) in
  List.length (apiCalls sent) <= 1
  /\ List.length (filter isTokenRequest sent) <= 1
  /\ (forall body, fst after = Return body -> apiCalls sent = [call req])
  /\ (forall res,
        fst after = Throw (ResponseThrown res) ->
        Response.ok res = false
        /\ apiCalls sent = [call req]
        /\ exists before,
             World.console (snd after) =
               before ++ [Error "Spotify API error:"; ErrorBody (Response.json res)]).
Proof.
  intro Hreq. cbn zeta.
  destruct (spotifyFetch_cases req w Hreq)
    as (Hone & [(body & Hout & Hcalls)
               | [(res & Hout & Hok & Hcalls & Hlog)
                 | (_ & (e & Hout & He) & Hcalls)]]);
    rewrite Hout, Hcalls.
  - split; [cbn; lia |]. split; [exact Hone |].
    split; [reflexivity | discriminate].
  - split; [cbn; lia |]. split; [exact Hone |].
    split; [discriminate |].
    intros res' H. injection H as <-.
    split; [exact Hok |]. split; [reflexivity | exact Hlog].
  - split; [cbn; lia |]. split; [exact Hone |].
    split; [discriminate |].
    intros res H. injection H as ->. exfalso. exact (He res eq_refl).
Qed.

Lemma spotifyFetch_does_not_retry_witness :
  let after := spotifyFetch (Request.get (MeTracks 0 5)) refusingWorld in
  fst after = Throw (ResponseThrown (Remote.failure 500 "refused"))
  /\ apiCalls (sentDuring refusingWorld (snd after)) = [(GET, MeTracks 0 5)].
Proof.
  cbn zeta. split; [vm_compute; reflexivity |].
  destruct (spotifyFetch_does_not_retry (Request.get (MeTracks 0 5)) refusingWorld eq_refl)
    as (_ & _ & _ & Hthrown).
  destruct (Hthrown (Remote.failure 500 "refused")) as (_ & Hcalls & _).
  - vm_compute. reflexivity.
  - exact Hcalls.
Defined.

(** X2.  A refresh that fails changes nothing: whatever it throws, the
    [user] object and the store are as before and no row was written; the
    one request that went out is the refresh request. *)
Theorem failed_refresh_leaves_the_token_alone w e w' :
  refreshAccessToken w = (Throw e, w') ->
  World.user w' = World.user w
  /\ World.db w' = World.db w
  /\ World.writes w' = World.writes w
  /\ exists refresh,
       World.requests w' = World.requests w ++ [refresh]
       /\ refreshes w refresh.
Proof.
  assert (Hrefresh : refreshes w (refreshRequest w))
    by (unfold refreshes, refreshRequest, tokenRequest; cbn; repeat split).
  rewrite refreshAccessToken_cases. cbn zeta.
  destruct (granted w) as [token |].
  - destruct (Js.validDate _) eqn:Hvalid.
    + destruct (Prisma.hasUser (World.db w) (User.id (World.user w))) eqn:Hu.
      * rewrite user_update_done by assumption. unfold Object_assign. discriminate.
      * intro H. injection H as _ <-. cbn. repeat split.
        eexists. split; [reflexivity | exact Hrefresh].
    + intro H. injection H as _ <-. cbn. repeat split.
      eexists. split; [reflexivity | exact Hrefresh].
  - intro H. injection H as _ <-. cbn. repeat split.
    eexists. split; [reflexivity | exact Hrefresh].
Qed.

Lemma failed_refresh_leaves_the_token_alone_witness :
  World.user (snd (refreshAccessToken revokedWorld)) = World.user revokedWorld
  /\ World.writes (snd (refreshAccessToken revokedWorld)) = [].
Proof.
  destruct (failed_refresh_leaves_the_token_alone revokedWorld ZodError
              (snd (refreshAccessToken revokedWorld)))
    as (Hu & _ & Hw & _).
  - vm_compute. reflexivity.
  - split; [exact Hu | exact Hw].
Defined.

Lemma granted_tokenGrants w token :
  granted w = Some token ->
  Remote.tokenGrants (World.spotify w) (User.refreshToken (World.user w)) = Some token.
Proof.
  unfold granted, refreshRequest, Remote.serve.
  destruct (Remote.refuses _ _); [discriminate |]. cbn.
  destruct (Remote.tokenGrants _ _) as [granted |]; [| discriminate].
  cbn. intro H. injection H as <-. reflexivity.
Qed.

(** X3.  The token a call obtained serves the calls that follow.  When a
    call through [spotifyFetch] found the token run out, refreshed it and
    returned, the [user] object holds the token that the service grants
    for the refresh token of the user; and a later call on this object,
    whenever it is made up to the expiry that the object holds by then,
    sends its request under this token, and no refresh. *)
Theorem refreshed_token_serves_later_calls req req' w body w1 w2 :
  spotifyFetch req w = (Return body, w1) ->
  expired w = true ->
  World.user w2 = World.user w1 ->
  (World.clock w2 <= User.accessTokenExpiresAt (World.user w1))%Z ->
  exists token sent,
    Remote.tokenGrants (World.spotify w) (User.refreshToken (World.user w)) = Some token
    /\ User.accessToken (World.user w1) = Api.Token.access_token token
    /\ World.requests (snd (spotifyFetch req' w2)) = World.requests w2 ++ [sent]
    /\ bears (Api.Token.access_token token) req' sent.
Proof.
  intros H Hexp Huser2 Hclock2.
  rewrite spotifyFetch_split, Hexp, refreshAccessToken_cases in H. cbn zeta in H.
  change (granted (World.logged _ w)) with (granted w) in H.
  destruct (granted w) as [token |] eqn:Hgrant; [| discriminate].
  destruct (Js.validDate _) eqn:Hvalid; [| discriminate].
  cbn [World.db World.user World.logged] in H.
  destruct (Prisma.hasUser (World.db w) (User.id (World.user w))) eqn:Hu;
    [| discriminate].
  rewrite user_update_done in H by assumption.
  unfold Object_assign in H. cbn [snd] in H.
  apply sendAuthorized_Return in H as (_ & _ & _ & _ & _ & Huser & _).
  cbn in Huser.
  assert (Htoken : User.accessToken (World.user w1) = Api.Token.access_token token)
    by (rewrite Huser; reflexivity).
  assert (Hgood : expired w2 = false).
  { unfold expired. rewrite Huser2, Z.gtb_ltb. apply Z.ltb_ge. exact Hclock2. }
  exists token. eexists.
  split; [apply granted_tokenGrants; exact Hgrant |].
  split; [exact Htoken |].
  split; [rewrite spotifyFetch_split, Hgood; apply sendAuthorized_requests |].
  rewrite Huser2, Htoken. unfold bears, authorized. cbn. repeat split.
Qed.

Lemma refreshed_token_serves_later_calls_witness :
  let w1 := snd (spotifyFetch (Request.get (MeTracks 0 5)) refreshWorld) in
  let w2 := World.mk 3000000 (World.env w1) (World.user w1) (World.db w1)
              (World.spotify w1) (World.requests w1) (World.console w1) (World.writes w1) in
  exists sent,
    World.requests (snd (spotifyFetch (Request.get (MeTracks 5 25)) w2))
      = World.requests w2 ++ [sent]
    /\ Request.authorization sent = Some (Bearer "fresh-token").
Proof.
  cbn zeta.
  destruct (refreshed_token_serves_later_calls (Request.get (MeTracks 0 5))
              (Request.get (MeTracks 5 25)) refreshWorld (JTracks [])
              (snd (spotifyFetch (Request.get (MeTracks 0 5)) refreshWorld))
              (let w1 := snd (spotifyFetch (Request.get (MeTracks 0 5)) refreshWorld) in
               World.mk 3000000 (World.env w1) (World.user w1) (World.db w1)
                 (World.spotify w1) (World.requests w1) (World.console w1)
                 (World.writes w1)))
    as (token & sent & Hgrant & _ & Hreq & Hbears & _).
  - vm_compute. reflexivity.
  - reflexivity.
  - reflexivity.
  - vm_compute. discriminate.
  - vm_compute in Hgrant. injection Hgrant as <-.
    exists sent. split; [exact Hreq | exact Hbears].
Defined.

(** X4.  A call through [spotifyFetch] touches nothing but the token,
    however it ends: the [Album], [Artist], [Track], [Label] and
    [Playlist] tables and the set of users are as before, the [user]
    object differs at most in the token and its expiry, and no row of the
    catalogue is written.  While the token is good it changes neither the
    store nor the [user] object at all. *)
Theorem spotifyFetch_touches_only_the_token req w :
  let w' := snd (spotifyFetch req w) in
  Db.albums (World.db w') = Db.albums (World.db w)
  /\ Db.artists (World.db w') = Db.artists (World.db w)
  /\ Db.tracks (World.db w') = Db.tracks (World.db w)
  /\ Db.labels (World.db w') = Db.labels (World.db w)
  /\ Db.playlists (World.db w') = Db.playlists (World.db w)
  /\ map User.id (Db.users (World.db w')) = map User.id (Db.users (World.db w))
  /\ sameButToken (World.user w) (World.user w')
  /\ catalogWrites (World.writes w') = catalogWrites (World.writes w)
  /\ (expired w = false ->
      World.db w' = World.db w /\ World.user w' = World.user w
      /\ World.writes w' = World.writes w).
Proof.
  cbn zeta.
  destruct (spotifyFetch_quiet req w)
    as (_ & _ & Huser & _ & Ha & Hr & Ht & Hl & Hp & Hu & Hw).
  repeat match goal with |- _ /\ _ => split end; try assumption.
  intro Hvalid. rewrite spotifyFetch_split, Hvalid.
  destruct (sendAuthorized_store req w) as [Hdb Hwrites].
  split; [exact Hdb |]. split; [| exact Hwrites].
  unfold sendAuthorized, bind, theUser, log, fetch. cbn.
  destruct (Remote.serve _ _) as [res remote]. cbn.
  destruct (Response.ok res); reflexivity.
Qed.

Lemma spotifyFetch_touches_only_the_token_witness :
  let w := Fixture.world 500 (Fixture.store [] [] []) (Fixture.service [] []) in
  World.db (snd (spotifyFetch (Request.get (MeTracks 0 5)) w)) = World.db w.
Proof.
  cbn zeta.
  destruct (spotifyFetch_touches_only_the_token (Request.get (MeTracks 0 5))
              (Fixture.world 500 (Fixture.store [] [] []) (Fixture.service [] [])))
    as (_ & _ & _ & _ & _ & _ & _ & _ & Hvalid).
  apply Hvalid. reflexivity.
Defined.

(** ** Looking up artists *)

Lemma lookupArtists_chunks_emitted chunks acc w artists w' :
  lookupArtists_chunks chunks acc w = (Return artists, w') ->
  emitted w w' (map (fun chunkIds => (GET, ArtistsByIds chunkIds)) chunks).
Proof.
  revert acc w. induction chunks as [| c chunks IH]; intros acc w H.
  - injection H as _ <-. apply emitted_nothing. reflexivity.
  - cbn [lookupArtists_chunks] in H.
    apply bind_Return in H as (body & w1 & Hfetch & H).
    apply bind_Return in H as (found & w2 & Hparse & H).
    pose proof (ArtistsResponse_parse_pure _ _ _ _ Hparse) as ->.
    change (map (fun chunkIds => (GET, ArtistsByIds chunkIds)) (c :: chunks))
      with ([call (Request.get (ArtistsByIds c))]
            ++ map (fun chunkIds => (GET, ArtistsByIds chunkIds)) chunks).
    eapply emitted_trans.
    + eapply spotifyFetch_Return_emitted; [exact Hfetch | reflexivity].
    + eapply IH. exact H.
Qed.

(** X5.  [lookupArtists] asks for the artists 50 ids at a time, one GET
    per chunk and in order, and a completed lookup returns exactly one
    artist per id asked for, in the order of the ids.  For no ids it sends
    nothing and returns nothing. *)
Theorem lookupArtists_asks_in_chunks_of_50 :
  (forall ids w artists w',
      lookupArtists ids w = (Return artists, w') ->
      map Api.Artist.id artists = ids
      /\ apiCalls (sentDuring w w') =
           map (fun chunkIds => (GET, ArtistsByIds chunkIds)) (Lodash.chunk ids 50)
      /\ List.concat (Lodash.chunk ids 50) = ids
      /\ Forall (fun chunkIds => 0 < List.length chunkIds <= 50) (Lodash.chunk ids 50))
  /\ (forall w, lookupArtists [] w = (Return [], w)).
Proof.
  split.
  - intros ids w artists w' H.
    split; [eapply lookupArtists_ids; exact H |].
    split; [apply emitted_sentDuring; eapply lookupArtists_chunks_emitted; exact H |].
    split; [apply chunk_concat | apply chunk_sizes].
  - intro w. reflexivity.
Qed.

Lemma lookupArtists_asks_in_chunks_of_50_witness :
  let w := Fixture.world 500 (Fixture.store [] [] []) (Fixture.service [] []) in
  map Api.Artist.id (match fst (lookupArtists ["artist-02"; "artist-00"] w) with
                     | Return artists => artists
                     | _ => []
                     end) = ["artist-02"; "artist-00"].
Proof.
  cbn zeta.
  destruct (lookupArtists ["artist-02"; "artist-00"]
              (Fixture.world 500 (Fixture.store [] [] []) (Fixture.service [] [])))
    as [out w'] eqn:H.
  assert (Hout : exists artists, out = Return artists).
  { vm_compute in H. injection H as <- _. eexists. reflexivity. }
  destruct Hout as [artists ->]. cbn [fst].
  exact (proj1 (proj1 lookupArtists_asks_in_chunks_of_50 _ _ _ _ H)).
Defined.

(** ** The pull and the invariants of the store *)

Section PullPreserves.
Variable R : World.t -> World.t -> Prop.
Hypothesis R_refl : forall w, R w w.
Hypothesis R_trans : forall a b c, R a b -> R b c -> R a c.
Hypothesis R_quiet : forall w w', quiet w w' -> R w w'.
Hypothesis R_albums :
  forall data, preserves R (Prisma.album_createMany_skipDuplicates data).
Hypothesis R_artists : forall data, preserves R (Prisma.artist_createMany data).
Hypothesis R_track : forall data, preserves R (Prisma.track_create data).

Lemma preserves_pure {A} (m : M A) : (forall w, snd (m w) = w) -> preserves R m.
Proof. intros H w. rewrite H. apply R_refl. Qed.

Lemma syncPage_preserves offset limit : preserves R (syncPage offset limit).
Proof.
  unfold syncPage.
  apply (preserves_bind R R_trans).
  { intro w. apply R_quiet, spotifyFetch_quiet. }
  intro body. apply (preserves_bind R R_trans).
  { apply preserves_pure. intro w. destruct body; reflexivity. }
  intro tracks. apply (preserves_bind R R_trans).
  { apply preserves_pure. reflexivity. }
  intro albums. apply (preserves_bind R R_trans).
  { apply preserves_pure. reflexivity. }
  intro existing. apply (preserves_bind R R_trans).
  { intro w. apply R_quiet, lookupArtists_quiet. }
  intro newArtists. apply (preserves_bind R R_trans); [apply R_albums | intro].
  apply (preserves_bind R R_trans); [apply R_artists | intro].
  apply (preserves_bind R R_trans); [apply preserves_pure; reflexivity | intro user].
  apply (preserves_bind R R_trans); [apply preserves_pure; reflexivity | intro].
  apply (preserves_bind R R_trans); [| intro; apply (preserves_ret R R_refl)].
  apply (preserves_promiseAll R R_refl R_trans). apply R_track.
Qed.

Lemma syncLoop_preserves turns offset limit : preserves R (syncLoop turns offset limit).
Proof.
  revert offset limit. induction turns as [| turns IH]; intros offset limit.
  - intro w. apply R_refl.
  - cbn [syncLoop]. apply (preserves_bind R R_trans); [apply syncPage_preserves |].
    intro missing. destruct (missing =? limit); [apply IH | apply (preserves_ret R R_refl)].
Qed.
End PullPreserves.

Lemma album_createMany_grown data :
  preserves grown (Prisma.album_createMany_skipDuplicates data).
Proof.
  intro w. unfold Prisma.album_createMany_skipDuplicates.
  destruct (forallb _ _); [| apply grown_refl].
  unfold grown. cbn.
  repeat match goal with |- _ /\ _ => split end;
    try reflexivity; try apply sameButToken_refl; try apply sameService_refl;
    try (exists []; symmetry; apply app_nil_r).
  eexists. reflexivity.
Qed.

Lemma artist_createMany_grown data : preserves grown (Prisma.artist_createMany data).
Proof.
  intro w. unfold Prisma.artist_createMany.
  destruct (_ && _); [| apply grown_refl].
  unfold grown. cbn.
  repeat match goal with |- _ /\ _ => split end;
    try reflexivity; try apply sameButToken_refl; try apply sameService_refl;
    try (exists []; symmetry; apply app_nil_r).
  eexists. reflexivity.
Qed.

Lemma track_create_grown data : preserves grown (Prisma.track_create data).
Proof.
  intro w. unfold Prisma.track_create.
  destruct (negb _); [apply grown_refl |].
  destruct (Prisma.hasTrack _ _); [apply grown_refl |].
  unfold grown. cbn.
  repeat match goal with |- _ /\ _ => split end;
    try reflexivity; try apply sameButToken_refl; try apply sameService_refl;
    try (exists []; symmetry; apply app_nil_r).
  eexists. reflexivity.
Qed.

(** X6.  The pull only adds to the store, however it ends, a failure in
    the middle of a page included: every [Album], [Artist] and [Track] row
    that was there is still there, unchanged and in its place, with the new
    rows behind it; the [Label] and [Playlist] tables and the set of users
    are as before. *)
Theorem pull_only_adds_rows turns w :
  let w' := snd (syncFavoriteTracks turns w) in
  (exists more, Db.albums (World.db w') = Db.albums (World.db w) ++ more)
  /\ (exists more, Db.artists (World.db w') = Db.artists (World.db w) ++ more)
  /\ (exists more, Db.tracks (World.db w') = Db.tracks (World.db w) ++ more)
  /\ Db.labels (World.db w') = Db.labels (World.db w)
  /\ Db.playlists (World.db w') = Db.playlists (World.db w)
  /\ map User.id (Db.users (World.db w')) = map User.id (Db.users (World.db w)).
Proof.
  cbn zeta. unfold syncFavoriteTracks.
  destruct (syncLoop_preserves grown grown_refl grown_trans quiet_grown
              album_createMany_grown artist_createMany_grown track_create_grown
              turns 0 5 w)
    as (_ & _ & _ & _ & Ha & Hr & Ht & Hl & Hp & Hu).
  repeat split; assumption.
Qed.

Lemma syncPage_steps offset limit w missing w' :
  syncPage offset limit w = (Return missing, w') ->
  let page := pageOf w offset limit in
  exists wa albums newArtists wc createdAlbums wd created we done,
    spotifyFetch (Request.get (MeTracks offset limit)) w = (Return (JTracks page), wa)
    /\ albumInputs page = Return albums
    /\ lookupArtists
         (Lodash.difference (Lodash.uniq (flat_map artistIdsOf page))
            (filter (fun id => Lodash.includes id (Lodash.uniq (flat_map artistIdsOf page)))
               (map Artist.id (Db.artists (World.db wa))))) wa
       = (Return newArtists, wc)
    /\ Prisma.album_createMany_skipDuplicates albums wc = (Return createdAlbums, wd)
    /\ Prisma.artist_createMany newArtists wd = (Return created, we)
    /\ promiseAll
         (map (trackInput (User.id (World.user we)))
            (filter (fun item =>
                       negb (storedFor (World.db we) (User.id (World.user we))
                               (Api.Track.id (Api.Item.track item)))) page))
         Prisma.track_create we
       = (Return done, w').
Proof.
  intro H. cbn zeta. unfold syncPage in H.
  apply bind_Return in H as (body & wa & Hfetch & H).
  apply bind_Return in H as (tracks & wb & Hparse & H).
  apply TracksResponse_parse_Return in Hparse as [-> ->].
  pose proof (spotifyFetch_page _ _ _ _ _ Hfetch) as (Hbody & _ & _).
  injection Hbody as ->.
  apply bind_Return in H as (albums & wb & Hinputs & H).
  unfold lift in Hinputs. injection Hinputs as Hinputs <-.
  apply bind_Return in H as (existing & wb & Hfind & H).
  unfold Prisma.artist_findMany_in in Hfind. injection Hfind as <- <-.
  apply bind_Return in H as (newArtists & wc & Hlookup & H).
  apply bind_Return in H as (createdAlbums & wd & Halbums & H).
  apply bind_Return in H as (created & we & Hartists & H).
  apply bind_Return in H as (user & wf & Huser & H).
  unfold theUser in Huser. injection Huser as <- <-.
  apply bind_Return in H as (existingTracks & wf & Htracks & H).
  unfold Prisma.track_findMany_in in Htracks. injection Htracks as <- <-.
  rewrite missing_are_new in H.
  apply bind_Return in H as (done & wg & Hcreate & H).
  injection H as _ <-.
  exists wa, albums, newArtists, wc, createdAlbums, wd, created, we, done.
  repeat split; assumption.
Qed.

(** X9.  A completed turn has stored the page: it created one [Track] row
    for every track of the page that the user had not stored, owned by the
    user, and none for the others, in whatever order the creations went
    through; their number is what it returns; and afterwards every track
    of the page is stored for the user, and so are its album and its
    artists. *)
Theorem completed_turn_stores_the_page offset limit w missing w' :
  syncPage offset limit w = (Return missing, w') ->
  let page := pageOf w offset limit in
  exists rows,
    Db.tracks (World.db w') = Db.tracks (World.db w) ++ rows
    /\ Permutation (map Track.spotifyId rows)
         (map (fun item => Api.Track.id (Api.Item.track item)) (filter (isNew w) page))
    /\ Forall (fun row => Track.userId row = User.id (World.user w)) rows
    /\ missing = List.length rows
    /\ settled w' page.
Proof.
  intro H. cbn zeta.
  pose proof (syncPage_settles _ _ _ _ _ H) as Hsettled.
  apply syncPage_Return in H
    as (_ & _ & _ & rows & _ & _ & _ & _ & Hmissing & _ & _ & _ & Ht & Hids & Husers & _).
  exists rows.
  split; [exact Ht |]. split; [rewrite Hids; apply Permutation_refl |].
  split; [exact Husers |].
  split; [| exact Hsettled].
  rewrite Hmissing. rewrite <- (length_map Track.spotifyId rows), Hids, length_map.
  reflexivity.
Qed.

Lemma completed_turn_stores_the_page_witness :
  exists rows,
    Db.tracks (World.db (snd (syncPage 0 5 resumedPull)))
      = Db.tracks (World.db resumedPull) ++ rows
    /\ Permutation (map Track.spotifyId rows) ["track-03"; "track-04"].
Proof.
  destruct (completed_turn_stores_the_page 0 5 resumedPull 2
              (snd (syncPage 0 5 resumedPull)))
    as (rows & Ht & Hids & _).
  - vm_compute. reflexivity.
  - exists rows. split; [exact Ht | exact Hids].
Defined.

Lemma difference_of_stored d ids :
  Lodash.difference ids
    (filter (fun id => Lodash.includes id ids) (map Artist.id (Db.artists d)))
  = filter (fun id => negb (Prisma.hasArtist d id)) ids.
Proof.
  unfold Lodash.difference. apply filter_ext_in. intros id Hid. f_equal.
  apply Bool.eq_iff_eq_true. rewrite includes_In, filter_In, hasArtist_In, includes_In.
  tauto.
Qed.

(** X10.  A completed turn asks the service for the page, and then for
    the artists of the page that are not stored, each once and 50 to a
    call; it asks for no artist that is stored and makes no other call. *)
Theorem completed_turn_looks_up_unknown_artists_only offset limit w missing w' :
  syncPage offset limit w = (Return missing, w') ->
  let unknown :=
    filter (fun id => negb (Prisma.hasArtist (World.db w) id))
      (Lodash.uniq (flat_map artistIdsOf (pageOf w offset limit))) in
  apiCalls (sentDuring w w') =
    (GET, MeTracks offset limit)
    :: map (fun chunkIds => (GET, ArtistsByIds chunkIds)) (Lodash.chunk unknown 50).
Proof.
  intro H. cbn zeta.
  apply syncPage_steps in H
    as (wa & albums & newArtists & wc & createdAlbums & wd & created & we & done
        & Hfetch & Hinputs & Hlookup & Halbums & Hartists & Hcreate).
  pose proof (spotifyFetch_quiet (Request.get (MeTracks offset limit)) w) as Hq.
  rewrite Hfetch in Hq. cbn [snd] in Hq. destruct Hq as (_ & _ & _ & _ & _ & Hr & _).
  rewrite difference_of_stored in Hlookup.
  replace (filter (fun id => negb (Prisma.hasArtist (World.db wa) id)))
    with (filter (fun id => negb (Prisma.hasArtist (World.db w) id))) in Hlookup
    by (unfold Prisma.hasArtist; rewrite Hr; reflexivity).
  apply emitted_sentDuring.
  change ((GET, MeTracks offset limit) :: ?rest)
    with ([call (Request.get (MeTracks offset limit))] ++ rest).
  eapply emitted_trans;
    [eapply spotifyFetch_Return_emitted; [exact Hfetch | reflexivity] |].
  rewrite <- (app_nil_r (map _ _)).
  eapply emitted_trans; [eapply lookupArtists_chunks_emitted; exact Hlookup |].
  apply emitted_nothing.
  apply album_createMany_Return in Halbums as (_ & (_ & _ & _ & _ & Hreq0) & _).
  apply artist_createMany_Return in Hartists as ((_ & _ & _ & _ & Hreq1) & _).
  apply tracks_created in Hcreate as ((_ & _ & _ & _ & Hreq2) & _).
  rewrite Hreq2, Hreq1, Hreq0. reflexivity.
Qed.

Lemma completed_turn_looks_up_unknown_artists_only_witness :
  apiCalls (sentDuring (firstPull 8) (snd (syncPage 0 5 (firstPull 8)))) =
    [(GET, MeTracks 0 5); (GET, ArtistsByIds ["artist-00"; "artist-01"; "artist-02"])]
  /\ apiCalls (sentDuring resumedPull (snd (syncPage 0 5 resumedPull))) =
       [(GET, MeTracks 0 5)].
Proof.
  split.
  - rewrite (completed_turn_looks_up_unknown_artists_only 0 5 (firstPull 8) 5
               (snd (syncPage 0 5 (firstPull 8))));
      vm_compute; reflexivity.
  - rewrite (completed_turn_looks_up_unknown_artists_only 0 5 resumedPull 2
               (snd (syncPage 0 5 resumedPull)));
      vm_compute; reflexivity.
Defined.

Lemma hasTrack_grows d d' more spotifyId :
  Db.tracks d' = Db.tracks d ++ more ->
  Prisma.hasTrack d spotifyId = true -> Prisma.hasTrack d' spotifyId = true.
Proof.
  unfold Prisma.hasTrack. intros -> H. rewrite existsb_app, H. reflexivity.
Qed.

(** [db.track.create] goes through for tracks whose [spotifyId] is in no
    row of the table only. *)
Lemma tracks_created_fresh inputs w done w' :
  promiseAll inputs Prisma.track_create w = (Return done, w') ->
  forall data, In data inputs ->
    Prisma.hasTrack (World.db w) (TrackCreateInput.spotifyId data) = false.
Proof.
  revert w done w'. induction inputs as [| first inputs IH]; intros w done w' H data Hin;
    [contradiction |].
  cbn [promiseAll] in H.
  apply bind_Return in H as ([] & w1 & H1 & H).
  apply bind_Return in H as (rest & w2 & H2 & H).
  destruct Hin as [<- | Hin].
  - unfold Prisma.track_create in H1.
    destruct (negb _); [discriminate |].
    destruct (Prisma.hasTrack _ _); [discriminate | reflexivity].
  - pose proof (IH _ _ _ H2 data Hin) as Hfresh.
    apply track_create_Return in H1 as (_ & (row & Ht & _) & _).
    destruct (Prisma.hasTrack (World.db w) (TrackCreateInput.spotifyId data)) eqn:E;
      [| reflexivity].
    rewrite (hasTrack_grows _ _ _ _ Ht E) in Hfresh. discriminate.
Qed.

Lemma turn_fails_on_track_of_another_user offset limit w item missing w' :
  In item (pageOf w offset limit) ->
  isNew w item = true ->
  Prisma.hasTrack (World.db w) (Api.Track.id (Api.Item.track item)) = true ->
  syncPage offset limit w <> (Return missing, w').
Proof.
  intros Hitem Hnew Hthere H.
  apply syncPage_steps in H
    as (wa & albums & newArtists & wc & createdAlbums & wd & created & we & done
        & Hfetch & Hinputs & Hlookup & Halbums & Hartists & Hcreate).
  pose proof (spotifyFetch_quiet (Request.get (MeTracks offset limit)) w) as Hqa.
  rewrite Hfetch in Hqa. cbn [snd] in Hqa.
  match type of Hlookup with
  | lookupArtists ?ids _ = _ => pose proof (lookupArtists_quiet ids wa) as Hqc
  end.
  rewrite Hlookup in Hqc. cbn [snd] in Hqc.
  pose proof (quiet_trans _ _ _ Hqa Hqc) as (_ & _ & (Hid & _) & _ & _ & _ & Ht & _).
  apply album_createMany_Return in Halbums
    as (_ & (_ & _ & Hua & _) & _ & _ & _ & Hta & _).
  apply artist_createMany_Return in Hartists as ((_ & _ & Hu & _) & _ & _ & _ & Hte & _).
  assert (Htracks : Db.tracks (World.db we) = Db.tracks (World.db w)) by congruence.
  assert (Huser : User.id (World.user we) = User.id (World.user w)) by congruence.
  pose proof (tracks_created_fresh _ _ _ _ Hcreate
                (trackInput (User.id (World.user we)) item)) as Hfresh.
  cbn [trackInput TrackCreateInput.spotifyId] in Hfresh.
  unfold Prisma.hasTrack in Hfresh, Hthere. rewrite Htracks, Hthere in Hfresh.
  assert (Hin : In (trackInput (User.id (World.user we)) item)
                  (map (trackInput (User.id (World.user we)))
                     (filter (fun item0 =>
                                negb (storedFor (World.db we) (User.id (World.user we))
                                        (Api.Track.id (Api.Item.track item0))))
                        (pageOf w offset limit)))).
  { apply in_map, filter_In. split; [exact Hitem |].
    unfold isNew, storedFor in *. rewrite Huser, Htracks. exact Hnew. }
  specialize (Hfresh Hin). discriminate.
Qed.

(** X11.  The [spotifyId] of a track is unique in the store, but the pull
    looks for the tracks of a page among the tracks of its own user.  So
    when a track of the first page belongs, in the store, to somebody else
    and not to the user, the pull tries to create it and cannot complete. *)
Theorem pull_fails_on_track_of_another_user turns w item w' :
  In item (pageOf w 0 5) ->
  isNew w item = true ->
  Prisma.hasTrack (World.db w) (Api.Track.id (Api.Item.track item)) = true ->
  syncFavoriteTracks turns w <> (Return tt, w').
Proof.
  intros Hitem Hnew Hthere H.
  destruct turns as [| turns]; [discriminate |].
  unfold syncFavoriteTracks in H. cbn [syncLoop] in H.
  apply bind_Return in H as (missing & w1 & Hpage & _).
  exact (turn_fails_on_track_of_another_user _ _ _ _ _ _ Hitem Hnew Hthere Hpage).
Qed.

Lemma pull_fails_on_track_of_another_user_witness :
  fst (syncFavoriteTracks 3 sharedTrackWorld) = Throw (PrismaError UniqueConstraint)
  /\ syncFavoriteTracks 3 sharedTrackWorld
     <> (Return tt, snd (syncFavoriteTracks 3 sharedTrackWorld)).
Proof.
  split; [vm_compute; reflexivity |].
  apply (pull_fails_on_track_of_another_user 3 sharedTrackWorld (Fixture.favorite 1)).
  - vm_compute. right. left. reflexivity.
  - vm_compute. reflexivity.
  - vm_compute. reflexivity.
Defined.

(** ** What can make the pull fail in the store *)

Lemma bind_Throw {A B} (m : M A) (k : A -> M B) w e w' :
  bind m k w = (Throw e, w') ->
  m w = (Throw e, w')
  \/ exists a w1, m w = (Return a, w1) /\ k a w1 = (Throw e, w').
Proof.
  unfold bind. destruct (m w) as [[a | e0 |] w1]; intro H.
  - right. exists a, w1. split; [reflexivity | exact H].
  - left. injection H as -> ->. reflexivity.
  - discriminate.
Qed.

Lemma hasUser_ids d d' id :
  map User.id (Db.users d') = map User.id (Db.users d) ->
  Prisma.hasUser d' id = Prisma.hasUser d id.
Proof.
  unfold Prisma.hasUser. intro H.
  assert (Hmap : forall us, existsb (fun u => User.id u =? id) us
                            = existsb (fun i => i =? id) (map User.id us)).
  { induction us as [| u us IH]; [reflexivity |]. cbn. rewrite IH. reflexivity. }
  rewrite !Hmap, H. reflexivity.
Qed.

Lemma grown_userStored w w' : grown w w' -> userStored w' = userStored w.
Proof.
  intros (_ & _ & (Hid & _) & _ & _ & _ & _ & _ & _ & Hu).
  unfold userStored. rewrite <- Hid. apply hasUser_ids. exact Hu.
Qed.

Lemma quiet_userStored w w' : quiet w w' -> userStored w' = userStored w.
Proof. intro H. apply grown_userStored, quiet_grown. exact H. Qed.

Lemma sendAuthorized_Throw req w e w' :
  sendAuthorized req w = (Throw e, w') -> exists res, e = ResponseThrown res.
Proof.
  intro H. destruct (sendAuthorized_cases req w) as [[_ Hout] | (_ & Hout & _)];
    rewrite H in Hout; cbn in Hout.
  - discriminate.
  - injection Hout as ->. eexists. reflexivity.
Qed.

Lemma spotifyFetch_Throw req w e w' :
  spotifyFetch req w = (Throw e, w') -> fetchFailure w e.
Proof.
  rewrite spotifyFetch_split. unfold fetchFailure, userStored.
  destruct (expired w); [| intro H; left; eapply sendAuthorized_Throw; exact H].
  rewrite refreshAccessToken_cases. cbn zeta.
  destruct (granted _) as [token |];
    [| intro H; injection H as <- _; right; left; reflexivity].
  destruct (Js.validDate _) eqn:Hvalid;
    [| intro H; injection H as <- _; right; right; left; reflexivity].
  cbn [World.db World.user World.logged].
  destruct (Prisma.hasUser (World.db w) (User.id (World.user w))) eqn:Hu;
    [| intro H; injection H as <- _; right; right; right; split; reflexivity].
  change (Prisma.hasUser (World.db w) (User.id (World.user w)))
    with (Prisma.hasUser
            (World.db (World.logged (Info "Expired access token, retrying...") w))
            (User.id (World.user
                        (World.logged (Info "Expired access token, retrying...") w))))
    in Hu.
  rewrite user_update_done by assumption.
  unfold Object_assign. cbn [snd].
  intro H. left. eapply sendAuthorized_Throw. exact H.
Qed.

Lemma fetchFailure_quiet w w' e : quiet w w' -> fetchFailure w' e -> fetchFailure w e.
Proof.
  intros Hq [H | [H | [H | [H Hu]]]].
  - left. exact H.
  - right. left. exact H.
  - right. right. left. exact H.
  - right. right. right. split; [exact H |].
    rewrite <- (quiet_userStored _ _ Hq). exact Hu.
Qed.

Lemma lookupArtists_chunks_Throw chunks acc w e w' :
  lookupArtists_chunks chunks acc w = (Throw e, w') -> fetchFailure w e.
Proof.
  revert acc w. induction chunks as [| c chunks IH]; intros acc w H; [discriminate |].
  cbn [lookupArtists_chunks] in H.
  apply bind_Throw in H as [H | (body & w1 & Hfetch & H)].
  - eapply spotifyFetch_Throw. exact H.
  - pose proof (spotifyFetch_quiet (Request.get (ArtistsByIds c)) w) as Hq.
    rewrite Hfetch in Hq. cbn [snd] in Hq.
    apply (fetchFailure_quiet _ _ _ Hq).
    apply bind_Throw in H as [H | (artists & w2 & Hparse & H)].
    + unfold ArtistsResponse_parse in H.
      destruct body as [? | ? | found | ? | | ?]; try (injection H as <- _; right; left; reflexivity).
      destruct (allPresent found); [discriminate |].
      injection H as <- _. right. left. reflexivity.
    + pose proof (ArtistsResponse_parse_pure _ _ _ _ Hparse) as ->.
      eapply IH. exact H.
Qed.

Lemma mapOutcome_albumInput_Throw items e :
  mapOutcome albumInput items = Throw e -> e = URIError.
Proof.
  induction items as [| item items IH]; [discriminate |].
  cbn [mapOutcome]. unfold albumInput at 1, thumbnailUrl.
  destruct (option_map _ _).
  - destruct (mapOutcome albumInput items); try discriminate.
    intro H. apply IH. injection H as ->. reflexivity.
  - destruct (Js.encodeURIComponent _).
    + destruct (mapOutcome albumInput items); try discriminate.
      intro H. apply IH. injection H as ->. reflexivity.
    + intro H. injection H as <-. reflexivity.
Qed.

Lemma albumInputs_Throw page e : albumInputs page = Throw e -> e = URIError.
Proof.
  unfold albumInputs.
  destruct (mapOutcome albumInput page) eqn:E; try discriminate.
  intro H. injection H as ->. eapply mapOutcome_albumInput_Throw. exact E.
Qed.

(** *** The references of the tracks *)

Lemma track_create_outcomes data w :
  (connectable (World.db w) data = false
   /\ Prisma.track_create data w = (Throw (PrismaError RecordNotFound), w))
  \/ (connectable (World.db w) data = true
      /\ Prisma.hasTrack (World.db w) (TrackCreateInput.spotifyId data) = true
      /\ Prisma.track_create data w = (Throw (PrismaError UniqueConstraint), w))
  \/ (connectable (World.db w) data = true
      /\ Prisma.hasTrack (World.db w) (TrackCreateInput.spotifyId data) = false
      /\ exists w', Prisma.track_create data w = (Return tt, w')).
Proof.
  unfold Prisma.track_create, connectable.
  destruct (Prisma.hasUser _ _ && _ && _); cbn [negb].
  - destruct (Prisma.hasTrack _ _).
    + right. left. repeat split.
    + right. right. split; [reflexivity |]. split; [reflexivity |].
      eexists. reflexivity.
  - left. split; reflexivity.
Qed.

Lemma track_create_connectable data w w' other :
  Prisma.track_create data w = (Return tt, w') ->
  connectable (World.db w') other = connectable (World.db w) other.
Proof.
  intro H. apply track_create_Return in H as (_ & _ & Hu & Ha & Hr & _).
  unfold connectable, Prisma.hasUser, Prisma.hasAlbum, Prisma.hasArtist.
  rewrite Hu, Ha, Hr. reflexivity.
Qed.

(** Creating tracks whose references are all there is not refused for
    a missing record. *)
Lemma tracks_found inputs w e w' :
  (forall data, In data inputs -> connectable (World.db w) data = true) ->
  promiseAll inputs Prisma.track_create w = (Throw e, w') ->
  e <> PrismaError RecordNotFound.
Proof.
  revert w. induction inputs as [| first inputs IH]; intros w Hall H; [discriminate |].
  cbn [promiseAll] in H.
  apply bind_Throw in H as [H | ([] & w1 & Hfirst & H)].
  - destruct (track_create_outcomes first w)
      as [(Hc & _) | [(_ & _ & Hout) | (_ & _ & w2 & Hout)]].
    + rewrite Hall in Hc by (left; reflexivity). discriminate.
    + rewrite Hout in H. injection H as <- _. discriminate.
    + rewrite Hout in H. discriminate.
  - apply bind_Throw in H as [H | (rest & w2 & _ & H)]; [| discriminate].
    apply (IH w1); [| exact H].
    intros data Hin. rewrite (track_create_connectable _ _ _ _ Hfirst).
    apply Hall. right. exact Hin.
Qed.

(** The state of a turn before its tracks are created. *)
Lemma turn_prepared offset limit w wa albums newArtists wc createdAlbums wd created we :
  let page := pageOf w offset limit in
  spotifyFetch (Request.get (MeTracks offset limit)) w = (Return (JTracks page), wa) ->
  albumInputs page = Return albums ->
  lookupArtists
    (Lodash.difference (Lodash.uniq (flat_map artistIdsOf page))
       (filter (fun id => Lodash.includes id (Lodash.uniq (flat_map artistIdsOf page)))
          (map Artist.id (Db.artists (World.db wa))))) wa
    = (Return newArtists, wc) ->
  Prisma.album_createMany_skipDuplicates albums wc = (Return createdAlbums, wd) ->
  Prisma.artist_createMany newArtists wd = (Return created, we) ->
  grown w we
  /\ Db.tracks (World.db we) = Db.tracks (World.db w)
  /\ forall item, In item page ->
       Prisma.hasAlbum (World.db we) (albumIdOf item) = true
       /\ forallb (Prisma.hasArtist (World.db we)) (artistIdsOf item) = true.
Proof.
  cbn zeta. intros Hfetch Hinputs Hlookup Halbums Hartists.
  pose proof (spotifyFetch_quiet (Request.get (MeTracks offset limit)) w) as Hqa.
  rewrite Hfetch in Hqa. cbn [snd] in Hqa.
  match type of Hlookup with
  | lookupArtists ?ids _ = _ => pose proof (lookupArtists_quiet ids wa) as Hqc
  end.
  rewrite Hlookup in Hqc. cbn [snd] in Hqc.
  apply lookupArtists_ids in Hlookup.
  pose proof (quiet_trans _ _ _ Hqa Hqc) as Hq.
  pose proof (album_createMany_grown albums wc) as Hgd.
  rewrite Halbums in Hgd. cbn [snd] in Hgd.
  pose proof (artist_createMany_grown newArtists wd) as Hge.
  rewrite Hartists in Hge. cbn [snd] in Hge.
  apply album_createMany_Return in Halbums as (_ & _ & Ad & _ & Rd & Td & _).
  apply artist_createMany_Return in Hartists as (_ & Re & _ & Ae & Te & _).
  assert (Hgrown : grown w we).
  { eapply grown_trans; [apply quiet_grown; exact Hq |].
    eapply grown_trans; eassumption. }
  destruct Hq as (_ & _ & _ & _ & Qalbums & Qartists & Qtracks & _).
  split; [exact Hgrown |].
  split; [congruence |].
  intros item Hitem. split.
  - apply hasAlbum_In. rewrite Ae, Ad, map_app. apply in_app_iff.
    pose proof (albumInputs_covers _ _ _ Hinputs Hitem) as Hin.
    apply in_map_iff in Hin as (a & Hkey & Hin).
    rewrite <- Hkey.
    destruct (newAlbums_covers (World.clock wc) (map Album.id (Db.albums (World.db wc)))
                albums a Hin) as [Hold | Hnew]; [left; exact Hold | right; exact Hnew].
  - apply forallb_forall. intros id Hin.
    apply hasArtist_In. rewrite Re, Rd, map_app, map_map. cbn.
    change (map (fun x => Api.Artist.id x) newArtists) with (map Api.Artist.id newArtists).
    rewrite Hlookup. apply in_app_iff.
    assert (Hu : In id (Lodash.uniq (flat_map artistIdsOf (pageOf w offset limit)))).
    { apply uniq_In. apply in_flat_map. exists item. split; assumption. }
    destruct Hqa as (_ & _ & _ & _ & _ & Hra & _).
    destruct (in_dec string_dec id (map Artist.id (Db.artists (World.db wc))))
      as [Hold | Hnot].
    + left. exact Hold.
    + right. apply filter_In. split; [exact Hu |].
      apply negb_true_iff. apply includes_false. intro Hf.
      apply filter_In in Hf as [Hf _]. apply Hnot. rewrite Qartists, <- Hra. exact Hf.
Qed.

(** How a turn fails: in a call to Spotify, in reading an album, or in
    one of its three writes, the ones before it having gone through. *)
Lemma syncPage_Throw offset limit w e w' :
  syncPage offset limit w = (Throw e, w') ->
  let page := pageOf w offset limit in
  fetchFailure w e
  \/ albumInputs page = Throw e
  \/ exists wa albums newArtists wc,
       spotifyFetch (Request.get (MeTracks offset limit)) w = (Return (JTracks page), wa)
       /\ albumInputs page = Return albums
       /\ lookupArtists
            (Lodash.difference (Lodash.uniq (flat_map artistIdsOf page))
               (filter (fun id => Lodash.includes id (Lodash.uniq (flat_map artistIdsOf page)))
                  (map Artist.id (Db.artists (World.db wa))))) wa
          = (Return newArtists, wc)
       /\ (e = PrismaError ValidationError
           \/ exists createdAlbums wd,
                Prisma.album_createMany_skipDuplicates albums wc = (Return createdAlbums, wd)
                /\ (Prisma.artist_createMany newArtists wd = (Throw e, w')
                    \/ exists created we,
                         Prisma.artist_createMany newArtists wd = (Return created, we)
                         /\ promiseAll
                              (map (trackInput (User.id (World.user we)))
                                 (filter (fun item =>
                                            negb (storedFor (World.db we)
                                                    (User.id (World.user we))
                                                    (Api.Track.id (Api.Item.track item))))
                                    page))
                              Prisma.track_create we
                            = (Throw e, w'))).
Proof.
  intro H. cbn zeta. unfold syncPage in H.
  apply bind_Throw in H as [H | (body & wa & Hfetch & H)];
    [left; eapply spotifyFetch_Throw; exact H |].
  pose proof (spotifyFetch_page _ _ _ _ _ Hfetch) as (Hbody & Hqa & _).
  apply bind_Throw in H as [H | (tracks & wb & Hparse & H)];
    [rewrite Hbody in H; discriminate |].
  apply TracksResponse_parse_Return in Hparse as [-> ->].
  injection Hbody as ->.
  apply bind_Throw in H as [H | (albums & wb & Hinputs & H)].
  { unfold lift in H. injection H as H _. right. left. exact H. }
  unfold lift in Hinputs. injection Hinputs as Hinputs <-.
  apply bind_Throw in H as [H | (existing & wb & Hfind & H)]; [discriminate |].
  unfold Prisma.artist_findMany_in in Hfind. injection Hfind as <- <-.
  apply bind_Throw in H as [H | (newArtists & wc & Hlookup & H)].
  { left. apply (fetchFailure_quiet _ _ _ Hqa).
    eapply lookupArtists_chunks_Throw. exact H. }
  right. right. exists wa, albums, newArtists, wc.
  split; [exact Hfetch |]. split; [exact Hinputs |]. split; [exact Hlookup |].
  apply bind_Throw in H as [H | (createdAlbums & wd & Halbums & H)].
  { left. unfold Prisma.album_createMany_skipDuplicates in H.
    destruct (forallb Prisma.validAlbum albums); [discriminate |].
    injection H as <- _. reflexivity. }
  right. exists createdAlbums, wd. split; [exact Halbums |].
  apply bind_Throw in H as [H | (created & we & Hartists & H)]; [left; exact H |].
  right. exists created, we. split; [exact Hartists |].
  apply bind_Throw in H as [H | (user & wf & Huser & H)]; [discriminate |].
  unfold theUser in Huser. injection Huser as <- <-.
  apply bind_Throw in H as [H | (existingTracks & wf & Htracks & H)]; [discriminate |].
  unfold Prisma.track_findMany_in in Htracks. injection Htracks as <- <-.
  rewrite missing_are_new in H.
  apply bind_Throw in H as [H | (done & wg & _ & H)]; [exact H | discriminate].
Qed.

Lemma artist_createMany_Throw data w e w' :
  Prisma.artist_createMany data w = (Throw e, w') -> e = PrismaError UniqueConstraint.
Proof.
  unfold Prisma.artist_createMany. destruct (_ && _); [discriminate |].
  intro H. injection H as <- _. reflexivity.
Qed.

(** What a failed turn leaves of the first one: a turn that fails on a
    missing record had no row for its user. *)
Lemma syncPage_references offset limit w e w' :
  userStored w = true ->
  syncPage offset limit w = (Throw e, w') ->
  e <> PrismaError RecordNotFound.
Proof.
  intros Hu H.
  apply syncPage_Throw in H as [Hf | [Hf | (wa & albums & newArtists & wc & Hfetch
    & Hinputs & Hlookup & [-> | (createdAlbums & wd & Halbums & [Hartists
    | (created & we & Hartists & Hcreate)])])]]; try discriminate.
  - intros ->. destruct Hf as [[res Hf] | [Hf | [Hf | [_ Hf]]]]; try discriminate.
    rewrite Hu in Hf. discriminate.
  - apply albumInputs_Throw in Hf as ->. discriminate.
  - apply artist_createMany_Throw in Hartists as ->. discriminate.
  - destruct (turn_prepared _ _ _ _ _ _ _ _ _ _ _ Hfetch Hinputs Hlookup Halbums Hartists)
      as (Hgrown & _ & Hrefs).
    eapply tracks_found; [| exact Hcreate].
    intros data Hin. apply in_map_iff in Hin as (item & <- & Hin).
    apply filter_In in Hin as [Hin _].
    destruct (Hrefs item Hin) as [Halbum Hartist].
    unfold connectable. cbn [TrackCreateInput.user TrackCreateInput.album
                              TrackCreateInput.artists trackInput].
    fold (albumIdOf item). rewrite Halbum, Hartist.
    fold (userStored we). rewrite (grown_userStored _ _ Hgrown), Hu. reflexivity.
Qed.

Lemma syncPage_userStored offset limit w :
  userStored (snd (syncPage offset limit w)) = userStored w.
Proof.
  apply grown_userStored.
  apply (syncPage_preserves grown grown_refl grown_trans quiet_grown
           album_createMany_grown artist_createMany_grown track_create_grown).
Qed.

(** ** Albums without images *)

Lemma find_map {A B} (f : A -> B) (p : B -> bool) l :
  find p (map f l) = option_map f (find (fun x => p (f x)) l).
Proof.
  induction l as [| x l IH]; [reflexivity |].
  cbn. destruct (p (f x)); [reflexivity | exact IH].
Qed.










(** X7.  The pull does not fail on a missing record: when the row of the
    user is in the store, the pull never ends in Prisma's error for a
    record that a write refers to and that is not there, because every
    turn creates the albums and the artists of its page before the tracks
    that are connected to them (the service answering a lookup with the
    artists that were asked for). *)
Theorem pull_creates_what_its_tracks_refer_to turns w :
  userStored w = true ->
  fst (syncFavoriteTracks turns w) <> Throw (PrismaError RecordNotFound).
Proof.
  unfold syncFavoriteTracks. generalize 0 5. revert w.
  induction turns as [| turns IH]; intros w offset limit Hu; [discriminate |].
  cbn [syncLoop]. unfold bind.
  pose proof (syncPage_userStored offset limit w) as Hkeep.
  destruct (syncPage offset limit w) as [[missing | e |] w1] eqn:Hturn; cbn [fst snd] in *.
  - destruct (missing =? limit); [| discriminate].
    apply IH. rewrite Hkeep. exact Hu.
  - intro Habs. injection Habs as ->.
    exact (syncPage_references _ _ _ _ _ Hu Hturn eq_refl).
  - discriminate.
Qed.

Lemma pull_creates_what_its_tracks_refer_to_witness :
  userStored (firstPull 8) = true
  /\ fst (syncFavoriteTracks 3 (firstPull 8)) <> Throw (PrismaError RecordNotFound).
Proof.
  split; [reflexivity |].
  apply (pull_creates_what_its_tracks_refer_to 3 (firstPull 8)). reflexivity.
Defined.

(** *** Unique keys *)

Lemma uniqBy_from_distinct seen l :
  Prisma.distinct (Lodash.uniqBy_from (fun x : string => x) seen l) = true
  /\ forall x, In x (Lodash.uniqBy_from (fun x : string => x) seen l) -> ~ In x seen.
Proof.
  revert seen. induction l as [| y l IH]; intro seen; [split; [reflexivity | intros x []] |].
  cbn [Lodash.uniqBy_from]. destruct (Lodash.includes y seen) eqn:E; [apply IH |].
  destruct (IH (y :: seen)) as [Hd Hout]. split.
  - cbn [Prisma.distinct]. rewrite Hd, andb_true_r. apply negb_true_iff.
    apply includes_false. intro Hin. apply (Hout y Hin). left. reflexivity.
  - intros x [<- | Hin]; [apply includes_false; exact E |].
    intro Hs. apply (Hout x Hin). right. exact Hs.
Qed.

Lemma distinct_filter f ids :
  Prisma.distinct ids = true -> Prisma.distinct (filter f ids) = true.
Proof.
  induction ids as [| id ids IH]; [reflexivity |].
  cbn [Prisma.distinct filter]. intro H. apply andb_true_iff in H as [Hid Hrest].
  destruct (f id); [| apply IH; exact Hrest].
  cbn [Prisma.distinct]. rewrite (IH Hrest), andb_true_r.
  apply negb_true_iff. apply includes_false. intro Hin.
  apply filter_In in Hin as [Hin _].
  apply negb_true_iff, includes_false in Hid. contradiction.
Qed.

(** The artists that a turn creates are new to the table and distinct:
    [db.artist.createMany] goes through. *)
Lemma turn_artists_created offset limit w wa newArtists wc wd e w' :
  quiet w wa ->
  lookupArtists
    (Lodash.difference (Lodash.uniq (flat_map artistIdsOf (pageOf w offset limit)))
       (filter (fun id => Lodash.includes id
                            (Lodash.uniq (flat_map artistIdsOf (pageOf w offset limit))))
          (map Artist.id (Db.artists (World.db wa))))) wa
    = (Return newArtists, wc) ->
  Db.artists (World.db wd) = Db.artists (World.db wc) ->
  Prisma.artist_createMany newArtists wd = (Throw e, w') -> False.
Proof.
  intros Hqa Hlookup Hd H.
  match type of Hlookup with
  | lookupArtists ?ids _ = _ => pose proof (lookupArtists_quiet ids wa) as Hqc
  end.
  rewrite Hlookup in Hqc. cbn [snd] in Hqc.
  apply lookupArtists_ids in Hlookup.
  rewrite difference_of_stored in Hlookup.
  destruct Hqc as (_ & _ & _ & _ & _ & Hr & _).
  unfold Prisma.artist_createMany in H. rewrite Hlookup in H.
  match type of H with
  | (if ?a && ?b then _ else _) = _ =>
      assert (Ha : a = true); [| assert (Hb : b = true); [| rewrite Ha, Hb in H; discriminate]]
  end.
  - apply distinct_filter. apply uniqBy_from_distinct.
  - apply forallb_forall. intros id Hin. apply filter_In in Hin as [_ Hin].
    unfold Prisma.hasArtist in *. rewrite Hd, Hr. exact Hin.
Qed.

(** [db.track.create] is refused for a [spotifyId] that is in the table,
    or that an earlier creation of the same batch has put there. *)
Lemma tracks_unique inputs w w' :
  promiseAll inputs Prisma.track_create w = (Throw (PrismaError UniqueConstraint), w') ->
  (exists data, In data inputs
                /\ Prisma.hasTrack (World.db w) (TrackCreateInput.spotifyId data) = true)
  \/ ~ NoDup (map TrackCreateInput.spotifyId inputs).
Proof.
  revert w. induction inputs as [| first inputs IH]; intros w H; [discriminate |].
  cbn [promiseAll] in H.
  apply bind_Throw in H as [H | ([] & w1 & Hfirst & H)].
  - destruct (track_create_outcomes first w)
      as [(_ & Hout) | [(_ & Hstored & _) | (_ & _ & w2 & Hout)]].
    + rewrite Hout in H. discriminate.
    + left. exists first. split; [left; reflexivity | exact Hstored].
    + rewrite Hout in H. discriminate.
  - apply bind_Throw in H as [H | (rest & w2 & _ & H)]; [| discriminate].
    apply track_create_Return in Hfirst as (_ & (row & Ht & Hid & _) & _).
    destruct (IH w1 H) as [(data & Hin & Hstored) | Hdup].
    + unfold Prisma.hasTrack in Hstored. rewrite Ht, existsb_app in Hstored.
      apply orb_true_iff in Hstored as [Hold | Hnew].
      * left. exists data. split; [right; exact Hin | exact Hold].
      * right. cbn in Hnew. rewrite orb_false_r in Hnew. apply String.eqb_eq in Hnew.
        intro Hnodup. cbn [map] in Hnodup. apply NoDup_cons_iff in Hnodup as [Hnot _].
        apply Hnot. rewrite <- Hid, Hnew. apply in_map. exact Hin.
    + right. intro Hnodup. cbn [map] in Hnodup. apply NoDup_cons_iff in Hnodup as [_ Hrest].
      exact (Hdup Hrest).
Qed.

(** X8.  A turn is refused for a unique key by its tracks only: when a
    turn of the pull ends in Prisma's unique constraint error, one of the
    tracks of the page that the user has not stored is in the table for
    another user ([spotifyId] is unique over all users, the lookup is per
    user), or the page lists one of these tracks twice.  The albums and the
    artists of the turn never cause it. *)
Theorem unique_violation_comes_from_a_track offset limit w w' :
  syncPage offset limit w = (Throw (PrismaError UniqueConstraint), w') ->
  let fresh := filter (isNew w) (pageOf w offset limit) in
  (exists item row,
     In item fresh /\ In row (Db.tracks (World.db w))
     /\ Track.spotifyId row = Api.Track.id (Api.Item.track item)
     /\ Track.userId row <> User.id (World.user w))
  \/ ~ NoDup (map (fun item => Api.Track.id (Api.Item.track item)) fresh).
Proof.
  intro H. cbn zeta.
  apply syncPage_Throw in H as [Hf | [Hf | (wa & albums & newArtists & wc & Hfetch
    & Hinputs & Hlookup & [Hf | (createdAlbums & wd & Halbums & [Hartists
    | (created & we & Hartists & Hcreate)])])]]; try discriminate.
  - destruct Hf as [[res Hf] | [Hf | [Hf | [Hf _]]]]; discriminate.
  - apply albumInputs_Throw in Hf. discriminate.
  - exfalso.
    pose proof (spotifyFetch_quiet (Request.get (MeTracks offset limit)) w) as Hqa.
    rewrite Hfetch in Hqa. cbn [snd] in Hqa.
    apply album_createMany_Return in Halbums as (_ & _ & _ & _ & Rd & _).
    exact (turn_artists_created _ _ _ _ _ _ _ _ _ Hqa Hlookup Rd Hartists).
  - destruct (turn_prepared _ _ _ _ _ _ _ _ _ _ _ Hfetch Hinputs Hlookup Halbums Hartists)
      as (Hgrown & Htracks & _).
    destruct Hgrown as (_ & _ & (Hid & _) & _).
    assert (Hsame : filter (fun item =>
                              negb (storedFor (World.db we) (User.id (World.user we))
                                      (Api.Track.id (Api.Item.track item))))
                      (pageOf w offset limit)
                    = filter (isNew w) (pageOf w offset limit)).
    { apply filter_ext. intro item. unfold isNew, storedFor.
      rewrite Htracks, <- Hid. reflexivity. }
    rewrite Hsame in Hcreate.
    apply tracks_unique in Hcreate as [(data & Hin & Hstored) | Hdup].
    + left. apply in_map_iff in Hin as (item & <- & Hin).
      cbn [TrackCreateInput.spotifyId trackInput] in Hstored.
      unfold Prisma.hasTrack in Hstored. rewrite Htracks in Hstored.
      apply existsb_exists in Hstored as (row & Hrow & Heq).
      apply String.eqb_eq in Heq.
      exists item, row. repeat split; try assumption.
      intro Howner. pose proof Hin as Hnew. apply filter_In in Hnew as [_ Hnew].
      unfold isNew in Hnew. apply negb_true_iff in Hnew.
      assert (Hyes : storedFor (World.db w) (User.id (World.user w))
                       (Api.Track.id (Api.Item.track item)) = true).
      { unfold storedFor. apply existsb_exists. exists row. split; [exact Hrow |].
        rewrite Howner, Nat.eqb_refl, Heq, String.eqb_refl. reflexivity. }
      rewrite Hyes in Hnew. discriminate.
    + right. rewrite map_map in Hdup. exact Hdup.
Qed.

Lemma unique_violation_comes_from_a_track_witness :
  exists w',
    syncPage 0 5 sharedTrackWorld = (Throw (PrismaError UniqueConstraint), w')
    /\ ((exists item row,
           In item (filter (isNew sharedTrackWorld) (pageOf sharedTrackWorld 0 5))
           /\ In row (Db.tracks (World.db sharedTrackWorld))
           /\ Track.spotifyId row = Api.Track.id (Api.Item.track item)
           /\ Track.userId row <> User.id (World.user sharedTrackWorld))
        \/ ~ NoDup (map (fun item => Api.Track.id (Api.Item.track item))
                      (filter (isNew sharedTrackWorld) (pageOf sharedTrackWorld 0 5)))).
Proof.
  eexists. split; [vm_compute; reflexivity |].
  eapply (unique_violation_comes_from_a_track 0 5 sharedTrackWorld).
  vm_compute. reflexivity.
Defined.

(** ** The bound on the turns *)

Lemma syncLoop_one_more_turn turns offset limit w :
  fst (syncLoop turns offset limit w) <> Unfinished ->
  syncLoop (S turns) offset limit w = syncLoop turns offset limit w.
Proof.
  revert offset limit w. induction turns as [| turns IH]; intros offset limit w H.
  - cbn in H. contradiction.
  - change (syncLoop (S (S turns)) offset limit w)
      with (bind (syncPage offset limit)
              (fun missing => if missing =? limit
                              then syncLoop (S turns) (offset + limit) 25
                              else ret tt) w).
    change (syncLoop (S turns) offset limit w)
      with (bind (syncPage offset limit)
              (fun missing => if missing =? limit
                              then syncLoop turns (offset + limit) 25
                              else ret tt) w) in *.
    unfold bind in *.
    destruct (syncPage offset limit w) as [[missing | e |] w1]; try reflexivity.
    destruct (missing =? limit); [| reflexivity].
    apply IH. exact H.
Qed.

Lemma syncLoop_more_turns more turns offset limit w :
  fst (syncLoop turns offset limit w) <> Unfinished ->
  syncLoop (more + turns) offset limit w = syncLoop turns offset limit w.
Proof.
  intro H. induction more as [| more IH]; [reflexivity |].
  cbn [Nat.add]. rewrite syncLoop_one_more_turn; [exact IH |].
  rewrite IH. exact H.
Qed.

(** X12.  The loop of the pull ends: a bound on its turns that exceeds the
    length of the feed is never used up, and every such bound gives the
    same outcome and the same world. *)
Theorem pull_ends_whatever_the_bound turns turns' w :
  List.length (Remote.savedTracks (World.spotify w)) < turns ->
  turns <= turns' ->
  fst (syncFavoriteTracks turns w) <> Unfinished
  /\ syncFavoriteTracks turns' w = syncFavoriteTracks turns w.
Proof.
  intros Hfeed Hle.
  pose proof (syncFavoriteTracks_finishes turns w Hfeed) as Hfin.
  split; [exact Hfin |].
  replace turns' with ((turns' - turns) + turns) by lia.
  apply syncLoop_more_turns. exact Hfin.
Qed.

Lemma pull_ends_whatever_the_bound_witness :
  fst (syncFavoriteTracks 31 laterPull) <> Unfinished
  /\ syncFavoriteTracks 40 laterPull = syncFavoriteTracks 31 laterPull.
Proof.
  apply pull_ends_whatever_the_bound.
  - vm_compute. reflexivity.
  - lia.
Defined.

(** ** The push and the store *)

Lemma preserves_forEach {A} (R : World.t -> World.t -> Prop)
    (R_refl : forall w, R w w) (R_trans : forall a b c, R a b -> R b c -> R a c)
    (xs : list A) (body : A -> M unit) :
  (forall x, preserves R (body x)) -> preserves R (forEach xs body).
Proof.
  intro Hbody. induction xs as [| x xs IH]; cbn [forEach].
  - apply (preserves_ret R R_refl).
  - apply (preserves_bind R R_trans); [apply Hbody | intro; exact IH].
Qed.

Lemma preserves_Return {A} (R : World.t -> World.t -> Prop) (m : M A) w a w' :
  preserves R m -> m w = (Return a, w') -> R w w'.
Proof. intros Hm H. specialize (Hm w). rewrite H in Hm. exact Hm. Qed.

Section PushQuiet.
Context {L : CriteriaLanguage}.

Lemma resolveTracks_quiet playlist : preserves quiet (resolveTracks playlist).
Proof.
  intro w. unfold resolveTracks.
  destruct (LabelWithTracks.smartCriteria _) as [criteria |]; [| apply quiet_refl].
  unfold tryCatch, bind, theUser, lift, Prisma.track_findMany_where, ret.
  cbn.
  destruct (generatePrismaFilter criteria) as [[filter |] | e |]; cbn;
    try apply quiet_refl; try apply (log_quiet _ w).
  destruct (selects filter); cbn; [apply quiet_refl | apply (log_quiet _ w)].
Qed.

Lemma uploadTracks_quiet playlist tracks : preserves quiet (uploadTracks playlist tracks).
Proof.
  unfold uploadTracks. apply (preserves_forEach quiet quiet_refl quiet_trans).
  intro entry. apply (preserves_bind quiet quiet_trans); [apply spotifyFetch_quiet |].
  intro. apply (preserves_ret quiet quiet_refl).
Qed.

Lemma removeDummy_quiet playlist : preserves quiet (removeDummy playlist).
Proof.
  unfold removeDummy. destruct (_ =? 0); [| apply (preserves_ret quiet quiet_refl)].
  apply (preserves_bind quiet quiet_trans); [apply spotifyFetch_quiet |].
  intro. apply (preserves_ret quiet quiet_refl).
Qed.

Lemma pushPlaylist_quiet playlist : preserves quiet (pushPlaylist playlist).
Proof.
  unfold pushPlaylist.
  apply (preserves_bind quiet quiet_trans); [apply resolveTracks_quiet | intro tracks].
  apply (preserves_bind quiet quiet_trans); [apply uploadTracks_quiet | intro].
  apply removeDummy_quiet.
Qed.

Lemma createPlaylist_quiet label : preserves quiet (createPlaylist label).
Proof.
  unfold createPlaylist.
  apply (preserves_bind quiet quiet_trans); [apply theUser_quiet | intro user].
  apply (preserves_bind quiet quiet_trans); [apply spotifyFetch_quiet | intro body].
  apply (preserves_bind quiet quiet_trans).
  { intro w. destruct body; apply quiet_refl. }
  intro spotifyId.
  apply (preserves_bind quiet quiet_trans); [apply theUser_quiet | intro].
  apply (preserves_ret quiet quiet_refl).
Qed.

(** The push once the playlists are provisioned. *)
Lemma uploads_quiet :
  preserves quiet
    (user <- theUser ;;
     dbPlaylists <- Prisma.playlist_findMany_withLabel (User.id user) ;;
     promiseAll dbPlaylists pushPlaylist ;;
     ret tt).
Proof.
  apply (preserves_bind quiet quiet_trans); [apply theUser_quiet | intro user].
  apply (preserves_bind quiet quiet_trans).
  { intro w. unfold Prisma.playlist_findMany_withLabel.
    destruct (allPresent _); apply quiet_refl. }
  intro dbPlaylists.
  apply (preserves_bind quiet quiet_trans);
    [| intro; apply (preserves_ret quiet quiet_refl)].
  apply (preserves_promiseAll quiet quiet_refl quiet_trans). apply pushPlaylist_quiet.
Qed.

End PushQuiet.

Lemma catalogueKept_refl w : catalogueKept w w.
Proof.
  unfold catalogueKept. repeat split. exists []. symmetry. apply app_nil_r.
Qed.

Lemma catalogueKept_trans a b c :
  catalogueKept a b -> catalogueKept b c -> catalogueKept a c.
Proof.
  intros (A1 & A2 & A3 & A4 & A5 & A6 & m1 & A7) (B1 & B2 & B3 & B4 & B5 & B6 & m2 & B7).
  unfold catalogueKept. repeat split; try congruence.
  exists (m1 ++ m2). rewrite B7, A7. symmetry. apply app_assoc.
Qed.

Lemma quiet_catalogueKept w w' : quiet w w' -> catalogueKept w w'.
Proof.
  intros (_ & _ & (Hid & _) & _ & Ha & Hr & Ht & Hl & Hp & Hu & _).
  unfold catalogueKept. repeat split; try congruence.
  exists []. rewrite app_nil_r. exact Hp.
Qed.

Lemma playlist_createMany_kept data : preserves catalogueKept (Prisma.playlist_createMany data).
Proof.
  intro w. unfold Prisma.playlist_createMany.
  destruct (_ && _); [| apply catalogueKept_refl].
  unfold catalogueKept. cbn. repeat split. eexists. reflexivity.
Qed.

Lemma syncPlaylists_kept {L : CriteriaLanguage} : preserves catalogueKept syncPlaylists.
Proof.
  unfold syncPlaylists.
  apply (preserves_bind catalogueKept catalogueKept_trans).
  { intro w. apply catalogueKept_refl. }
  intro user. apply (preserves_bind catalogueKept catalogueKept_trans).
  { intro w. apply catalogueKept_refl. }
  intro newLabels. apply (preserves_bind catalogueKept catalogueKept_trans).
  { intro w. apply quiet_catalogueKept.
    apply (preserves_promiseAll quiet quiet_refl quiet_trans). apply createPlaylist_quiet. }
  intro playlists. apply (preserves_bind catalogueKept catalogueKept_trans).
  { destruct (0 <? _); [| apply (preserves_ret catalogueKept catalogueKept_refl)].
    apply (preserves_bind catalogueKept catalogueKept_trans);
      [apply playlist_createMany_kept |].
    intro. apply (preserves_ret catalogueKept catalogueKept_refl). }
  intro. intro w. apply quiet_catalogueKept. apply uploads_quiet.
Qed.

(** X13.  The push reads the catalogue and never writes it: however
    [syncPlaylists] ends, the albums, the artists, the tracks and the
    labels of the store are what they were, no user has come or gone, and
    the playlists that were there are still there, in place. *)
Theorem push_leaves_the_catalogue_alone {L : CriteriaLanguage} w :
  catalogueKept w (snd (syncPlaylists w)).
Proof. apply syncPlaylists_kept. Qed.

(** ** Playlists for the labels *)

Lemma createPlaylist_Return label w input w' :
  createPlaylist label w = (Return input, w') ->
  PlaylistCreateManyInput.labelId input = Label.id label
  /\ PlaylistCreateManyInput.userId input = User.id (World.user w').
Proof.
  unfold createPlaylist. intro H.
  apply bind_Return in H as (user & w1 & _ & H).
  apply bind_Return in H as (body & w2 & _ & H).
  apply bind_Return in H as (spotifyId & w3 & _ & H).
  apply bind_Return in H as (user' & w4 & Hu & H).
  injection Hu as <- <-. injection H as <- <-. split; reflexivity.
Qed.

Lemma created_playlists_labels labels w inputs w' :
  promiseAll labels createPlaylist w = (Return inputs, w') ->
  map PlaylistCreateManyInput.labelId inputs = map Label.id labels.
Proof.
  revert w inputs w'. induction labels as [| l labels IH]; intros w inputs w' H.
  - injection H as <- _. reflexivity.
  - cbn [promiseAll] in H.
    apply bind_Return in H as (input & w1 & H1 & H).
    apply bind_Return in H as (rest & w2 & H2 & H).
    injection H as <- _. cbn [map].
    rewrite (IH _ _ _ H2). f_equal. apply (createPlaylist_Return _ _ _ _ H1).
Qed.

Lemma playlistRows_labelIds now id data :
  map Playlist.labelId (Prisma.playlistRows now id data) =
  map PlaylistCreateManyInput.labelId data.
Proof.
  revert id. induction data as [| p data IH]; intro id; [reflexivity |].
  cbn. f_equal. apply IH.
Qed.

Lemma playlist_createMany_Return data w count w' :
  Prisma.playlist_createMany data w = (Return count, w') ->
  exists rows,
    Db.playlists (World.db w') = Db.playlists (World.db w) ++ rows
    /\ map Playlist.labelId rows = map PlaylistCreateManyInput.labelId data.
Proof.
  unfold Prisma.playlist_createMany.
  destruct (_ && _); [| discriminate].
  intro H. injection H as _ <-. cbn.
  eexists. split; [reflexivity | apply playlistRows_labelIds].
Qed.

Lemma syncPlaylists_provisions {L : CriteriaLanguage} w w' :
  syncPlaylists w = (Return tt, w') ->
  forall l, In l (Db.labels (World.db w')) ->
    Label.userId l = User.id (World.user w) ->
    provisioned (World.db w') l.
Proof.
  intros H l Hl Huser.
  pose proof (syncPlaylists_kept w) as Hkept. rewrite H in Hkept. cbn [snd] in Hkept.
  destruct Hkept as (_ & _ & _ & Hlabels & _ & _ & more & Hmore).
  rewrite Hlabels in Hl.
  unfold syncPlaylists in H.
  apply bind_Return in H as (user & w0 & Hu & H). injection Hu as <- <-.
  apply bind_Return in H as (newLabels & w0 & Hfind & H).
  unfold Prisma.label_findMany_withoutPlaylist in Hfind. injection Hfind as <- <-.
  apply bind_Return in H as (inputs & w1 & Hcreate & H).
  apply bind_Return in H as ([] & w2 & Hsave & H).
  pose proof (preserves_Return quiet _ _ _ _
                (preserves_promiseAll quiet quiet_refl quiet_trans _ _ createPlaylist_quiet)
                Hcreate) as Hq1.
  pose proof (preserves_Return quiet _ _ _ _ uploads_quiet H) as Hq2.
  destruct (existsb (fun p => Playlist.labelId p =? Label.id l)
              (Db.playlists (World.db w))) eqn:Hthere.
  - apply existsb_exists in Hthere as (p & Hp & Hid).
    exists p. split; [rewrite Hmore; apply in_or_app; left; exact Hp |].
    apply Nat.eqb_eq. exact Hid.
  - assert (Hnew : In (Label.id l) (map PlaylistCreateManyInput.labelId inputs)).
    { rewrite (created_playlists_labels _ _ _ _ Hcreate).
      apply in_map, filter_In. split; [exact Hl |].
      rewrite Huser, Nat.eqb_refl, Hthere. reflexivity. }
    destruct (0 <? List.length inputs) eqn:Hlen.
    + apply bind_Return in Hsave as (count & w3 & Hsave & Hret).
      injection Hret as <-.
      apply playlist_createMany_Return in Hsave as (rows & Hrows & Hids).
      rewrite <- Hids in Hnew. apply in_map_iff in Hnew as (p & Hid & Hp).
      exists p. split; [| exact Hid].
      destruct Hq2 as (_ & _ & _ & _ & _ & _ & _ & _ & Hp2 & _).
      rewrite Hp2, Hrows. apply in_or_app. right. exact Hp.
    + apply Nat.ltb_ge in Hlen. destruct inputs; [contradiction | cbn in Hlen; lia].
Qed.

(** X14.  A completed push leaves no label of the user without a
    playlist: each of them has a row in the [Playlist] table afterwards. *)
Theorem completed_push_provisions_every_label {L : CriteriaLanguage} w w' :
  syncPlaylists w = (Return tt, w') ->
  forall l, In l (Db.labels (World.db w')) ->
    Label.userId l = User.id (World.user w) ->
    provisioned (World.db w') l.
Proof. exact (syncPlaylists_provisions w w'). Qed.

Lemma completed_push_provisions_every_label_witness :
  provisioned (World.db (snd (syncPlaylists (L := LabelGrammar.language) twoLabelWorld)))
    (labelRow 1 "Morning" [1; 2] None).
Proof.
  apply (completed_push_provisions_every_label (L := LabelGrammar.language) twoLabelWorld).
  - vm_compute. reflexivity.
  - vm_compute. left. reflexivity.
  - reflexivity.
Defined.

(** ** A push after a push *)

Lemma noCreation_refl w : noCreation w w.
Proof.
  unfold noCreation. repeat split. exists []. split; [symmetry; apply app_nil_r | constructor].
Qed.

Lemma noCreation_trans a b c : noCreation a b -> noCreation b c -> noCreation a c.
Proof.
  intros (A1 & A2 & A3 & e1 & A4 & A5) (B1 & B2 & B3 & e2 & B4 & B5).
  unfold noCreation. repeat split; try congruence.
  exists (e1 ++ e2). split.
  - rewrite B4, A4. symmetry. apply app_assoc.
  - apply Forall_app. split; assumption.
Qed.

Lemma serve_keeps_playlists r req :
  isCreation req = false ->
  Remote.playlistIds (snd (Remote.serve r req)) = Remote.playlistIds r
  /\ map fst (Remote.playlistItems (snd (Remote.serve r req))) =
       map fst (Remote.playlistItems r).
Proof.
  unfold isCreation, Remote.serve. intro Hreq.
  destruct (Remote.refuses r req); [split; reflexivity |].
  destruct (Request.method req), (Request.url req), (Request.body req);
    cbn; try discriminate; try (split; reflexivity);
    repeat match goal with
    | |- context [match ?x with _ => _ end] => destruct x; cbn
    end;
    try (split; reflexivity);
    (split; [reflexivity |]);
    rewrite map_map; apply map_ext; intros [k items]; cbn;
    destruct (String.eqb k _); reflexivity.
Qed.

Lemma fetch_noCreation req : isCreation req = false -> preserves noCreation (fetch req).
Proof.
  intros Hreq w. unfold fetch.
  pose proof (serve_keeps_playlists (World.spotify w) req Hreq) as [Hids Hitems].
  destruct (Remote.serve (World.spotify w) req) as [res remote]. cbn in *.
  unfold noCreation. cbn. repeat split; try assumption.
  exists [req]. split; [reflexivity |]. constructor; [exact Hreq | constructor].
Qed.

(** A step that sends nothing and leaves the playlist rows alone. *)
Lemma aside_noCreation {A} (m : M A) :
  (forall w, Db.playlists (World.db (snd (m w))) = Db.playlists (World.db w)
             /\ World.spotify (snd (m w)) = World.spotify w
             /\ World.requests (snd (m w)) = World.requests w) ->
  preserves noCreation m.
Proof.
  intros H w. destruct (H w) as (Hp & Hs & Hr).
  unfold noCreation. rewrite Hp, Hs, Hr. repeat split.
  exists []. split; [symmetry; apply app_nil_r | constructor].
Qed.

Ltac no_creation_chain :=
  repeat first
    [ apply (preserves_bind noCreation noCreation_trans); [| intro]
    | apply (preserves_ret noCreation noCreation_refl)
    | apply (preserves_throw noCreation noCreation_refl)
    | apply fetch_noCreation; reflexivity
    | apply aside_noCreation; intro; repeat split; reflexivity ].

Lemma refreshAccessToken_noCreation : preserves noCreation refreshAccessToken.
Proof.
  unfold refreshAccessToken. no_creation_chain.
  - apply aside_noCreation. intro w. destruct (Response.json _); repeat split; reflexivity.
  - apply aside_noCreation. intro w. unfold Prisma.user_update.
    destruct (negb _); [repeat split; reflexivity |].
    destruct (Prisma.hasUser _ _); repeat split; reflexivity.
Qed.

Lemma spotifyFetch_noCreation req :
  isCreation req = false -> preserves noCreation (spotifyFetch req).
Proof.
  intro Hreq. unfold spotifyFetch.
  apply (preserves_bind noCreation noCreation_trans); [no_creation_chain | intro user].
  apply (preserves_bind noCreation noCreation_trans); [no_creation_chain | intro now].
  apply (preserves_bind noCreation noCreation_trans).
  { destruct (_ >? _)%Z; [| no_creation_chain].
    apply (preserves_bind noCreation noCreation_trans); [no_creation_chain | intro].
    apply refreshAccessToken_noCreation. }
  intro. apply (preserves_bind noCreation noCreation_trans); [no_creation_chain | intro user'].
  apply (preserves_bind noCreation noCreation_trans); [no_creation_chain | intro].
  apply (preserves_bind noCreation noCreation_trans).
  { apply fetch_noCreation. exact Hreq. }
  intro res. apply (preserves_bind noCreation noCreation_trans); [no_creation_chain | intro].
  destruct (negb _); no_creation_chain.
Qed.

Section PushAgain.
Context {L : CriteriaLanguage}.

Lemma pushPlaylist_noCreation playlist : preserves noCreation (pushPlaylist playlist).
Proof.
  unfold pushPlaylist.
  apply (preserves_bind noCreation noCreation_trans).
  { apply aside_noCreation. intro w.
    pose proof (resolveTracks_quiet playlist w) as (_ & _ & _ & _ & _ & _ & _ & _ & Hp & _).
    split; [exact Hp |]. split; [| apply resolveTracks_requests].
    unfold resolveTracks.
    destruct (LabelWithTracks.smartCriteria _) as [criteria |]; [| reflexivity].
    unfold tryCatch, bind, theUser, lift, Prisma.track_findMany_where, log, ret. cbn.
    destruct (generatePrismaFilter criteria) as [[filter |] | e |]; cbn; try reflexivity.
    destruct (selects filter); reflexivity. }
  intro tracks. apply (preserves_bind noCreation noCreation_trans).
  { unfold uploadTracks. apply (preserves_forEach noCreation noCreation_refl noCreation_trans).
    intros [index ids].
    apply (preserves_bind noCreation noCreation_trans);
      [apply spotifyFetch_noCreation; reflexivity | intro].
    apply (preserves_ret noCreation noCreation_refl). }
  intro. unfold removeDummy.
  destruct (_ =? 0); [| apply (preserves_ret noCreation noCreation_refl)].
  apply (preserves_bind noCreation noCreation_trans);
    [apply spotifyFetch_noCreation; reflexivity | intro].
  apply (preserves_ret noCreation noCreation_refl).
Qed.

Lemma uploads_noCreation :
  preserves noCreation
    (user <- theUser ;;
     dbPlaylists <- Prisma.playlist_findMany_withLabel (User.id user) ;;
     promiseAll dbPlaylists pushPlaylist ;;
     ret tt).
Proof.
  apply (preserves_bind noCreation noCreation_trans); [no_creation_chain | intro user].
  apply (preserves_bind noCreation noCreation_trans).
  { apply aside_noCreation. intro w. unfold Prisma.playlist_findMany_withLabel.
    destruct (allPresent _); repeat split; reflexivity. }
  intro dbPlaylists.
  apply (preserves_bind noCreation noCreation_trans);
    [| intro; apply (preserves_ret noCreation noCreation_refl)].
  apply (preserves_promiseAll noCreation noCreation_refl noCreation_trans).
  apply pushPlaylist_noCreation.
Qed.

(** With a playlist for every label of the user, the push goes straight
    to the uploads. *)
Lemma syncPlaylists_provisioned w :
  (forall l, In l (Db.labels (World.db w)) ->
     Label.userId l = User.id (World.user w) -> provisioned (World.db w) l) ->
  syncPlaylists w =
    (user <- theUser ;;
     dbPlaylists <- Prisma.playlist_findMany_withLabel (User.id user) ;;
     promiseAll dbPlaylists pushPlaylist ;;
     ret tt) w.
Proof.
  intro Hall.
  assert (Hnone : filter (fun l =>
                     (Label.userId l =? User.id (World.user w))
                     && negb (existsb (fun p => Playlist.labelId p =? Label.id l)
                                (Db.playlists (World.db w))))
                    (Db.labels (World.db w)) = []).
  { apply filter_nothing. intros l Hl.
    destruct (Label.userId l =? User.id (World.user w)) eqn:Hu; [| reflexivity].
    apply Nat.eqb_eq in Hu. destruct (Hall l Hl Hu) as (p & Hp & Hid).
    cbn [andb]. apply negb_false_iff, existsb_exists.
    exists p. split; [exact Hp | apply Nat.eqb_eq; exact Hid]. }
  unfold syncPlaylists at 1.
  unfold bind at 1. unfold theUser at 1.
  unfold bind at 1. unfold Prisma.label_findMany_withoutPlaylist at 1.
  cbn zeta. rewrite Hnone. reflexivity.
Qed.

End PushAgain.

(** X15.  Playlists are created once.  After a completed push every label
    has its playlist, so the next push, however it ends, sends nothing to
    the endpoint that creates playlists, leaves the playlists of the
    service under the ids they have, and adds no row to the [Playlist]
    table. *)
Theorem second_push_creates_no_playlist {L : CriteriaLanguage} w w1 :
  syncPlaylists w = (Return tt, w1) ->
  noCreation w1 (snd (syncPlaylists w1)).
Proof.
  intro H. rewrite syncPlaylists_provisioned; [apply uploads_noCreation |].
  intros l Hl Hu. apply (syncPlaylists_provisions w w1 H l Hl).
  pose proof (syncPlaylists_kept w) as Hkept. rewrite H in Hkept.
  destruct Hkept as (_ & _ & _ & _ & _ & Hid & _). cbn [snd] in Hid. congruence.
Qed.

Lemma second_push_creates_no_playlist_witness :
  let w1 := snd (syncPlaylists (L := LabelGrammar.language) twoLabelWorld) in
  List.length (Db.playlists (World.db w1)) = 2
  /\ noCreation w1 (snd (syncPlaylists (L := LabelGrammar.language) w1)).
Proof.
  cbn zeta. split; [vm_compute; reflexivity |].
  apply (second_push_creates_no_playlist (L := LabelGrammar.language) twoLabelWorld).
  vm_compute. reflexivity.
Defined.

(** ** What a push leaves in the playlist *)

Lemma serve_token r env refreshToken :
  snd (Remote.serve r (tokenRequest env refreshToken)) = r.
Proof.
  unfold Remote.serve. destruct (Remote.refuses r _); [reflexivity |].
  cbn. destruct (Remote.tokenGrants r refreshToken); reflexivity.
Qed.

(** A call that came back was served, under some token, by the service as
    it was before the call: a refresh on the way changes nothing there. *)
Lemma spotifyFetch_Return_served req w body w' :
  spotifyFetch req w = (Return body, w') ->
  exists token,
    Response.ok (fst (Remote.serve (World.spotify w) (authorized token req))) = true
    /\ World.spotify w' = snd (Remote.serve (World.spotify w) (authorized token req)).
Proof.
  rewrite spotifyFetch_split.
  destruct (expired w).
  - rewrite refreshAccessToken_cases. cbn zeta.
    destruct (granted _) as [token |]; [| discriminate].
    destruct (Js.validDate _) eqn:Hvalid; [| discriminate].
    destruct (Prisma.hasUser _ _) eqn:Hu; [| discriminate].
    rewrite user_update_done by assumption.
    unfold Object_assign. cbn [snd].
    intro H. apply sendAuthorized_Return in H as (Hok & _ & _ & Hs & _).
    cbn [World.spotify World.user World.setUser World.setDb World.exchanged World.logged]
      in Hok, Hs.
    unfold refreshRequest in Hok, Hs. rewrite serve_token in Hok, Hs.
    eexists. split; [exact Hok | exact Hs].
  - intro H. apply sendAuthorized_Return in H as (Hok & _ & _ & Hs & _).
    eexists. split; [exact Hok | exact Hs].
Qed.

Lemma itemsOf_hasPlaylist r id :
  Remote.hasPlaylist r id = true -> exists items, Remote.itemsOf r id = Some items.
Proof.
  unfold Remote.hasPlaylist, Remote.itemsOf.
  induction (Remote.playlistItems r) as [| [k v] rest IH]; cbn; [discriminate |].
  destruct (String.eqb k id); cbn; [intros _; eexists; reflexivity | exact IH].
Qed.

Lemma itemsOf_updatePlaylist r id f other :
  Remote.itemsOf (Remote.updatePlaylist r id f) other =
    if String.eqb other id then option_map f (Remote.itemsOf r other)
    else Remote.itemsOf r other.
Proof.
  unfold Remote.itemsOf, Remote.updatePlaylist. cbn.
  induction (Remote.playlistItems r) as [| [k v] rest IH]; cbn.
  - destruct (String.eqb other id); reflexivity.
  - destruct (String.eqb k id) eqn:Hk; cbn.
    + apply String.eqb_eq in Hk. subst k.
      destruct (String.eqb id other) eqn:Ho; cbn.
      * apply String.eqb_eq in Ho. subst other. rewrite String.eqb_refl. reflexivity.
      * exact IH.
    + destruct (String.eqb k other) eqn:Ho; cbn; [| exact IH].
      apply String.eqb_eq in Ho. subst other. rewrite Hk. reflexivity.
Qed.

Lemma updatePlaylist_items r id f items :
  Remote.itemsOf r id = Some items ->
  Remote.itemsOf (Remote.updatePlaylist r id f) id = Some (f items)
  /\ forall other, other <> id ->
       Remote.itemsOf (Remote.updatePlaylist r id f) other = Remote.itemsOf r other.
Proof.
  intro H. split.
  - rewrite itemsOf_updatePlaylist, String.eqb_refl, H. reflexivity.
  - intros other Hother. rewrite itemsOf_updatePlaylist.
    apply String.eqb_neq in Hother. rewrite Hother. reflexivity.
Qed.

Lemma upload_served playlist entry w body w' :
  spotifyFetch (uploadRequest playlist entry) w = (Return body, w') ->
  exists items,
    Remote.itemsOf (World.spotify w) (PlaylistWithLabel.spotifyId playlist) = Some items
    /\ Remote.itemsOf (World.spotify w') (PlaylistWithLabel.spotifyId playlist) =
         Some (afterUpload entry items)
    /\ othersKept (PlaylistWithLabel.spotifyId playlist) w w'.
Proof.
  intro H. apply spotifyFetch_Return_served in H as (token & Hok & Hs).
  destruct entry as [index ids]. unfold afterUpload, othersKept. cbn [fst snd].
  unfold Remote.serve in Hok, Hs.
  destruct (Remote.refuses _ _); [discriminate |].
  cbn [uploadRequest authorized Request.method Request.url Request.body Request.make] in Hok, Hs.
  destruct (index =? 0); cbn in Hok, Hs;
    destruct (Remote.hasPlaylist (World.spotify w) (PlaylistWithLabel.spotifyId playlist))
      eqn:Hhas; try discriminate;
    apply itemsOf_hasPlaylist in Hhas as [items Hitems];
    exists items; (split; [exact Hitems |]); cbn [snd] in Hs; rewrite Hs.
  - exact (updatePlaylist_items _ _ (fun _ => map trackUri ids) _ Hitems).
  - exact (updatePlaylist_items _ _ (fun items0 => items0 ++ map trackUri ids) _ Hitems).
Qed.

Lemma removal_served playlist w body w' :
  spotifyFetch (removeDummyRequest playlist) w = (Return body, w') ->
  exists items,
    Remote.itemsOf (World.spotify w) (PlaylistWithLabel.spotifyId playlist) = Some items
    /\ Remote.itemsOf (World.spotify w') (PlaylistWithLabel.spotifyId playlist) =
         Some (Remote.without [trackUri dummyTrackSpotifyId] items)
    /\ othersKept (PlaylistWithLabel.spotifyId playlist) w w'.
Proof.
  intro H. apply spotifyFetch_Return_served in H as (token & Hok & Hs).
  unfold othersKept. unfold Remote.serve in Hok, Hs.
  destruct (Remote.refuses _ _); [discriminate |].
  cbn [removeDummyRequest authorized Request.method Request.url Request.body Request.make]
    in Hok, Hs.
  cbn in Hok, Hs.
  destruct (Remote.hasPlaylist (World.spotify w) (PlaylistWithLabel.spotifyId playlist))
    eqn:Hhas; try discriminate.
  apply itemsOf_hasPlaylist in Hhas as [items Hitems].
  exists items. split; [exact Hitems |]. cbn [snd] in Hs. rewrite Hs.
  exact (updatePlaylist_items _ _ (Remote.without [trackUri dummyTrackSpotifyId]) _ Hitems).
Qed.

Lemma uploads_served playlist entries w w' items :
  forEach entries (fun entry => spotifyFetch (uploadRequest playlist entry) ;; ret tt) w
    = (Return tt, w') ->
  Remote.itemsOf (World.spotify w) (PlaylistWithLabel.spotifyId playlist) = Some items ->
  Remote.itemsOf (World.spotify w') (PlaylistWithLabel.spotifyId playlist) =
    Some (afterUploads entries items)
  /\ othersKept (PlaylistWithLabel.spotifyId playlist) w w'.
Proof.
  revert w items. induction entries as [| entry entries IH]; intros w items H Hitems.
  - injection H as <-. split; [exact Hitems | intros other _; reflexivity].
  - cbn [forEach] in H. apply bind_Return in H as ([] & w1 & H1 & H).
    apply bind_Return in H1 as (body & w0 & H1 & Hret). injection Hret as <-.
    apply upload_served in H1 as (items0 & Hbefore & Hafter & Hothers).
    rewrite Hitems in Hbefore. injection Hbefore as <-.
    destruct (IH _ _ H Hafter) as [Hend Hrest].
    split; [exact Hend |].
    intros other Hother. rewrite (Hrest other Hother). apply Hothers. exact Hother.
Qed.

Lemma afterUploads_later index chunks items :
  afterUploads (Lodash.entries_from (S index) chunks) items =
  items ++ map trackUri (List.concat chunks).
Proof.
  revert index items. induction chunks as [| c chunks IH]; intros index items.
  - cbn. symmetry. apply app_nil_r.
  - cbn [Lodash.entries_from]. unfold afterUploads in *. cbn [fold_left].
    rewrite IH. unfold afterUpload. cbn [fst snd Nat.eqb List.concat].
    rewrite map_app, app_assoc. reflexivity.
Qed.

(** The uploads of the chunks of [ids] leave exactly [ids] in the playlist. *)
Lemma afterUploads_chunks ids items :
  ids <> [] ->
  afterUploads (Lodash.entries (Lodash.chunk ids 50)) items = map trackUri ids.
Proof.
  intro Hne. rewrite <- (chunk_concat 49 ids) at 2.
  destruct ids as [| x ids]; [congruence |].
  rewrite chunk_cons. unfold Lodash.entries. rewrite entries_from_cons.
  unfold afterUploads. cbn [fold_left].
  change (fold_left (fun items0 entry => afterUpload entry items0) ?es ?i)
    with (afterUploads es i).
  rewrite afterUploads_later. unfold afterUpload. cbn [fst snd Nat.eqb List.concat].
  symmetry. apply map_app.
Qed.

Lemma without_dummy_alone :
  Remote.without [trackUri dummyTrackSpotifyId] (map trackUri [dummyTrackSpotifyId]) = [].
Proof. reflexivity. Qed.

(** X16.  A completed push of a label that is not smart leaves in its
    playlist on the service exactly the tracks of the label, in the order
    of the label: the chunks, replaced and appended, add up to the whole
    list, and an empty label ends with an empty playlist, the dummy track
    put in and taken out again.  No other playlist changes. *)
Theorem completed_push_mirrors_the_label {L : CriteriaLanguage} playlist w w' :
  LabelWithTracks.smartCriteria (PlaylistWithLabel.label playlist) = None ->
  pushPlaylist playlist w = (Return tt, w') ->
  Remote.itemsOf (World.spotify w') (PlaylistWithLabel.spotifyId playlist) =
    Some (map trackUri
            (map Track.spotifyId
               (LabelWithTracks.tracks (PlaylistWithLabel.label playlist))))
  /\ othersKept (PlaylistWithLabel.spotifyId playlist) w w'.
Proof.
  intros Hstatic H. unfold pushPlaylist in H.
  apply bind_Return in H as (tracks & w0 & Hres & H).
  unfold resolveTracks in Hres. rewrite Hstatic in Hres. injection Hres as <- <-.
  apply bind_Return in H as ([] & w1 & Hup & Hrm).
  unfold uploadTracks in Hup.
  set (relation := LabelWithTracks.tracks (PlaylistWithLabel.label playlist)) in *.
  change (if 0 <? List.length (map Track.spotifyId relation)
          then map Track.spotifyId relation else [dummyTrackSpotifyId])
    with (uploadedIds relation) in Hup.
  assert (Hfirst : exists items,
             Remote.itemsOf (World.spotify w) (PlaylistWithLabel.spotifyId playlist)
             = Some items).
  { pose proof (uploadedIds_nonempty relation) as Hne.
    destruct (uploadedIds relation) as [| x ids] eqn:Hids; [congruence |].
    rewrite chunk_cons in Hup. unfold Lodash.entries in Hup.
    rewrite entries_from_cons in Hup. cbn [forEach] in Hup.
    apply bind_Return in Hup as ([] & w2 & Hup & _).
    apply bind_Return in Hup as (body & w3 & Hup & _).
    apply upload_served in Hup as (items & Hitems & _). exists items. exact Hitems. }
  destruct Hfirst as [items Hitems].
  destruct (uploads_served _ _ _ _ _ Hup Hitems) as [Hafter Hothers].
  rewrite afterUploads_chunks in Hafter by apply uploadedIds_nonempty.
  unfold removeDummy in Hrm. fold relation in Hrm.
  unfold uploadedIds in Hafter. rewrite length_map in Hafter.
  destruct relation as [| t rest] eqn:Hrel.
  - cbn [List.length Nat.eqb Nat.ltb Nat.leb] in Hrm, Hafter.
    apply bind_Return in Hrm as (body & w2 & Hrm & Hret). injection Hret as <-.
    apply removal_served in Hrm as (items1 & Hbefore & Hend & Hothers2).
    rewrite Hafter in Hbefore. injection Hbefore as <-.
    split; [rewrite Hend; reflexivity |].
    intros other Hother. rewrite (Hothers2 other Hother). apply Hothers. exact Hother.
  - cbn [List.length Nat.eqb] in Hrm. injection Hrm as <-.
    split; [exact Hafter | exact Hothers].
Qed.

Lemma completed_push_mirrors_the_label_witness :
  Remote.itemsOf
    (World.spotify
       (snd (pushPlaylist (L := LabelGrammar.language)
               (playlistOf 51 label51) (playlistWorld 51 label51))))
    "playlist-x"
  = Some (map trackUri
            (map Track.spotifyId
               (LabelWithTracks.tracks
                  (PlaylistWithLabel.label (playlistOf 51 label51))))).
Proof.
  apply (completed_push_mirrors_the_label (L := LabelGrammar.language)
           (playlistOf 51 label51) (playlistWorld 51 label51)).
  - reflexivity.
  - vm_compute. reflexivity.
Defined.

(** ** Smart labels whose query fails *)

(** X17.  A failure in the query of a smart label never leaves the push of
    its playlist: [resolveTracks] does not throw, whatever the parser and
    the store do, and when the store rejects the filter the criteria
    compiled to, the label resolves to no track at all and the error goes
    to the log, the world being otherwise as it was. *)
Theorem smart_label_failures_are_caught {L : CriteriaLanguage} playlist w :
  (forall e, fst (resolveTracks playlist w) <> Throw e)
  /\ (forall criteria filter,
        LabelWithTracks.smartCriteria (PlaylistWithLabel.label playlist) = Some criteria ->
        generatePrismaFilter criteria = Return (Some filter) ->
        selects filter = None ->
        resolveTracks playlist w =
          (Return [], World.logged (ErrorCaught (PrismaError InvalidWhere)) w)).
Proof.
  split.
  - intro e. unfold resolveTracks.
    destruct (LabelWithTracks.smartCriteria _) as [criteria |]; [| discriminate].
    unfold tryCatch, bind, theUser, lift, Prisma.track_findMany_where, log, ret. cbn.
    destruct (generatePrismaFilter criteria) as [[filter |] | e' |]; cbn;
      try discriminate.
    destruct (selects filter); discriminate.
  - intros criteria filter Hsmart Hfilter Hrejected.
    unfold resolveTracks. rewrite Hsmart.
    unfold tryCatch, bind, theUser, lift, Prisma.track_findMany_where. rewrite Hfilter.
    cbn. rewrite Hrejected. reflexivity.
Qed.

Lemma smart_label_failures_are_caught_witness :
  resolveTracks (L := uncheckedLanguage)
    (playlistOf 2 senselessLabel) (playlistWorld 2 senselessLabel)
  = (Return [],
     World.logged (ErrorCaught (PrismaError InvalidWhere)) (playlistWorld 2 senselessLabel)).
Proof.
  refine (proj2 (smart_label_failures_are_caught (L := uncheckedLanguage)
                   (playlistOf 2 senselessLabel) (playlistWorld 2 senselessLabel))
            "explicit > 3"
            (LabelGrammar.Comparison LabelGrammar.ExplicitFlag LabelGrammar.Gt
               (LabelGrammar.LNumber 3))
            _ _ _).
  - reflexivity.
  - vm_compute. reflexivity.
  - reflexivity.
Defined.

(* ================================================================== *)
(** * The OAuth callback page *)

Section Login.
Import OauthCallback.

Lemma nextId_bound {A} (id : A -> nat) rows row :
  In row rows -> id row < Prisma.nextId id rows.
Proof.
  unfold Prisma.nextId. induction rows as [| x rows IH]; [contradiction |].
  cbn [fold_right]. intros [<- | Hin]; [lia |].
  specialize (IH Hin). lia.
Qed.

Lemma nextId_fresh {A} (id : A -> nat) rows : ~ In (Prisma.nextId id rows) (map id rows).
Proof.
  intro H. apply in_map_iff in H as (row & Hid & Hin).
  pose proof (nextId_bound id rows row Hin). lia.
Qed.

Lemma find_spotifyId_none spotifyId rows :
  find (fun row => String.eqb (User.spotifyId row) spotifyId) rows = None ->
  ~ In spotifyId (map User.spotifyId rows).
Proof.
  intros Hfind Hin. apply in_map_iff in Hin as (row & Hid & Hin).
  pose proof (find_none _ _ Hfind row Hin) as Hno. cbn in Hno.
  rewrite Hid, String.eqb_refl in Hno. discriminate.
Qed.

Lemma updated_identity now fields spotifyId rows :
  map identity
    (map (fun row => if String.eqb (User.spotifyId row) spotifyId
                     then updatedRow now fields row else row) rows)
  = map identity rows.
Proof.
  rewrite map_map. apply map_ext. intro row.
  destruct (String.eqb (User.spotifyId row) spotifyId); reflexivity.
Qed.

(** The upsert keeps what identifies the rows and adds one row at most,
    under a fresh id and for a Spotify id that was not there. *)
Lemma user_upsert_identity spotifyId fields s :
  let s' := snd (user_upsert spotifyId fields s) in
  exists more,
    map identity (users s') = map identity (users s) ++ more
    /\ List.length more <= 1
    /\ (forall i, In i more ->
          ~ In (fst (fst (fst i))) (map User.id (users s))
          /\ ~ In (snd (fst (fst i))) (map User.spotifyId (users s))).
Proof.
  cbn zeta. unfold user_upsert.
  destruct (find _ (users s)) as [found |] eqn:Hfind; cbn [snd users].
  - exists []. rewrite updated_identity, app_nil_r.
    split; [reflexivity |]. split; [cbn; lia | intros i []].
  - eexists. rewrite map_app. split; [reflexivity |].
    split; [cbn; lia |].
    intros i [<- | []]. cbn. split.
    + apply nextId_fresh.
    + apply find_spotifyId_none. exact Hfind.
Qed.

Lemma user_upsert_frame spotifyId fields s :
  let s' := snd (user_upsert spotifyId fields s) in
  clock s' = clock s /\ env s' = env s /\ session s' = session s
  /\ answers s' = answers s /\ calls s' = calls s
  /\ sessionsCreated s' = sessionsCreated s.
Proof.
  cbn zeta. unfold user_upsert. destruct (find _ (users s)); repeat split.
Qed.

(** The row the upsert selects is in the table afterwards, with the
    fields of this login. *)
Lemma user_upsert_selected spotifyId fields s :
  let selected := fst (user_upsert spotifyId fields s) in
  let s' := snd (user_upsert spotifyId fields s) in
  exists row,
    In row (users s')
    /\ selected = (User.id row, User.role row)
    /\ User.spotifyId row = spotifyId
    /\ User.avatarUrl row = avatarUrl fields
    /\ User.accessToken row = accessToken fields
    /\ User.refreshToken row = refreshToken fields
    /\ User.accessTokenExpiresAt row = accessTokenExpiresAt fields
    /\ User.updatedAt row = clock s.
Proof.
  cbn zeta. unfold user_upsert.
  destruct (find _ (users s)) as [found |] eqn:Hfind; cbn [fst snd users].
  - apply find_some in Hfind as [Hin Heq].
    exists (updatedRow (clock s) fields found). split.
    + apply in_map_iff. exists found. rewrite Heq. split; [reflexivity | exact Hin].
    + apply String.eqb_eq in Heq. repeat split. exact Heq.
  - eexists. split; [apply in_or_app; right; left; reflexivity |].
    repeat split.
Qed.

Lemma user_upsert_others spotifyId fields s other :
  In other (users s) -> User.spotifyId other <> spotifyId ->
  In other (users (snd (user_upsert spotifyId fields s))).
Proof.
  intros Hin Hother. unfold user_upsert.
  destruct (find _ (users s)); cbn [snd users].
  - apply in_map_iff. exists other. split; [| exact Hin].
    apply String.eqb_neq in Hother. rewrite Hother. reflexivity.
  - apply in_or_app. left. exact Hin.
Qed.

Lemma truthy_Some value v : truthy value = Some v -> value = Some v /\ v <> "".
Proof.
  destruct value as [x |]; cbn; [| discriminate].
  destruct (String.eqb x "") eqn:E; [discriminate |].
  intro H. injection H as <-. split; [reflexivity |]. apply String.eqb_neq. exact E.
Qed.

Lemma sameHandle_true state h : sameHandle state h = true -> h = Some state.
Proof.
  destruct h as [x |]; cbn; [| discriminate].
  intro H. apply String.eqb_eq in H. congruence.
Qed.

(** X18.  No login without the code and the state of this session: when
    the [code] parameter is missing or empty, or the [state] parameter is,
    or the state is not the handle of the session, the page throws an
    [Error], and nothing has been sent to Spotify, written to the store or
    put into a session by then. *)
Theorem login_refused_without_code_or_state searchParams s :
  truthy (searchParams_get "code" searchParams) = None
  \/ truthy (searchParams_get "state" searchParams) = None
  \/ searchParams_get "state" searchParams <> handle (session s) ->
  exists message, getServerSideProps searchParams s = (inl (Error message), s).
Proof.
  intro H. unfold getServerSideProps.
  destruct (truthy (searchParams_get "code" searchParams)) as [code |];
    [| eexists; reflexivity].
  destruct (truthy (searchParams_get "state" searchParams)) as [state |] eqn:Hstate;
    [| eexists; reflexivity].
  destruct (sameHandle state (handle (session s))) eqn:Hsame;
    [| eexists; reflexivity].
  exfalso. destruct H as [H | [H | H]]; try discriminate.
  apply H. apply truthy_Some in Hstate as [-> _].
  symmetry. apply sameHandle_true. exact Hsame.
Qed.

Lemma login_refused_without_code_or_state_witness :
  getServerSideProps [("code", ""); ("state", "handle-1")] sampleState
  = (inl (Error "Search param 'code' is missing or empty"), sampleState)
  /\ exists message,
       getServerSideProps [("code", "good-code"); ("state", "handle-2")] sampleState
       = (inl (Error message), sampleState).
Proof.
  split; [reflexivity |].
  apply login_refused_without_code_or_state.
  right. right. cbn. discriminate.
Defined.

(** X19.  A completed login.  The code and the state were there and the
    state was the handle of the session; two requests went out, the
    exchange of the code under the client's credentials and then the
    profile under the token just granted; the store holds a row for the
    Spotify id of the profile with the granted tokens, the expiry a
    minute short of the granted time and the first image as avatar; the
    session was created for the id and the role of that row; the rows of
    other users are as they were; and the page redirects to the address
    kept in the session, or to the root. *)
Theorem completed_login_stores_the_profile searchParams s redirect s' :
  getServerSideProps searchParams s = (inr redirect, s') ->
  exists code access refresh expires spotifyId pictures row,
    searchParams_get "code" searchParams = Some code
    /\ searchParams_get "state" searchParams = handle (session s)
    /\ answers s (ExchangeCode
                    (Basic (SPOTIFY_CLIENT_ID (env s)) (SPOTIFY_CLIENT_SECRET (env s)))
                    code (DOMAIN (env s) ++ "/auth/oauth_callback")%string)
       = TokenBody access refresh expires
    /\ answers s (GetProfile (Bearer access)) = ProfileBody spotifyId pictures
    /\ calls s' =
         calls s
         ++ [ExchangeCode
               (Basic (SPOTIFY_CLIENT_ID (env s)) (SPOTIFY_CLIENT_SECRET (env s)))
               code (DOMAIN (env s) ++ "/auth/oauth_callback")%string;
             GetProfile (Bearer access)]
    /\ In row (users s')
    /\ User.spotifyId row = spotifyId
    /\ User.accessToken row = access
    /\ User.refreshToken row = refresh
    /\ User.accessTokenExpiresAt row = (clock s + (expires - 60) * 1000)%Z
    /\ User.avatarUrl row = option_map Api.Image.url (nth_error pictures 0)
    /\ sessionsCreated s' = sessionsCreated s ++ [(User.id row, User.role row)]
    /\ (forall other, In other (users s) -> User.spotifyId other <> spotifyId ->
          In other (users s'))
    /\ redirect = Js.nullish (redirectUri (session s)) "/".
Proof.
  unfold getServerSideProps.
  destruct (truthy (searchParams_get "code" searchParams)) as [code |] eqn:Hcode;
    [| discriminate].
  destruct (truthy (searchParams_get "state" searchParams)) as [state |] eqn:Hstate;
    [| discriminate].
  destruct (sameHandle state (handle (session s))) eqn:Hsame; [| discriminate].
  cbn [negb]. unfold fetch. cbn [answers].
  destruct (answers s (ExchangeCode _ code _)) as [access refresh expires | |] eqn:Htoken;
    try discriminate.
  cbn [TokenResponse_parse access_token refresh_token expires_in].
  destruct (answers s (GetProfile (Bearer access))) as [| spotifyId pictures |] eqn:Hprofile;
    try discriminate.
  cbn [ProfileResponse_parse id images clock].
  match goal with
  | |- context [user_upsert ?i ?f ?st] =>
      pose proof (user_upsert_selected i f st) as Hsel;
      pose proof (user_upsert_frame i f st) as Hframe;
      pose proof (fun other => user_upsert_others i f st other) as Hothers;
      destruct (user_upsert i f st) as [selected s3]
  end.
  cbn zeta in Hsel, Hframe. cbn [fst snd] in Hsel, Hframe, Hothers.
  destruct Hsel as (row & Hin & -> & Hid & Havatar & Haccess & Hrefresh & Hexpiry & _).
  destruct Hframe as (_ & _ & _ & _ & Hcalls & Hsessions).
  intro H. injection H as <- <-.
  apply truthy_Some in Hcode as [Hcode _]. apply truthy_Some in Hstate as [Hstate _].
  apply sameHandle_true in Hsame.
  exists code, access, refresh, expires, spotifyId, pictures, row.
  cbn [users calls sessionsCreated session_create
       avatarUrl accessToken refreshToken accessTokenExpiresAt] in *.
  repeat match goal with |- _ /\ _ => split end;
    first [ assumption | reflexivity | congruence
          | rewrite Hcalls, <- app_assoc; reflexivity
          | rewrite Hsessions; reflexivity ].
Qed.

Lemma completed_login_stores_the_profile_witness :
  exists row,
    In row (users (snd (getServerSideProps goodQuery sampleState)))
    /\ User.accessTokenExpiresAt row = 3545000%Z
    /\ sessionsCreated (snd (getServerSideProps goodQuery sampleState))
       = [(User.id row, User.role row)].
Proof.
  destruct (completed_login_stores_the_profile goodQuery sampleState "/"
              (snd (getServerSideProps goodQuery sampleState)) eq_refl)
    as (code & access & refresh & expires & spotifyId & pictures & row
        & Hcode & _ & Htoken & _ & _ & Hin & _ & _ & _ & Hexpiry & _ & Hsessions & _).
  exists row. split; [exact Hin |]. split; [| exact Hsessions].
  cbn in Hcode. injection Hcode as <-.
  cbn in Htoken. injection Htoken as _ _ <-. exact Hexpiry.
Defined.

(** X20.  A login that fails writes nothing: whatever it throws, the
    [User] table and the sessions are as they were. *)
Theorem failed_login_leaves_no_trace searchParams s failure s' :
  getServerSideProps searchParams s = (inl failure, s') ->
  users s' = users s /\ sessionsCreated s' = sessionsCreated s.
Proof.
  unfold getServerSideProps.
  destruct (truthy (searchParams_get "code" searchParams)) as [code |];
    [| intro H; injection H as _ <-; split; reflexivity].
  destruct (truthy (searchParams_get "state" searchParams)) as [state |];
    [| intro H; injection H as _ <-; split; reflexivity].
  destruct (negb _); [intro H; injection H as _ <-; split; reflexivity |].
  unfold fetch. cbn [answers].
  destruct (TokenResponse_parse _) as [token |];
    [| intro H; injection H as _ <-; split; reflexivity].
  destruct (ProfileResponse_parse _) as [profile |];
    [| intro H; injection H as _ <-; split; reflexivity].
  destruct (user_upsert _ _ _). discriminate.
Qed.

Lemma failed_login_leaves_no_trace_witness :
  fst (getServerSideProps [("code", "used-code"); ("state", "handle-1")] sampleState)
    = inl ZodError
  /\ users (snd (getServerSideProps
                   [("code", "used-code"); ("state", "handle-1")] sampleState))
     = users sampleState.
Proof.
  split; [reflexivity |].
  apply (failed_login_leaves_no_trace
           [("code", "used-code"); ("state", "handle-1")] sampleState ZodError).
  reflexivity.
Defined.

(** X21.  The login keeps the users apart.  However it ends, every row
    keeps its id, its Spotify id, its creation time and its role, at most
    one row is added, and when no id and no Spotify id was held by two
    rows before, none is afterwards. *)
Theorem login_keeps_users_apart searchParams s :
  NoDup (map User.id (users s)) ->
  NoDup (map User.spotifyId (users s)) ->
  let s' := snd (getServerSideProps searchParams s) in
  NoDup (map User.id (users s'))
  /\ NoDup (map User.spotifyId (users s'))
  /\ exists more,
       map identity (users s') = map identity (users s) ++ more
       /\ List.length more <= 1.
Proof.
  intros Hids Hspotify. cbn zeta.
  assert (Hsame : forall st, users st = users s ->
            NoDup (map User.id (users st))
            /\ NoDup (map User.spotifyId (users st))
            /\ exists more,
                 map identity (users st) = map identity (users s) ++ more
                 /\ List.length more <= 1).
  { intros st ->. split; [exact Hids |]. split; [exact Hspotify |].
    exists []. rewrite app_nil_r. split; [reflexivity | cbn; lia]. }
  unfold getServerSideProps.
  destruct (truthy (searchParams_get "code" searchParams)) as [code |];
    [| apply Hsame; reflexivity].
  destruct (truthy (searchParams_get "state" searchParams)) as [state |];
    [| apply Hsame; reflexivity].
  destruct (negb _); [apply Hsame; reflexivity |].
  unfold fetch. cbn [answers].
  destruct (TokenResponse_parse _) as [token |]; [| apply Hsame; reflexivity].
  destruct (ProfileResponse_parse _) as [profile |]; [| apply Hsame; reflexivity].
  match goal with
  | |- context [user_upsert ?i ?f ?st] =>
      pose proof (user_upsert_identity i f st) as Hup;
      destruct (user_upsert i f st) as [selected s3]
  end.
  cbn zeta in Hup. cbn [snd users session_create] in *.
  destruct Hup as (more & Hmore & Hlen & Hfresh).
  assert (Hid : map User.id (users s3) = map User.id (users s) ++ map (fun i => fst (fst (fst i))) more).
  { transitivity (map (fun i => fst (fst (fst i))) (map identity (users s3)));
      [rewrite map_map; reflexivity |].
    rewrite Hmore, map_app, map_map. reflexivity. }
  assert (Hsp : map User.spotifyId (users s3)
                = map User.spotifyId (users s) ++ map (fun i => snd (fst (fst i))) more).
  { transitivity (map (fun i => snd (fst (fst i))) (map identity (users s3)));
      [rewrite map_map; reflexivity |].
    rewrite Hmore, map_app, map_map. reflexivity. }
  split; [| split; [| exists more; split; assumption]].
  - rewrite Hid. destruct more as [| i [| ? ?]]; cbn in *; try lia.
    + rewrite app_nil_r. exact Hids.
    + apply NoDup_app; [exact Hids | repeat constructor; intros [] |].
      intros x Hx [<- | []]. apply (proj1 (Hfresh i (or_introl eq_refl))). exact Hx.
  - rewrite Hsp. destruct more as [| i [| ? ?]]; cbn in *; try lia.
    + rewrite app_nil_r. exact Hspotify.
    + apply NoDup_app; [exact Hspotify | repeat constructor; intros [] |].
      intros x Hx [<- | []]. apply (proj2 (Hfresh i (or_introl eq_refl))). exact Hx.
Qed.

Lemma login_keeps_users_apart_witness :
  NoDup (map User.id (users (snd (getServerSideProps goodQuery sampleState))))
  /\ NoDup (map User.spotifyId (users (snd (getServerSideProps goodQuery sampleState)))).
Proof.
  destruct (login_keeps_users_apart goodQuery sampleState) as (Hids & Hspotify & _).
  - cbn. repeat constructor; cbn; intuition discriminate.
  - cbn. repeat constructor; cbn; intuition discriminate.
  - split; [exact Hids | exact Hspotify].
Defined.

End Login.
